(** * Pin and class addressing of physical tile types

    A shallow embedding of [libs/libarchfpga/src/physical_types_util.cpp]:
    the translators between tile-global physical pin / class numbers and
    the (sub-tile, capacity instance, logical block, logical number)
    coordinates of an FPGA architecture description.

    Conventions of the embedding.
    - A C++ [int] is a [Z].  Signed overflow is undefined behaviour in
      C++, so there is no wrap-around to model; the pin and class counts
      of an architecture are far below 2^31.
    - [a / b] and [a % b] on [int] truncate towards zero ([Z.quot],
      [Z.rem]); a zero divisor and an out-of-bounds [operator[]] are
      undefined behaviour and show up as the outcome [Undefined].
    - [archfpga_throw], a failed [VTR_ASSERT] and the [std::out_of_range]
      of [.at()] are three further, distinct outcomes.
    - A [const t_sub_tile*] obtained from [physical_tile->sub_tiles] is the
      position of the sub-tile in that vector, [nullptr] is [None].
    - A [t_logical_block_type_ptr] is an address; the logical block types
      live in a read-only store that the functions take as [lb]. *)

From Stdlib Require Import ZArith String List Lia DecimalString.
From stdpp Require Import base option list gmap strings.

Local Open Scope string_scope.
Local Open Scope list_scope.
Local Open Scope Z_scope.

(** ** Outcomes of a call *)

(** The messages of the [archfpga_throw] calls, with their arguments. *)
Inductive arch_error : Type :=
| CouldNotInferPinInstance (tile_name : string) (pin_index : Z)
| NoPhysicalPinForLogicalPin (pin : Z) (tile_name block_name : string)
| NoInstanceOfLogicalBlock (block_name tile_name : string)
| NoPhysicalTilePin (pin : Z)
| NoSubTileContainsPin (pin : Z) (tile_name : string)
| NoSubTileContainsRelativePin (relative_pin capacity_location : Z)
                               (tile_name : string).

Inductive outcome (A : Type) : Type :=
| Ret (a : A)
| Throw (e : arch_error)
| AssertFail
| OutOfRange
| Undefined.

Arguments Ret {A} a.
Arguments Throw {A} e.
Arguments AssertFail {A}.
Arguments OutOfRange {A}.
Arguments Undefined {A}.

Definition bind {A B : Type} (m : outcome A) (k : A -> outcome B) : outcome B :=
  match m with
  | Ret a => k a
  | Throw e => Throw e
  | AssertFail => AssertFail
  | OutOfRange => OutOfRange
  | Undefined => Undefined
  end.

(** Modelled from the spec: the macro [VTR_ASSERT] (vtr_assert.h is not
    among the sources).  Section 7 of the specification makes a failed
    assertion an error class of its own, which aborts the computation. *)
Definition VTR_ASSERT (cond : bool) : outcome unit :=
  if cond then Ret tt else AssertFail.

Notation "'let*' x ':=' m 'in' k" := (bind m (fun x => k))
  (at level 10, x name, m at level 100, k at level 200).
Notation "'let*' ' pat ':=' m 'in' k" :=
  (bind m (fun x => match x with pat => k end))
  (at level 10, pat pattern, m at level 100, k at level 200).

(** Modelled from the spec: the constant [OPEN] (declared outside the
    sources), the "unresolved" sentinel of an index; no valid index is
    negative. *)
Definition OPEN : Z := -1.

Definition int_div (a b : Z) : outcome Z :=
  if b =? 0 then Undefined else Ret (Z.quot a b).

Definition int_mod (a b : Z) : outcome Z :=
  if b =? 0 then Undefined else Ret (Z.rem a b).

(** [v[i]] on a [std::vector] with an [int] index. *)
Definition vec_get {A : Type} (v : list A) (i : Z) : outcome A :=
  if i <? 0 then Undefined
  else match v !! Z.to_nat i with
       | Some a => Ret a
       | None => Undefined
       end.

(** [std::to_string] on an [int]. *)
Definition to_string (z : Z) : string := NilZero.string_of_int (Z.to_int z).

(** ** Data model *)

(** Modelled from the spec: [t_capacity_range] (physical_types.h is not
    among the sources): "a capacity range [low, high] (instance count =
    high - low + 1)". *)
Record t_capacity_range : Type := {
  low : Z;
  high : Z
}.

Definition total (c : t_capacity_range) : Z := high c - low c + 1.

Definition is_in_range (c : t_capacity_range) (cap : Z) : bool :=
  (low c <=? cap) && (cap <=? high c).

Inductive e_pin_type : Type := OPEN_PIN | DRIVER | RECEIVER.

Definition e_pin_type_eqb (a b : e_pin_type) : bool :=
  match a, b with
  | OPEN_PIN, OPEN_PIN | DRIVER, DRIVER | RECEIVER, RECEIVER => true
  | _, _ => false
  end.

Record t_class : Type := {
  class_type : e_pin_type;
  class_num_pins : Z;
  pinlist : list Z
}.

Record t_physical_tile_port : Type := {
  port_name : string;
  port_index : Z;
  absolute_first_pin_index : Z;
  port_num_pins : Z
}.

Record t_pb_type : Type := {
  pb_num_pins : Z
}.

(** A logical block type.  [pb_pin_idx_bimap] relates the pins of the whole
    pin graph to their logical numbers: the pin at position [i] has
    number [i]. *)
Record t_logical_block_type : Type := {
  lb_name : string;
  lb_index : Z;
  pb_type : t_pb_type;
  pb_pin_idx_bimap : list nat;
  primitive_class_inf : list t_class
}.

Abbreviation t_logical_block_type_ptr := nat.

Record t_sub_tile : Type := {
  index : Z;
  capacity : t_capacity_range;
  num_phy_pins : Z;
  equivalent_sites : list t_logical_block_type_ptr;
  ports : list t_physical_tile_port;
  sub_tile_to_tile_pin_indices : list Z
}.

(** [tile_block_pin_directs_map]: logical block index, then sub-tile index,
    then the logical-pin to sub-tile-pin direction of the bimap. *)
Record t_physical_tile_type : Type := {
  name : string;
  num_pins : Z;
  sub_tiles : list t_sub_tile;
  pin_class : list Z;
  class_inf : list t_class;
  tile_block_pin_directs_map : gmap Z (gmap Z (gmap Z Z))
}.

Abbreviation t_sub_tile_ptr := nat.

(** [v.size()] converted to [int]. *)
Definition size {A : Type} (v : list A) : Z := Z.of_nat (length v).

(** ** Root-level pin translation *)

Fixpoint get_pin_index_for_inst_loop (type_name : string)
    (sts : list t_sub_tile) (pin_index total_pin_counts pin_offset : Z)
    : outcome (Z * Z * Z) :=
  match sts with
  | [] => Throw (CouldNotInferPinInstance type_name pin_index)
  | sub_tile :: rest =>
      let total_pin_counts := total_pin_counts + num_phy_pins sub_tile in
      if pin_index <? total_pin_counts then
        let* pins_per_inst := int_div (num_phy_pins sub_tile)
                                      (total (capacity sub_tile)) in
        let* inst_num := int_div (pin_index - pin_offset) pins_per_inst in
        let* inst_index := int_mod (pin_index - pin_offset) pins_per_inst in
        Ret (inst_index, inst_num, index sub_tile)
      else
        get_pin_index_for_inst_loop type_name rest pin_index total_pin_counts
                                    (pin_offset + num_phy_pins sub_tile)
  end.

Definition get_pin_index_for_inst (type : t_physical_tile_type) (pin_index : Z)
    : outcome (Z * Z * Z) :=
  let* _ := VTR_ASSERT (pin_index <? num_pins type) in
  get_pin_index_for_inst_loop (name type) (sub_tiles type) pin_index 0 0.

Record t_pin_inst_port : Type := {
  sub_tile_index : Z;
  capacity_instance : Z;
  port_index_of_pin : Z;
  pin_index_in_port : Z
}.

Definition port_contains (port : t_physical_tile_port) (pin_index : Z) : bool :=
  (absolute_first_pin_index port <=? pin_index)
  && (pin_index <? absolute_first_pin_index port + port_num_pins port).

Fixpoint block_type_pin_index_to_pin_inst_loop (ps : list t_physical_tile_port)
    (pin_index : Z) (pin_inst_port : t_pin_inst_port) : t_pin_inst_port :=
  match ps with
  | [] => pin_inst_port
  | port :: rest =>
      if port_contains port pin_index then
        {| sub_tile_index := sub_tile_index pin_inst_port;
           capacity_instance := capacity_instance pin_inst_port;
           port_index_of_pin := port_index port;
           pin_index_in_port := pin_index - absolute_first_pin_index port |}
      else block_type_pin_index_to_pin_inst_loop rest pin_index pin_inst_port
  end.

Definition block_type_pin_index_to_pin_inst (type : t_physical_tile_type)
    (pin_index : Z) : outcome t_pin_inst_port :=
  let* '(pin_index, inst_num, sub_tile_index) :=
    get_pin_index_for_inst type pin_index in
  let pin_inst_port :=
    {| sub_tile_index := sub_tile_index;
       capacity_instance := inst_num;
       port_index_of_pin := OPEN;
       pin_index_in_port := OPEN |} in
  let* sub_tile := vec_get (sub_tiles type) sub_tile_index in
  Ret (block_type_pin_index_to_pin_inst_loop (ports sub_tile) pin_index
                                             pin_inst_port).

Fixpoint block_type_pin_index_to_name_loop (ps : list t_physical_tile_port)
    (pin_index : Z) (pin_name : string) : string :=
  match ps with
  | [] => "<UNKOWN>"
  | port :: rest =>
      if port_contains port pin_index then
        let index_in_port := pin_index - absolute_first_pin_index port in
        let pin_name := pin_name +:+ port_name port in
        pin_name +:+ "[" +:+ to_string index_in_port +:+ "]"
      else block_type_pin_index_to_name_loop rest pin_index pin_name
  end.

Definition block_type_pin_index_to_name (type : t_physical_tile_type)
    (pin_index : Z) : outcome string :=
  let* _ := VTR_ASSERT (pin_index <? num_pins type) in
  let pin_name := name type in
  let* '(pin_index, inst_num, sub_tile_index) :=
    get_pin_index_for_inst type pin_index in
  let* sub_tile := vec_get (sub_tiles type) sub_tile_index in
  let pin_name :=
    if 1 <? total (capacity sub_tile)
    then pin_name +:+ "[" +:+ to_string inst_num +:+ "]"
    else pin_name in
  let pin_name := pin_name +:+ "." in
  Ret (block_type_pin_index_to_name_loop (ports sub_tile) pin_index pin_name).

(** ** Capacity-location translation *)

Fixpoint get_capacity_location_from_physical_pin_loop (tile_name : string)
    (sts : list t_sub_tile) (pin pins_to_remove : Z) : outcome (Z * Z) :=
  match sts with
  | [] => Throw (NoSubTileContainsPin pin tile_name)
  | sub_tile :: rest =>
      let capacity := capacity sub_tile in
      let sub_tile_num_pins := num_phy_pins sub_tile in
      let sub_tile_pin := pin - pins_to_remove in
      if sub_tile_pin <? sub_tile_num_pins then
        let* per_inst := int_div sub_tile_num_pins (total capacity) in
        let* rel_capacity := int_div sub_tile_pin per_inst in
        let* rel_pin := int_mod sub_tile_pin per_inst in
        Ret (rel_capacity + low capacity, rel_pin)
      else
        get_capacity_location_from_physical_pin_loop tile_name rest pin
          (pins_to_remove + sub_tile_num_pins)
  end.

Definition get_capacity_location_from_physical_pin
    (physical_tile : t_physical_tile_type) (pin : Z) : outcome (Z * Z) :=
  get_capacity_location_from_physical_pin_loop (name physical_tile)
    (sub_tiles physical_tile) pin 0.

Fixpoint get_physical_pin_from_capacity_location_loop (tile_name : string)
    (sts : list t_sub_tile) (relative_pin capacity_location pins_to_add : Z)
    : outcome Z :=
  match sts with
  | [] => Throw (NoSubTileContainsRelativePin relative_pin capacity_location
                                              tile_name)
  | sub_tile :: rest =>
      let capacity := capacity sub_tile in
      let rel_capacity := capacity_location - low capacity in
      let* num_inst_pins := int_div (num_phy_pins sub_tile) (total capacity) in
      if is_in_range capacity capacity_location then
        Ret (pins_to_add + num_inst_pins * rel_capacity + relative_pin)
      else
        get_physical_pin_from_capacity_location_loop tile_name rest
          relative_pin capacity_location (pins_to_add + num_phy_pins sub_tile)
  end.

Definition get_physical_pin_from_capacity_location
    (physical_tile : t_physical_tile_type) (relative_pin capacity_location : Z)
    : outcome Z :=
  get_physical_pin_from_capacity_location_loop (name physical_tile)
    (sub_tiles physical_tile) relative_pin capacity_location 0.

Definition is_opin (ipin : Z) (type : t_physical_tile_type) : outcome bool :=
  if num_pins type <? ipin then Ret false
  else
    let* iclass := vec_get (pin_class type) ipin in
    let* cls := vec_get (class_inf type) iclass in
    if e_pin_type_eqb (class_type cls) DRIVER then Ret true else Ret false.

(** ** Functions that read logical block types *)

(** The outcome of one pass through a loop body that may [return]. *)
Inductive loop_step (R S : Type) : Type :=
| Return (r : R)
| Continue (s : S).

Arguments Return {R S} r.
Arguments Continue {R S} s.

Section WithLogicalBlocks.

(** The store of logical block types: what a [t_logical_block_type_ptr]
    points to. *)
Variable lb : t_logical_block_type_ptr -> t_logical_block_type.

(** [std::find(eq_sites.begin(), eq_sites.end(), logical_block) !=
    eq_sites.end()]: pointers are compared. *)
Definition is_equivalent_site (sub_tile : t_sub_tile)
    (logical_block : t_logical_block_type_ptr) : bool :=
  bool_decide (logical_block ∈ equivalent_sites sub_tile).

Definition get_sub_tile_physical_pin (sub_tile_index : Z)
    (physical_tile : t_physical_tile_type)
    (logical_block : t_logical_block_type_ptr) (pin : Z) : outcome Z :=
  match tile_block_pin_directs_map physical_tile
          !! lb_index (lb logical_block) with
  | None => OutOfRange
  | Some by_sub_tile =>
      match by_sub_tile !! sub_tile_index with
      | None => OutOfRange
      | Some direct_map =>
          match direct_map !! pin with
          | None => Throw (NoPhysicalPinForLogicalPin pin (name physical_tile)
                             (lb_name (lb logical_block)))
          | Some physical_pin => Ret physical_pin
          end
      end
  end.

(** The two-argument overload. *)
Fixpoint get_logical_block_physical_sub_tile_index_loop
    (sts : list t_sub_tile) (logical_block : t_logical_block_type_ptr)
    (sub_tile_index : Z) : Z :=
  match sts with
  | [] => sub_tile_index
  | sub_tile :: rest =>
      get_logical_block_physical_sub_tile_index_loop rest logical_block
        (if is_equivalent_site sub_tile logical_block
         then index sub_tile else sub_tile_index)
  end.

Definition get_logical_block_physical_sub_tile_index
    (physical_tile : t_physical_tile_type)
    (logical_block : t_logical_block_type_ptr) : outcome Z :=
  let sub_tile_index :=
    get_logical_block_physical_sub_tile_index_loop (sub_tiles physical_tile)
      logical_block OPEN in
  if sub_tile_index =? OPEN then
    Throw (NoInstanceOfLogicalBlock (lb_name (lb logical_block))
                                    (name physical_tile))
  else Ret sub_tile_index.

Definition get_physical_pin (physical_tile : t_physical_tile_type)
    (logical_block : t_logical_block_type_ptr) (pin : Z) : outcome Z :=
  let* sub_tile_index :=
    get_logical_block_physical_sub_tile_index physical_tile logical_block in
  if sub_tile_index =? OPEN then Throw (NoPhysicalTilePin pin)
  else
    let* sub_tile_physical_pin :=
      get_sub_tile_physical_pin sub_tile_index physical_tile logical_block
                                pin in
    let* sub_tile := vec_get (sub_tiles physical_tile) sub_tile_index in
    vec_get (sub_tile_to_tile_pin_indices sub_tile) sub_tile_physical_pin.

(** The three-argument, capacity-qualified overload. *)
Fixpoint get_logical_block_physical_sub_tile_index_at_loop
    (sts : list t_sub_tile) (logical_block : t_logical_block_type_ptr)
    (sub_tile_capacity : Z) (sub_tile_index : Z) : Z :=
  match sts with
  | [] => sub_tile_index
  | sub_tile :: rest =>
      if is_equivalent_site sub_tile logical_block
         && is_in_range (capacity sub_tile) sub_tile_capacity
      then index sub_tile
      else get_logical_block_physical_sub_tile_index_at_loop rest
             logical_block sub_tile_capacity sub_tile_index
  end.

Definition get_logical_block_physical_sub_tile_index_at
    (physical_tile : t_physical_tile_type)
    (logical_block : t_logical_block_type_ptr) (sub_tile_capacity : Z)
    : outcome Z :=
  let sub_tile_index :=
    get_logical_block_physical_sub_tile_index_at_loop
      (sub_tiles physical_tile) logical_block sub_tile_capacity OPEN in
  if sub_tile_index =? OPEN then
    Throw (NoInstanceOfLogicalBlock (lb_name (lb logical_block))
                                    (name physical_tile))
  else Ret sub_tile_index.

(** *** Total pin counts *)

Definition get_total_num_sub_tile_pins (sub_tile : t_sub_tile) : Z :=
  let num_pins :=
    fold_left (fun num_pins eq_site =>
                 num_pins + size (pb_pin_idx_bimap (lb eq_site)))
              (equivalent_sites sub_tile) 0 in
  num_pins * total (capacity sub_tile).

Definition get_total_num_tile_pins (tile : t_physical_tile_type) : Z :=
  fold_left (fun num_pins sub_tile =>
               fold_left (fun num_pins eq_site =>
                            num_pins + pb_num_pins (pb_type (lb eq_site))
                                       * total (capacity sub_tile))
                         (equivalent_sites sub_tile) num_pins)
            (sub_tiles tile) 0.

Definition get_tile_max_ptc (tile : t_physical_tile_type) (is_flat : bool)
    : outcome Z :=
  if is_flat then Ret (num_pins tile + get_total_num_tile_pins tile)
  else
    let* _ := VTR_ASSERT (negb is_flat) in
    Ret (num_pins tile).

(** *** Physical pin number to sub-tile and capacity instance *)

Fixpoint get_sub_tile_from_pin_physical_num_root (sts : list t_sub_tile)
    (pos : t_sub_tile_ptr) (physical_num num_seen_root_pins : Z)
    (target_sub_tile : option t_sub_tile_ptr) : option t_sub_tile_ptr :=
  match sts with
  | [] => target_sub_tile
  | sub_tile :: rest =>
      if physical_num <? num_seen_root_pins + num_phy_pins sub_tile then
        get_sub_tile_from_pin_physical_num_root rest (S pos) physical_num
          num_seen_root_pins (Some pos)
      else
        get_sub_tile_from_pin_physical_num_root rest (S pos) physical_num
          (num_seen_root_pins + num_phy_pins sub_tile) target_sub_tile
  end.

Fixpoint get_sub_tile_from_pin_physical_num_flat (sts : list t_sub_tile)
    (pos : t_sub_tile_ptr) (physical_num num_seen_root_pins : Z)
    (target_sub_tile : option t_sub_tile_ptr) : option t_sub_tile_ptr :=
  match sts with
  | [] => target_sub_tile
  | sub_tile :: rest =>
      let num_internal_sub_tile_pin :=
        get_total_num_sub_tile_pins sub_tile - num_phy_pins sub_tile in
      if physical_num <? num_seen_root_pins + num_internal_sub_tile_pin then
        get_sub_tile_from_pin_physical_num_flat rest (S pos) physical_num
          num_seen_root_pins (Some pos)
      else
        get_sub_tile_from_pin_physical_num_flat rest (S pos) physical_num
          (num_seen_root_pins + num_internal_sub_tile_pin) target_sub_tile
  end.

Definition get_sub_tile_from_pin_physical_num
    (physical_tile : t_physical_tile_type) (physical_num : Z)
    : outcome t_sub_tile_ptr :=
  let target_sub_tile :=
    if physical_num <? num_pins physical_tile then
      get_sub_tile_from_pin_physical_num_root (sub_tiles physical_tile) 0%nat
        physical_num 0 None
    else
      get_sub_tile_from_pin_physical_num_flat (sub_tiles physical_tile) 0%nat
        physical_num (num_pins physical_tile) None in
  let* _ := VTR_ASSERT (bool_decide (target_sub_tile <> None)) in
  match target_sub_tile with
  | Some p => Ret p
  | None => Undefined
  end.

(** [*sub_tile] for a pointer into [physical_tile->sub_tiles]. *)
Definition deref_sub_tile (physical_tile : t_physical_tile_type)
    (sub_tile : t_sub_tile_ptr) : outcome t_sub_tile :=
  match sub_tiles physical_tile !! sub_tile with
  | Some s => Ret s
  | None => Undefined
  end.

Fixpoint num_seen_pins_before (sts : list t_sub_tile) (pos : t_sub_tile_ptr)
    (sub_tile : t_sub_tile_ptr) (num_seen_pins : Z) : Z :=
  match sts with
  | [] => num_seen_pins
  | tmp_sub_tile :: rest =>
      let num_internal_sub_tile_pin :=
        get_total_num_sub_tile_pins tmp_sub_tile
        - num_phy_pins tmp_sub_tile in
      if Nat.eqb sub_tile pos then num_seen_pins
      else num_seen_pins_before rest (S pos) sub_tile
             (num_seen_pins + num_internal_sub_tile_pin)
  end.

Fixpoint target_cap_loop (caps : list Z)
    (physical_num block_num_pins num_seen_pins target_cap : Z) : Z :=
  match caps with
  | [] => target_cap
  | sub_tile_cap :: rest =>
      if physical_num <? num_seen_pins + block_num_pins then sub_tile_cap
      else target_cap_loop rest physical_num block_num_pins
             (num_seen_pins + block_num_pins) target_cap
  end.

Definition get_sub_tile_cap_from_pin_physical_num
    (physical_tile : t_physical_tile_type) (physical_num : Z) : outcome Z :=
  let* sub_tile_ptr :=
    get_sub_tile_from_pin_physical_num physical_tile physical_num in
  let* sub_tile := deref_sub_tile physical_tile sub_tile_ptr in
  let* target_cap :=
    if physical_num <? num_pins physical_tile then
      let* block_num_pins :=
        int_div (num_phy_pins sub_tile) (total (capacity sub_tile)) in
      int_div physical_num block_num_pins
    else
      let* block_num_pins :=
        int_div (get_total_num_sub_tile_pins sub_tile)
                (total (capacity sub_tile)) in
      let num_seen_pins :=
        num_seen_pins_before (sub_tiles physical_tile) 0%nat sub_tile_ptr
                             (num_pins physical_tile) in
      Ret (target_cap_loop (seqZ 0 (total (capacity sub_tile))) physical_num
                           block_num_pins num_seen_pins (-1)) in
  let* _ := VTR_ASSERT (negb (target_cap =? -1)) in
  Ret target_cap.

(** *** Physical class numbers *)

Definition num_primitive_classes (eq_site : t_logical_block_type_ptr) : Z :=
  size (primitive_class_inf (lb eq_site)).

Fixpoint get_primitives_class_physical_num_sites
    (eq_sites : list t_logical_block_type_ptr) (is_curr_sub_tile : bool)
    (sub_tile_cap : Z) (curr_logical_block : option t_logical_block_type_ptr)
    (curr_relative_cap logical_primitive_class_num : Z)
    (num_seen_primitive_class : Z) : loop_step Z Z :=
  match eq_sites with
  | [] => Continue num_seen_primitive_class
  | eq_site :: rest =>
      if is_curr_sub_tile
         && bool_decide (Some eq_site = curr_logical_block)
         && (curr_relative_cap =? sub_tile_cap)
      then Return (num_seen_primitive_class + logical_primitive_class_num)
      else
        get_primitives_class_physical_num_sites rest is_curr_sub_tile
          sub_tile_cap curr_logical_block curr_relative_cap
          logical_primitive_class_num
          (num_seen_primitive_class + num_primitive_classes eq_site)
  end.

Fixpoint get_primitives_class_physical_num_caps (caps : list Z)
    (sub_tile : t_sub_tile) (is_curr_sub_tile : bool)
    (curr_logical_block : option t_logical_block_type_ptr)
    (curr_relative_cap logical_primitive_class_num : Z)
    (num_seen_primitive_class : Z) : loop_step Z Z :=
  match caps with
  | [] => Continue num_seen_primitive_class
  | sub_tile_cap :: rest =>
      match get_primitives_class_physical_num_sites
              (equivalent_sites sub_tile) is_curr_sub_tile sub_tile_cap
              curr_logical_block curr_relative_cap
              logical_primitive_class_num num_seen_primitive_class with
      | Return r => Return r
      | Continue num_seen_primitive_class =>
          get_primitives_class_physical_num_caps rest sub_tile
            is_curr_sub_tile curr_logical_block curr_relative_cap
            logical_primitive_class_num num_seen_primitive_class
      end
  end.

Fixpoint get_primitives_class_physical_num_loop (sts : list t_sub_tile)
    (pos : t_sub_tile_ptr) (curr_sub_tile : option t_sub_tile_ptr)
    (curr_logical_block : option t_logical_block_type_ptr)
    (curr_relative_cap logical_primitive_class_num : Z)
    (num_seen_primitive_class : Z) : Z :=
  match sts with
  | [] => -1
  | sub_tile :: rest =>
      match get_primitives_class_physical_num_caps
              (seqZ 0 (total (capacity sub_tile))) sub_tile
              (bool_decide (Some pos = curr_sub_tile)) curr_logical_block
              curr_relative_cap logical_primitive_class_num
              num_seen_primitive_class with
      | Return r => r
      | Continue num_seen_primitive_class =>
          get_primitives_class_physical_num_loop rest (S pos) curr_sub_tile
            curr_logical_block curr_relative_cap
            logical_primitive_class_num num_seen_primitive_class
      end
  end.

Definition get_primitives_class_physical_num
    (physical_tile : t_physical_tile_type)
    (curr_sub_tile : option t_sub_tile_ptr)
    (curr_logical_block : option t_logical_block_type_ptr)
    (curr_relative_cap logical_primitive_class_num : Z) : Z :=
  get_primitives_class_physical_num_loop (sub_tiles physical_tile) 0%nat
    curr_sub_tile curr_logical_block curr_relative_cap
    logical_primitive_class_num 0.

Definition get_tile_num_primitive_classes
    (physical_tile : t_physical_tile_type) : Z :=
  fold_left (fun num_classes sub_tile =>
               fold_left (fun num_classes eq_site =>
                            num_classes + num_primitive_classes eq_site
                                          * total (capacity sub_tile))
                         (equivalent_sites sub_tile) num_classes)
            (sub_tiles physical_tile) 0.

(** The classes of one capacity instance: the inner [for] that adds the
    class count of every equivalent site to [end_physical_class_num]. *)
Definition add_sites_classes (sub_tile : t_sub_tile)
    (end_physical_class_num : Z) : Z :=
  fold_left (fun e eq_site => e + num_primitive_classes eq_site)
            (equivalent_sites sub_tile) end_physical_class_num.

Fixpoint get_sub_tile_from_class_physical_num_loop
    (physical_tile : t_physical_tile_type) (sts : list t_sub_tile)
    (pos : t_sub_tile_ptr) (physical_class_num : Z)
    : outcome (option t_sub_tile_ptr) :=
  match sts with
  | [] => Ret None
  | sub_tile :: rest =>
      let* site0 := vec_get (equivalent_sites sub_tile) 0 in
      let start_physical_class_num :=
        get_primitives_class_physical_num physical_tile (Some pos)
          (Some site0) 0 0 in
      let end_physical_class_num :=
        fold_left (fun e _ => add_sites_classes sub_tile e)
                  (seqZ 0 (total (capacity sub_tile)))
                  start_physical_class_num in
      if (start_physical_class_num <=? physical_class_num)
         && (physical_class_num <? end_physical_class_num)
      then Ret (Some pos)
      else get_sub_tile_from_class_physical_num_loop physical_tile rest
             (S pos) physical_class_num
  end.

Definition get_sub_tile_from_class_physical_num
    (physical_tile : t_physical_tile_type) (physical_class_num : Z)
    : outcome (option t_sub_tile_ptr) :=
  get_sub_tile_from_class_physical_num_loop physical_tile
    (sub_tiles physical_tile) 0%nat physical_class_num.

Fixpoint get_sub_tile_cap_from_class_physical_num_caps
    (physical_tile : t_physical_tile_type) (caps : list Z)
    (sub_tile : t_sub_tile) (pos : t_sub_tile_ptr) (physical_class_num : Z)
    : outcome (loop_step Z unit) :=
  match caps with
  | [] => Ret (Continue tt)
  | sub_tile_cap :: rest =>
      let* site0 := vec_get (equivalent_sites sub_tile) 0 in
      let start_physical_class_num :=
        get_primitives_class_physical_num physical_tile (Some pos)
          (Some site0) sub_tile_cap 0 in
      let end_physical_class_num :=
        add_sites_classes sub_tile start_physical_class_num in
      if (start_physical_class_num <=? physical_class_num)
         && (physical_class_num <? end_physical_class_num)
      then Ret (Return sub_tile_cap)
      else get_sub_tile_cap_from_class_physical_num_caps physical_tile rest
             sub_tile pos physical_class_num
  end.

Fixpoint get_sub_tile_cap_from_class_physical_num_loop
    (physical_tile : t_physical_tile_type) (sts : list t_sub_tile)
    (pos : t_sub_tile_ptr) (physical_class_num : Z) : outcome Z :=
  match sts with
  | [] => Ret (-1)
  | sub_tile :: rest =>
      let* step :=
        get_sub_tile_cap_from_class_physical_num_caps physical_tile
          (seqZ 0 (total (capacity sub_tile))) sub_tile pos
          physical_class_num in
      match step with
      | Return sub_tile_cap => Ret sub_tile_cap
      | Continue _ =>
          get_sub_tile_cap_from_class_physical_num_loop physical_tile rest
            (S pos) physical_class_num
      end
  end.

Definition get_sub_tile_cap_from_class_physical_num
    (physical_tile : t_physical_tile_type) (physical_class_num : Z)
    : outcome Z :=
  get_sub_tile_cap_from_class_physical_num_loop physical_tile
    (sub_tiles physical_tile) 0%nat physical_class_num.

Fixpoint get_logical_block_from_class_physical_num_sites
    (physical_tile : t_physical_tile_type)
    (eq_sites : list t_logical_block_type_ptr) (pos : t_sub_tile_ptr)
    (sub_tile_cap physical_class_num : Z)
    : option t_logical_block_type_ptr :=
  match eq_sites with
  | [] => None
  | eq_site :: rest =>
      let start_physical_class_num :=
        get_primitives_class_physical_num physical_tile (Some pos)
          (Some eq_site) sub_tile_cap 0 in
      let end_physical_class_num :=
        start_physical_class_num + num_primitive_classes eq_site in
      if (start_physical_class_num <=? physical_class_num)
         && (physical_class_num <? end_physical_class_num)
      then Some eq_site
      else get_logical_block_from_class_physical_num_sites physical_tile
             rest pos sub_tile_cap physical_class_num
  end.

Fixpoint get_logical_block_from_class_physical_num_caps
    (physical_tile : t_physical_tile_type) (caps : list Z)
    (sub_tile : t_sub_tile) (pos : t_sub_tile_ptr) (physical_class_num : Z)
    : option t_logical_block_type_ptr :=
  match caps with
  | [] => None
  | sub_tile_cap :: rest =>
      match get_logical_block_from_class_physical_num_sites physical_tile
              (equivalent_sites sub_tile) pos sub_tile_cap
              physical_class_num with
      | Some eq_site => Some eq_site
      | None =>
          get_logical_block_from_class_physical_num_caps physical_tile rest
            sub_tile pos physical_class_num
      end
  end.

Fixpoint get_logical_block_from_class_physical_num_loop
    (physical_tile : t_physical_tile_type) (sts : list t_sub_tile)
    (pos : t_sub_tile_ptr) (physical_class_num : Z)
    : option t_logical_block_type_ptr :=
  match sts with
  | [] => None
  | sub_tile :: rest =>
      match get_logical_block_from_class_physical_num_caps physical_tile
              (seqZ 0 (total (capacity sub_tile))) sub_tile pos
              physical_class_num with
      | Some eq_site => Some eq_site
      | None =>
          get_logical_block_from_class_physical_num_loop physical_tile rest
            (S pos) physical_class_num
      end
  end.

Definition get_logical_block_from_class_physical_num
    (physical_tile : t_physical_tile_type) (physical_class_num : Z)
    : option t_logical_block_type_ptr :=
  get_logical_block_from_class_physical_num_loop physical_tile
    (sub_tiles physical_tile) 0%nat physical_class_num.

Definition get_class_logical_num_from_class_physical_num
    (physical_tile : t_physical_tile_type) (physical_class_num : Z)
    : outcome Z :=
  let* sub_tile :=
    get_sub_tile_from_class_physical_num physical_tile physical_class_num in
  let* sub_tile_cap :=
    get_sub_tile_cap_from_class_physical_num physical_tile
                                             physical_class_num in
  let* _ := VTR_ASSERT (negb (sub_tile_cap =? -1)) in
  let logical_block :=
    get_logical_block_from_class_physical_num physical_tile
                                              physical_class_num in
  let start_physical_class_num :=
    get_primitives_class_physical_num physical_tile sub_tile logical_block
                                      sub_tile_cap 0 in
  let* _ := VTR_ASSERT (negb (start_physical_class_num =? -1)) in
  Ret (physical_class_num - start_physical_class_num).

End WithLogicalBlocks.

(** ** Well-formed tiles and the linearization policy *)

(** The root pins of a sequence of sub-tiles: the pin offset of whatever
    follows it. *)
Definition root_pins (sts : list t_sub_tile) : Z :=
  foldr (fun st acc => num_phy_pins st + acc) 0 sts.

(** Every capacity instance of a sub-tile has the same pin count: the
    capacity range is not empty and divides the pin count exactly. *)
Definition wf_sub_tile (st : t_sub_tile) : bool :=
  (1 <=? total (capacity st))
  && (0 <=? num_phy_pins st)
  && (Z.rem (num_phy_pins st) (total (capacity st)) =? 0).

Definition ranges_disjoint (c1 c2 : t_capacity_range) : bool :=
  (high c1 <? low c2) || (high c2 <? low c1).

(** A capacity location is absolute within the tile: no two sub-tiles share
    one. *)
Fixpoint capacities_disjoint (sts : list t_sub_tile) : bool :=
  match sts with
  | [] => true
  | st :: rest =>
      forallb (fun st' => ranges_disjoint (capacity st) (capacity st')) rest
      && capacities_disjoint rest
  end.

Definition wf_tile_pins (tile : t_physical_tile_type) : bool :=
  forallb wf_sub_tile (sub_tiles tile)
  && capacities_disjoint (sub_tiles tile)
  && (num_pins tile =? root_pins (sub_tiles tile)).

(** Following the specification's words: the owner of a root-level pin is
    the sub-tile whose contiguous range, with offsets accumulated from the
    pin counts of the preceding sub-tiles, contains the number. *)
Fixpoint owning_sub_tile (sts : list t_sub_tile) (pos : t_sub_tile_ptr)
    (physical_num pin_offset : Z) : option t_sub_tile_ptr :=
  match sts with
  | [] => None
  | st :: rest =>
      if (pin_offset <=? physical_num)
         && (physical_num <? pin_offset + num_phy_pins st)
      then Some pos
      else owning_sub_tile rest (S pos) physical_num
             (pin_offset + num_phy_pins st)
  end.

(** Following the specification's words: "divide (index - offset) by the
    per-instance pin count to get the capacity instance number". *)
Definition capacity_instance_of (st : t_sub_tile) (pin_offset index : Z) : Z :=
  Z.quot (index - pin_offset)
         (Z.quot (num_phy_pins st) (total (capacity st))).

Section ClassLinearization.

Variable lb : t_logical_block_type_ptr -> t_logical_block_type.

Definition sum_classes (sites : list t_logical_block_type_ptr) : Z :=
  foldr (fun eq_site acc => num_primitive_classes lb eq_site + acc) 0 sites.

Definition classes_per_instance (st : t_sub_tile) : Z :=
  sum_classes (equivalent_sites st).

Definition classes_of_sub_tiles (sts : list t_sub_tile) : Z :=
  foldr (fun st acc => total (capacity st) * classes_per_instance st + acc)
        0 sts.

(** Following the specification's words: the size of the flat extension
    is "the sum, over all sub-tiles/instances/equivalent blocks, of that
    block's total pin-graph pin count". *)
Definition flat_pin_graph_pins (tile : t_physical_tile_type) : Z :=
  foldr (fun st acc =>
           foldr (fun _ acc =>
                    foldr (fun eq_site acc =>
                             size (pb_pin_idx_bimap (lb eq_site)) + acc)
                          acc (equivalent_sites st))
                 acc (seqZ 0 (total (capacity st))))
        0 (sub_tiles tile).

End ClassLinearization.

(** What the class translators need of a tile: every sub-tile has a
    non-empty capacity range and lists at least one equivalent site, each
    of them once. *)
Definition wf_sub_tile_sites (st : t_sub_tile) : bool :=
  (1 <=? total (capacity st))
  && bool_decide (equivalent_sites st <> [])
  && bool_decide (NoDup (equivalent_sites st)).

Definition wf_tile_classes (tile : t_physical_tile_type) : bool :=
  forallb wf_sub_tile_sites (sub_tiles tile).

(** ** Example architectures *)

Definition no_directs : gmap Z (gmap Z (gmap Z Z)) := ∅.

Definition mk_port (n : string) (i first width : Z) : t_physical_tile_port :=
  {| port_name := n; port_index := i;
     absolute_first_pin_index := first; port_num_pins := width |}.

(** The [CLOCK_TILE] of the specification: one sub-tile [BUFG] of capacity
    [0,3] with the port [clk_in] of width 1. *)
Definition BUFG : t_sub_tile :=
  {| index := 0; capacity := {| low := 0; high := 3 |}; num_phy_pins := 4;
     equivalent_sites := [0%nat]; ports := [mk_port "clk_in" 0 0 1];
     sub_tile_to_tile_pin_indices := [0; 1; 2; 3] |}.

Definition CLOCK_TILE : t_physical_tile_type :=
  {| name := "CLOCK_TILE"; num_pins := 4; sub_tiles := [BUFG];
     pin_class := [0; 0; 0; 0];
     class_inf := [{| class_type := RECEIVER; class_num_pins := 4;
                      pinlist := [0; 1; 2; 3] |}];
     tile_block_pin_directs_map := no_directs |}.

(** A tile with two sub-tiles: six root pins in one instance, then four
    root pins in two instances of two pins each. *)
Definition wide_sub_tile : t_sub_tile :=
  {| index := 0; capacity := {| low := 0; high := 0 |}; num_phy_pins := 6;
     equivalent_sites := [0%nat]; ports := [mk_port "in" 0 0 6];
     sub_tile_to_tile_pin_indices := [0; 1; 2; 3; 4; 5] |}.

Definition pair_sub_tile : t_sub_tile :=
  {| index := 1; capacity := {| low := 1; high := 2 |}; num_phy_pins := 4;
     equivalent_sites := [1%nat; 0%nat];
     ports := [mk_port "a" 0 0 1];
     sub_tile_to_tile_pin_indices := [6; 7; 8; 9] |}.

Definition two_sub_tiles : t_physical_tile_type :=
  {| name := "IO_TILE"; num_pins := 10;
     sub_tiles := [wide_sub_tile; pair_sub_tile];
     pin_class := [0; 0; 0; 0; 0; 0; 1; 1; 1; 1];
     class_inf := [{| class_type := RECEIVER; class_num_pins := 6;
                      pinlist := [0; 1; 2; 3; 4; 5] |};
                   {| class_type := DRIVER; class_num_pins := 4;
                      pinlist := [6; 7; 8; 9] |}];
     tile_block_pin_directs_map :=
       {[ 0 := {[ 0 := {[ 0 := 3 ]}; 1 := {[ 0 := 1 ]} ]} ]} |}.

(** The same six root pins, then four root pins in four instances of one
    pin each. *)
Definition quad_sub_tile : t_sub_tile :=
  {| index := 1; capacity := {| low := 1; high := 4 |}; num_phy_pins := 4;
     equivalent_sites := [1%nat];
     ports := [mk_port "a" 0 0 1];
     sub_tile_to_tile_pin_indices := [6; 7; 8; 9] |}.

Definition six_and_four_single_pins : t_physical_tile_type :=
  {| name := "PAD_TILE"; num_pins := 10;
     sub_tiles := [wide_sub_tile; quad_sub_tile];
     pin_class := [0; 0; 0; 0; 0; 0; 1; 1; 1; 1];
     class_inf := [{| class_type := RECEIVER; class_num_pins := 6;
                      pinlist := [0; 1; 2; 3; 4; 5] |};
                   {| class_type := DRIVER; class_num_pins := 4;
                      pinlist := [6; 7; 8; 9] |}];
     tile_block_pin_directs_map := no_directs |}.

Definition mk_class (t : e_pin_type) (pins : list Z) : t_class :=
  {| class_type := t; class_num_pins := size pins; pinlist := pins |}.

(** Two logical block types.  Block 0 has two root pins and three more
    pins inside, in three primitive classes; block 1 has one pin and one
    class. *)
Definition example_blocks (p : t_logical_block_type_ptr)
    : t_logical_block_type :=
  match p with
  | O => {| lb_name := "clb"; lb_index := 0;
            pb_type := {| pb_num_pins := 2 |};
            pb_pin_idx_bimap := [0; 1; 2; 3; 4]%nat;
            primitive_class_inf :=
              [mk_class RECEIVER [2]; mk_class RECEIVER [3];
               mk_class DRIVER [4]] |}
  | _ => {| lb_name := "buf"; lb_index := 1;
            pb_type := {| pb_num_pins := 1 |};
            pb_pin_idx_bimap := [0]%nat;
            primitive_class_inf := [mk_class DRIVER [0]] |}
  end.

(** ** Further queries of the same file *)

(** *** Ports by name and by pin *)

(** [std::string::c_str] read as a C string: a [std::string] may hold NUL
    characters, and a reader of the [const char*] stops at the first of
    them. *)
Fixpoint c_str (s : string) : string :=
  match s with
  | EmptyString => EmptyString
  | String c rest =>
      if Ascii.eqb c Ascii.zero then EmptyString else String c (c_str rest)
  end.

(** The inner loop of [find_pin].  [port.name] is a [const char*], held
    here as the characters before its terminator; [name_wanted] is the
    [std::string] argument, of which [strcmp] sees [c_str] only. *)
Fixpoint find_pin_ports (ps : list t_physical_tile_port) (name_wanted : string)
    (port_base_ipin : Z) : loop_step (Z * Z) Z :=
  match ps with
  | [] => Continue port_base_ipin
  | port :: rest =>
      if String.eqb (port_name port) (c_str name_wanted)
      then Return (port_num_pins port, port_base_ipin)
      else find_pin_ports rest name_wanted
             (port_base_ipin + port_num_pins port)
  end.

(** The state [(num_pins, port_base_ipin, pin_offset)] when the outer loop
    of [find_pin] is left. *)
Fixpoint find_pin_sub_tiles (sts : list t_sub_tile) (name_wanted : string)
    (pin_offset : Z) : Z * Z * Z :=
  match sts with
  | [] => (OPEN, 0, pin_offset)
  | sub_tile :: rest =>
      match find_pin_ports (ports sub_tile) name_wanted 0 with
      | Return (num_pins, port_base_ipin) =>
          (num_pins, port_base_ipin, pin_offset)
      | Continue _ =>
          find_pin_sub_tiles rest name_wanted
            (pin_offset + num_phy_pins sub_tile)
      end
  end.

Definition find_pin (type : t_physical_tile_type) (name_wanted : string)
    (pin_index_in_port : Z) : outcome Z :=
  let '(num_pins, port_base_ipin, pin_offset) :=
    find_pin_sub_tiles (sub_tiles type) name_wanted 0 in
  if negb (num_pins =? OPEN) then
    let* _ := VTR_ASSERT (pin_index_in_port <? num_pins) in
    Ret (port_base_ipin + pin_index_in_port + pin_offset)
  else Ret OPEN.

Definition find_pin_class (type : t_physical_tile_type) (name_wanted : string)
    (pin_index_in_port : Z) (pin_type : e_pin_type) : outcome Z :=
  let* ipin := find_pin type name_wanted pin_index_in_port in
  if negb (ipin =? OPEN) then
    let* iclass := vec_get (pin_class type) ipin in
    if negb (iclass =? OPEN) then
      let* cls := vec_get (class_inf type) iclass in
      let* _ := VTR_ASSERT (e_pin_type_eqb (class_type cls) pin_type) in
      Ret iclass
    else Ret iclass
  else Ret OPEN.

(** [get_port_by_name] and [get_port_by_pin] on a sub-tile return
    [&sub_tile->ports[port.index]] for the first port that matches, and
    [nullptr] when none does. *)
Fixpoint get_port_by_name_loop (all_ports ps : list t_physical_tile_port)
    (name_wanted : string) : outcome (option t_physical_tile_port) :=
  match ps with
  | [] => Ret None
  | port :: rest =>
      if String.eqb (port_name port) name_wanted then
        let* found := vec_get all_ports (port_index port) in
        Ret (Some found)
      else get_port_by_name_loop all_ports rest name_wanted
  end.

Definition get_port_by_name (sub_tile : t_sub_tile) (name_wanted : string)
    : outcome (option t_physical_tile_port) :=
  get_port_by_name_loop (ports sub_tile) (ports sub_tile) name_wanted.

Fixpoint get_port_by_pin_loop (all_ports ps : list t_physical_tile_port)
    (pin : Z) : outcome (option t_physical_tile_port) :=
  match ps with
  | [] => Ret None
  | port :: rest =>
      if port_contains port pin then
        let* found := vec_get all_ports (port_index port) in
        Ret (Some found)
      else get_port_by_pin_loop all_ports rest pin
  end.

Definition get_port_by_pin (sub_tile : t_sub_tile) (pin : Z)
    : outcome (option t_physical_tile_port) :=
  get_port_by_pin_loop (ports sub_tile) (ports sub_tile) pin.

Definition pick_logical_type (physical_tile : t_physical_tile_type)
    : outcome t_logical_block_type_ptr :=
  let* sub_tile := vec_get (sub_tiles physical_tile) 0 in
  vec_get (equivalent_sites sub_tile) 0.

(** *** Compatibility of tiles and logical blocks *)

Abbreviation t_physical_tile_type_ptr := nat.

Section WithTiles.

(** The physical tile types a [t_physical_tile_type_ptr] points to, and the
    field [equivalent_tiles] of the logical block types, kept beside the
    records of the blocks. *)
Variable pt : t_physical_tile_type_ptr -> t_physical_tile_type.
Variable equivalent_tiles :
  t_logical_block_type_ptr -> list t_physical_tile_type_ptr.

Definition pick_physical_type (logical_block : t_logical_block_type_ptr)
    : outcome t_physical_tile_type_ptr :=
  vec_get (equivalent_tiles logical_block) 0.

Definition is_tile_compatible (physical_tile : t_physical_tile_type_ptr)
    (logical_block : t_logical_block_type_ptr) : bool :=
  bool_decide (physical_tile ∈ equivalent_tiles logical_block).

Fixpoint is_sub_tile_compatible_loop (sts : list t_sub_tile)
    (logical_block : t_logical_block_type_ptr) (sub_tile_loc : Z) : bool :=
  match sts with
  | [] => false
  | sub_tile :: rest =>
      if is_in_range (capacity sub_tile) sub_tile_loc
         && is_equivalent_site sub_tile logical_block
      then true
      else is_sub_tile_compatible_loop rest logical_block sub_tile_loc
  end.

Definition is_sub_tile_compatible (physical_tile : t_physical_tile_type_ptr)
    (logical_block : t_logical_block_type_ptr) (sub_tile_loc : Z) : bool :=
  let capacity_compatible :=
    is_sub_tile_compatible_loop (sub_tiles (pt physical_tile)) logical_block
                                sub_tile_loc in
  capacity_compatible && is_tile_compatible physical_tile logical_block.

Definition get_max_num_pins (logical_block : t_logical_block_type_ptr) : Z :=
  fold_left (fun max_num_pins physical_tile =>
               Z.max max_num_pins (num_pins (pt physical_tile)))
            (equivalent_tiles logical_block) 0.

End WithTiles.

(** *** Root pins of the block that occupies a sub-tile *)

Section MoreWithLogicalBlocks.

Variable lb : t_logical_block_type_ptr -> t_logical_block_type.

Definition get_physical_pin_at_sub_tile_location
    (physical_tile : t_physical_tile_type)
    (logical_block : t_logical_block_type_ptr) (sub_tile_capacity pin : Z)
    : outcome Z :=
  let* sub_tile_index :=
    get_logical_block_physical_sub_tile_index_at lb physical_tile
      logical_block sub_tile_capacity in
  if sub_tile_index =? OPEN then Throw (NoPhysicalTilePin pin)
  else
    let* sub_tile_physical_pin :=
      get_sub_tile_physical_pin lb sub_tile_index physical_tile logical_block
                                pin in
    let* sub_tile := vec_get (sub_tiles physical_tile) sub_tile_index in
    let relative_capacity := sub_tile_capacity - low (capacity sub_tile) in
    let* block_num_pins :=
      int_div (num_phy_pins sub_tile) (total (capacity sub_tile)) in
    let* tile_pin :=
      vec_get (sub_tile_to_tile_pin_indices sub_tile) sub_tile_physical_pin in
    Ret (relative_capacity * block_num_pins + tile_pin).

Definition get_root_pb_pin_physical_num (physical_tile : t_physical_tile_type)
    (sub_tile : t_sub_tile_ptr) (logical_block : t_logical_block_type_ptr)
    (relative_cap logical_pin_num : Z) : outcome Z :=
  let* pointee := deref_sub_tile physical_tile sub_tile in
  let sub_tile_index := index pointee in
  let* indexed := vec_get (sub_tiles physical_tile) sub_tile_index in
  let* block_num_pins :=
    int_div (num_phy_pins indexed) (total (capacity indexed)) in
  let* sub_tile_physical_pin :=
    get_sub_tile_physical_pin lb sub_tile_index physical_tile logical_block
                              logical_pin_num in
  let sub_tile_physical_pin :=
    sub_tile_physical_pin + relative_cap * block_num_pins in
  vec_get (sub_tile_to_tile_pin_indices indexed) sub_tile_physical_pin.

(** *** Flat numbers of the pins inside a block *)

Fixpoint get_sub_block_pin_num_offset_sites
    (eq_sites : list t_logical_block_type_ptr) (is_curr_sub_tile : bool)
    (sub_tile_cap : Z) (curr_logical_block : t_logical_block_type_ptr)
    (curr_relative_cap offset : Z) : loop_step Z Z :=
  match eq_sites with
  | [] => Continue offset
  | eq_site :: rest =>
      if is_curr_sub_tile
         && (sub_tile_cap =? curr_relative_cap)
         && bool_decide (eq_site = curr_logical_block)
      then Return offset
      else
        get_sub_block_pin_num_offset_sites rest is_curr_sub_tile sub_tile_cap
          curr_logical_block curr_relative_cap
          (offset + pb_num_pins (pb_type (lb eq_site)))
  end.

Fixpoint get_sub_block_pin_num_offset_caps (caps : list Z)
    (tmp_sub_tile : t_sub_tile) (is_curr_sub_tile : bool)
    (curr_logical_block : t_logical_block_type_ptr)
    (curr_relative_cap offset : Z) : loop_step Z Z :=
  match caps with
  | [] => Continue offset
  | sub_tile_cap :: rest =>
      match get_sub_block_pin_num_offset_sites
              (equivalent_sites tmp_sub_tile) is_curr_sub_tile sub_tile_cap
              curr_logical_block curr_relative_cap offset with
      | Return offset => Return offset
      | Continue offset =>
          get_sub_block_pin_num_offset_caps rest tmp_sub_tile
            is_curr_sub_tile curr_logical_block curr_relative_cap offset
      end
  end.

Fixpoint get_sub_block_pin_num_offset_loop (sts : list t_sub_tile)
    (pos curr_sub_tile : t_sub_tile_ptr)
    (curr_logical_block : t_logical_block_type_ptr)
    (curr_relative_cap offset : Z) : Z :=
  match sts with
  | [] => offset
  | tmp_sub_tile :: rest =>
      match get_sub_block_pin_num_offset_caps
              (seqZ 0 (total (capacity tmp_sub_tile))) tmp_sub_tile
              (Nat.eqb pos curr_sub_tile) curr_logical_block
              curr_relative_cap offset with
      | Return offset => offset
      | Continue offset =>
          get_sub_block_pin_num_offset_loop rest (S pos) curr_sub_tile
            curr_logical_block curr_relative_cap offset
      end
  end.

Definition get_sub_block_pin_num_offset
    (physical_tile : t_physical_tile_type) (curr_sub_tile : t_sub_tile_ptr)
    (curr_logical_block : t_logical_block_type_ptr) (curr_relative_cap : Z)
    : Z :=
  get_sub_block_pin_num_offset_loop (sub_tiles physical_tile) 0%nat
    curr_sub_tile curr_logical_block curr_relative_cap
    (num_pins physical_tile).

(** *** Type and size of a class *)

Definition get_class_type_from_class_physical_num
    (physical_tile : t_physical_tile_type) (physical_class_num : Z)
    (is_flat : bool) : outcome e_pin_type :=
  if is_flat then
    let logical_block :=
      get_logical_block_from_class_physical_num lb physical_tile
                                                physical_class_num in
    let* class_logical_num :=
      get_class_logical_num_from_class_physical_num lb physical_tile
                                                    physical_class_num in
    match logical_block with
    | None => Undefined
    | Some logical_block =>
        let* cls := vec_get (primitive_class_inf (lb logical_block))
                            class_logical_num in
        Ret (class_type cls)
    end
  else
    let* _ := VTR_ASSERT (negb is_flat) in
    let* cls := vec_get (class_inf physical_tile) physical_class_num in
    Ret (class_type cls).

Definition get_class_num_pins_from_class_physical_num
    (physical_tile : t_physical_tile_type) (physical_class_num : Z)
    (is_flat : bool) : outcome Z :=
  if is_flat then
    let logical_block :=
      get_logical_block_from_class_physical_num lb physical_tile
                                                physical_class_num in
    let* class_logical_num :=
      get_class_logical_num_from_class_physical_num lb physical_tile
                                                    physical_class_num in
    match logical_block with
    | None => Undefined
    | Some logical_block =>
        let* cls := vec_get (primitive_class_inf (lb logical_block))
                            class_logical_num in
        Ret (class_num_pins cls)
    end
  else
    let* _ := VTR_ASSERT (negb is_flat) in
    let* cls := vec_get (class_inf physical_tile) physical_class_num in
    Ret (class_num_pins cls).

(** *** The primitive classes of a tile as a map *)

(** [std::unordered_map<int, const t_class*>]: the pointer to a class is the
    class it points to.  [insert] leaves an existing key alone. *)
Definition map_insert (k : Z) (v : t_class) (m : gmap Z t_class)
    : gmap Z t_class :=
  match m !! k with
  | Some _ => m
  | None => <[k := v]> m
  end.

Fixpoint get_logical_block_primitive_classes_map_loop
    (physical_tile : t_physical_tile_type) (sub_tile : t_sub_tile_ptr)
    (logical_block : t_logical_block_type_ptr) (relative_cap : Z)
    (classes : list t_class) (class_num : Z)
    (primitive_classes : gmap Z t_class) : outcome (gmap Z t_class) :=
  match classes with
  | [] => Ret primitive_classes
  | cls :: rest =>
      let tile_class_num :=
        get_primitives_class_physical_num lb physical_tile (Some sub_tile)
          (Some logical_block) relative_cap class_num in
      let* _ := VTR_ASSERT (negb (tile_class_num =? -1)) in
      get_logical_block_primitive_classes_map_loop physical_tile sub_tile
        logical_block relative_cap rest (class_num + 1)
        (map_insert tile_class_num cls primitive_classes)
  end.

Definition get_logical_block_primitive_classes_map
    (physical_tile : t_physical_tile_type) (sub_tile : t_sub_tile_ptr)
    (logical_block : t_logical_block_type_ptr) (relative_cap : Z)
    : outcome (gmap Z t_class) :=
  get_logical_block_primitive_classes_map_loop physical_tile sub_tile
    logical_block relative_cap (primitive_class_inf (lb logical_block)) 0 ∅.

Fixpoint get_sub_tile_primitive_classes_map_loop
    (physical_tile : t_physical_tile_type) (sub_tile : t_sub_tile_ptr)
    (relative_cap : Z) (eq_sites : list t_logical_block_type_ptr)
    (primitive_classes_map : gmap Z t_class) : outcome (gmap Z t_class) :=
  match eq_sites with
  | [] => Ret primitive_classes_map
  | eq_site :: rest =>
      let* logical_block_primitive_classes_map :=
        get_logical_block_primitive_classes_map physical_tile sub_tile
          eq_site relative_cap in
      get_sub_tile_primitive_classes_map_loop physical_tile sub_tile
        relative_cap rest
        (primitive_classes_map ∪ logical_block_primitive_classes_map)
  end.

Definition get_sub_tile_primitive_classes_map
    (physical_tile : t_physical_tile_type) (sub_tile : t_sub_tile_ptr)
    (relative_cap : Z) : outcome (gmap Z t_class) :=
  let* pointee := deref_sub_tile physical_tile sub_tile in
  get_sub_tile_primitive_classes_map_loop physical_tile sub_tile relative_cap
    (equivalent_sites pointee) ∅.

Fixpoint get_tile_primitive_classes_map_caps
    (physical_tile : t_physical_tile_type) (pos : t_sub_tile_ptr)
    (caps : list Z) (primitive_classes_map : gmap Z t_class)
    : outcome (gmap Z t_class) :=
  match caps with
  | [] => Ret primitive_classes_map
  | sub_tile_cap :: rest =>
      let* sub_tile_primitive_classes_map :=
        get_sub_tile_primitive_classes_map physical_tile pos sub_tile_cap in
      get_tile_primitive_classes_map_caps physical_tile pos rest
        (primitive_classes_map ∪ sub_tile_primitive_classes_map)
  end.

Fixpoint get_tile_primitive_classes_map_loop
    (physical_tile : t_physical_tile_type) (sts : list t_sub_tile)
    (pos : t_sub_tile_ptr) (primitive_classes_map : gmap Z t_class)
    : outcome (gmap Z t_class) :=
  match sts with
  | [] => Ret primitive_classes_map
  | sub_tile :: rest =>
      let* primitive_classes_map :=
        get_tile_primitive_classes_map_caps physical_tile pos
          (seqZ 0 (total (capacity sub_tile))) primitive_classes_map in
      get_tile_primitive_classes_map_loop physical_tile rest (S pos)
        primitive_classes_map
  end.

Definition get_tile_primitive_classes_map
    (physical_tile : t_physical_tile_type) : outcome (gmap Z t_class) :=
  get_tile_primitive_classes_map_loop physical_tile (sub_tiles physical_tile)
    0%nat ∅.

End MoreWithLogicalBlocks.

(** *** The flat pin offsets in closed form *)

Section FlatPinLinearization.

Variable lb : t_logical_block_type_ptr -> t_logical_block_type.

Definition sum_pb_pins (sites : list t_logical_block_type_ptr) : Z :=
  foldr (fun eq_site acc => pb_num_pins (pb_type (lb eq_site)) + acc) 0 sites.

Definition pb_pins_of_sub_tiles (sts : list t_sub_tile) : Z :=
  foldr (fun st acc =>
           total (capacity st) * sum_pb_pins (equivalent_sites st) + acc)
        0 sts.

(** No capacity range has a negative size and no root [pb_type] a negative
    pin count. *)
Definition wf_tile_flat (tile : t_physical_tile_type) : bool :=
  forallb (fun st =>
             (0 <=? total (capacity st))
             && forallb (fun eq_site =>
                           0 <=? pb_num_pins (pb_type (lb eq_site)))
                        (equivalent_sites st))
          (sub_tiles tile).

End FlatPinLinearization.

(** *** The primitive classes of a tile in linearization order *)

(** The map with the entries [first -> c0], [first + 1 -> c1], ... *)
Fixpoint class_entries (first : Z) (classes : list t_class) : gmap Z t_class :=
  match classes with
  | [] => ∅
  | cls :: rest => {[first := cls]} ∪ class_entries (first + 1) rest
  end.

Section ClassesInOrder.

Variable lb : t_logical_block_type_ptr -> t_logical_block_type.

Definition site_classes (sites : list t_logical_block_type_ptr)
    : list t_class :=
  flat_map (fun eq_site => primitive_class_inf (lb eq_site)) sites.

Definition instance_classes (st : t_sub_tile) (caps : list Z) : list t_class :=
  flat_map (fun _ => site_classes (equivalent_sites st)) caps.

Definition sub_tiles_classes (sts : list t_sub_tile) : list t_class :=
  flat_map (fun st => instance_classes st (seqZ 0 (total (capacity st)))) sts.

(** Sub-tile by sub-tile, capacity instance by capacity instance, site by
    site, the primitive classes of the block. *)
Definition tile_primitive_classes (tile : t_physical_tile_type)
    : list t_class :=
  sub_tiles_classes (sub_tiles tile).

End ClassesInOrder.

(** *** Well-formed ports *)

Definition port_widths (ps : list t_physical_tile_port) : Z :=
  foldr (fun port acc => port_num_pins port + acc) 0 ps.

(** The ports of a sub-tile lie side by side from [first] on, none of
    negative width. *)
Fixpoint ports_contiguous (ps : list t_physical_tile_port) (first : Z) : bool :=
  match ps with
  | [] => true
  | port :: rest =>
      (absolute_first_pin_index port =? first)
      && (0 <=? port_num_pins port)
      && ports_contiguous rest (first + port_num_pins port)
  end.

(** Every port records its own position in [ports]. *)
Fixpoint ports_indexed (ps : list t_physical_tile_port) (pos : Z) : bool :=
  match ps with
  | [] => true
  | port :: rest => (port_index port =? pos) && ports_indexed rest (pos + 1)
  end.

Definition example_tiles (p : t_physical_tile_type_ptr)
    : t_physical_tile_type :=
  match p with
  | O => two_sub_tiles
  | _ => CLOCK_TILE
  end.

Definition example_equivalent_tiles (b : t_logical_block_type_ptr)
    : list t_physical_tile_type_ptr :=
  match b with
  | O => [0; 1]%nat
  | _ => [0]%nat
  end.

(** * Properties *)

(** ** Arithmetic of the helpers *)

Lemma int_div_nonzero (a b : Z) : b <> 0 -> int_div a b = Ret (Z.quot a b).
Proof. intros Hb. unfold int_div. by rewrite (proj2 (Z.eqb_neq b 0) Hb). Qed.

Lemma int_mod_nonzero (a b : Z) : b <> 0 -> int_mod a b = Ret (Z.rem a b).
Proof. intros Hb. unfold int_mod. by rewrite (proj2 (Z.eqb_neq b 0) Hb). Qed.

Lemma quot_rem_unique (k q r : Z) :
  0 <= q -> 0 <= r < k -> Z.quot (k * q + r) k = q /\ Z.rem (k * q + r) k = r.
Proof.
  intros Hq Hr.
  rewrite Z.quot_div_nonneg, Z.rem_mod_nonneg by nia.
  split.
  - symmetry. apply (Z.div_unique_pos _ _ q r); lia.
  - symmetry. apply (Z.mod_unique_pos _ _ q r); lia.
Qed.

Lemma quot_rem_bounds (a k t : Z) :
  0 <= a < k * t -> 0 < k ->
  0 <= Z.quot a k < t /\ 0 <= Z.rem a k < k /\ a = k * Z.quot a k + Z.rem a k.
Proof.
  intros Ha Hk.
  pose proof (Z.quot_rem' a k) as Hqr.
  pose proof (Z.rem_bound_pos a k ltac:(lia) Hk) as Hr.
  pose proof (Z.quot_pos a k ltac:(lia) Hk) as Hq.
  repeat split; try lia. nia.
Qed.

(** ** Pin offsets *)

Lemma root_pins_app (pre post : list t_sub_tile) :
  root_pins (pre ++ post) = root_pins pre + root_pins post.
Proof. induction pre as [|st pre IH]; simpl; lia. Qed.

Lemma root_pins_nonneg (sts : list t_sub_tile) :
  Forall (fun st => 0 <= num_phy_pins st) sts -> 0 <= root_pins sts.
Proof. induction 1; simpl; lia. Qed.

(** A pin below the accumulated pin count has an owner: the sub-tile sequence
    splits around it. *)
Lemma owner_split (sts : list t_sub_tile) (p : Z) :
  Forall (fun st => 0 <= num_phy_pins st) sts ->
  0 <= p < root_pins sts ->
  exists pre st post,
    sts = pre ++ st :: post
    /\ root_pins pre <= p < root_pins pre + num_phy_pins st.
Proof.
  induction 1 as [|st sts Hst Hsts IH] in p |- *; simpl; intros Hp; [lia|].
  destruct (Z.ltb_spec p (num_phy_pins st)) as [Hlt|Hge].
  - exists [], st, sts. simpl. split; [done | lia].
  - destruct (IH (p - num_phy_pins st)) as (pre & st' & post & -> & Hr); [lia|].
    exists (st :: pre), st', post. simpl. split; [done | lia].
Qed.

Lemma wf_sub_tile_unfold (st : t_sub_tile) :
  wf_sub_tile st = true ->
  1 <= total (capacity st)
  /\ 0 <= num_phy_pins st
  /\ num_phy_pins st
     = Z.quot (num_phy_pins st) (total (capacity st)) * total (capacity st).
Proof.
  unfold wf_sub_tile. rewrite !andb_true_iff.
  intros [[H1 H2] H3].
  apply Z.leb_le in H1, H2. apply Z.eqb_eq in H3.
  repeat split; try done.
  pose proof (Z.quot_rem' (num_phy_pins st) (total (capacity st))). lia.
Qed.

Lemma forallb_Forall {A : Type} (f : A -> bool) (l : list A) :
  forallb f l = true -> Forall (fun a => f a = true) l.
Proof.
  induction l as [|a l IH]; simpl; [constructor|].
  rewrite andb_true_iff. intros [Ha Hl]. constructor; auto.
Qed.

Lemma wf_tile_pins_unfold (tile : t_physical_tile_type) :
  wf_tile_pins tile = true ->
  Forall (fun st => wf_sub_tile st = true) (sub_tiles tile)
  /\ capacities_disjoint (sub_tiles tile) = true
  /\ num_pins tile = root_pins (sub_tiles tile).
Proof.
  unfold wf_tile_pins. rewrite !andb_true_iff.
  intros [[H1 H2] H3]. apply Z.eqb_eq in H3.
  auto using forallb_Forall.
Qed.

Lemma wf_sub_tiles_nonneg (sts : list t_sub_tile) :
  Forall (fun st => wf_sub_tile st = true) sts ->
  Forall (fun st => 0 <= num_phy_pins st) sts.
Proof.
  intros Hwf. eapply Forall_impl; [exact Hwf|].
  intros st Hst. by destruct (wf_sub_tile_unfold st Hst) as (_ & ? & _).
Qed.

(** ** [get_pin_index_for_inst] *)

(** The loop passes over the sub-tiles that lie wholly below the pin. *)
Lemma get_pin_index_for_inst_loop_skip (nm : string)
    (pre rest : list t_sub_tile) (p tot off : Z) :
  Forall (fun st => 0 <= num_phy_pins st) pre ->
  tot + root_pins pre <= p ->
  get_pin_index_for_inst_loop nm (pre ++ rest) p tot off
  = get_pin_index_for_inst_loop nm rest p (tot + root_pins pre)
                                (off + root_pins pre).
Proof.
  induction 1 as [|st pre Hst Hpre IH] in tot, off |- *; simpl; intros Hp.
  - by rewrite !Z.add_0_r.
  - pose proof (root_pins_nonneg pre Hpre).
    destruct (Z.ltb_spec p (tot + num_phy_pins st)); [lia|].
    rewrite IH by lia. f_equal; lia.
Qed.

Lemma get_pin_index_for_inst_owner (tile : t_physical_tile_type)
    (pre post : list t_sub_tile) (st : t_sub_tile) (p : Z) :
  sub_tiles tile = pre ++ st :: post ->
  Forall (fun st => 0 <= num_phy_pins st) pre ->
  p < num_pins tile ->
  root_pins pre <= p < root_pins pre + num_phy_pins st ->
  Z.quot (num_phy_pins st) (total (capacity st)) <> 0 ->
  get_pin_index_for_inst tile p
  = Ret (Z.rem (p - root_pins pre)
               (Z.quot (num_phy_pins st) (total (capacity st))),
         Z.quot (p - root_pins pre)
                (Z.quot (num_phy_pins st) (total (capacity st))),
         index st).
Proof.
  intros Hsts Hpre Hlt Hp Hk.
  unfold get_pin_index_for_inst.
  destruct (Z.ltb_spec p (num_pins tile)); [simpl | lia].
  rewrite Hsts, get_pin_index_for_inst_loop_skip by (done || lia).
  simpl.
  destruct (Z.ltb_spec p (0 + root_pins pre + num_phy_pins st)); [|lia].
  assert (Ht : total (capacity st) <> 0).
  { intros Ht. rewrite Ht, Z.quot_0_r_ext in Hk; done. }
  rewrite (int_div_nonzero _ _ Ht). simpl.
  rewrite (int_div_nonzero _ _ Hk), (int_mod_nonzero _ _ Hk). simpl.
  done.
Qed.

Lemma wf_sub_tile_per_instance (st : t_sub_tile) :
  wf_sub_tile st = true -> 0 < num_phy_pins st ->
  0 < Z.quot (num_phy_pins st) (total (capacity st)).
Proof.
  intros Hwf Hpos. destruct (wf_sub_tile_unfold st Hwf) as (Ht & Hn & Hdiv).
  pose proof (Z.quot_pos (num_phy_pins st) (total (capacity st))
                ltac:(lia) ltac:(lia)).
  nia.
Qed.

(** The scenario of C4 does not fix the local index: on a well-formed tile
    of a six-pin sub-tile and a four-pin sub-tile with ten pins, whose
    second sub-tile has four instances of one pin, pin 7 is pin 0 of
    instance 1 of the second sub-tile, not local index 1. *)
Lemma get_pin_index_for_inst_single_pin_instances :
  wf_tile_pins six_and_four_single_pins = true
  /\ sub_tiles six_and_four_single_pins = [wide_sub_tile; quad_sub_tile]
  /\ num_phy_pins wide_sub_tile = 6
  /\ num_phy_pins quad_sub_tile = 4
  /\ num_pins six_and_four_single_pins = 10
  /\ get_pin_index_for_inst six_and_four_single_pins 7
     = Ret (0, 1, index quad_sub_tile)
  /\ (forall cap idx,
        get_pin_index_for_inst six_and_four_single_pins 7
        <> Ret (1, cap, idx)).
Proof.
  repeat split; try reflexivity.
  intros cap idx. vm_compute. discriminate.
Qed.

(** C4. For a well-formed tile and a root-level pin index below the declared
    pin count, [get_pin_index_for_inst] returns: the sub-tile sequence
    splits around an owning sub-tile whose accumulated range contains the
    index, and the result is the remainder and the quotient of the
    offset-corrected index by the per-instance pin count, with the index
    of that sub-tile.  In the scenario of a six-pin and a four-pin
    sub-tile, pin 7 lands in the second sub-tile at offset 1 of its pins:
    the result is the remainder and the quotient of 1 by the per-instance
    pin count of that sub-tile, which is local index 1 of instance 0 when
    an instance has two pins or more, and local index 0 of instance 1 when
    an instance has one pin; there is no other case. *)
Theorem get_pin_index_for_inst_locates (tile : t_physical_tile_type) (p : Z) :
  wf_tile_pins tile = true ->
  0 <= p < num_pins tile ->
  (exists pre st post,
      sub_tiles tile = pre ++ st :: post
      /\ root_pins pre <= p < root_pins pre + num_phy_pins st
      /\ get_pin_index_for_inst tile p
         = Ret (Z.rem (p - root_pins pre)
                      (Z.quot (num_phy_pins st) (total (capacity st))),
                Z.quot (p - root_pins pre)
                       (Z.quot (num_phy_pins st) (total (capacity st))),
                index st))
  /\ (forall st1 st2,
        sub_tiles tile = [st1; st2] ->
        num_phy_pins st1 = 6 -> num_phy_pins st2 = 4 ->
        get_pin_index_for_inst tile 7
        = Ret (Z.rem 1 (Z.quot (num_phy_pins st2) (total (capacity st2))),
               Z.quot 1 (Z.quot (num_phy_pins st2) (total (capacity st2))),
               index st2)
        /\ (1 < Z.quot (num_phy_pins st2) (total (capacity st2)) ->
            get_pin_index_for_inst tile 7 = Ret (1, 0, index st2))
        /\ (Z.quot (num_phy_pins st2) (total (capacity st2)) = 1 ->
            get_pin_index_for_inst tile 7 = Ret (0, 1, index st2))
        /\ 1 <= Z.quot (num_phy_pins st2) (total (capacity st2))).
Proof.
  intros Hwf Hp.
  destruct (wf_tile_pins_unfold tile Hwf) as (Hsts & _ & Hnum).
  pose proof (wf_sub_tiles_nonneg _ Hsts) as Hnonneg.
  split.
  - destruct (owner_split (sub_tiles tile) p Hnonneg) as
      (pre & st & post & Heq & Hr); [lia|].
    exists pre, st, post. repeat split; try lia; try done.
    rewrite Heq in Hsts, Hnonneg.
    apply Forall_app in Hnonneg as [Hpre _].
    apply Forall_app in Hsts as [_ Hst]. apply Forall_cons in Hst as [Hst _].
    apply (get_pin_index_for_inst_owner tile pre post st p); try done; try lia.
    pose proof (wf_sub_tile_per_instance st Hst). lia.
  - intros st1 st2 Heq H1 H2.
    rewrite Heq in Hsts.
    apply Forall_cons in Hsts as [_ Hst2].
    apply Forall_cons in Hst2 as [Hst2 _].
    pose proof (wf_sub_tile_per_instance st2 Hst2 ltac:(lia)) as Hk.
    assert (Hcall : get_pin_index_for_inst tile 7
                    = Ret (Z.rem 1 (Z.quot (num_phy_pins st2)
                                           (total (capacity st2))),
                           Z.quot 1 (Z.quot (num_phy_pins st2)
                                            (total (capacity st2))),
                           index st2)).
    { rewrite (get_pin_index_for_inst_owner tile [st1] [] st2 7); simpl;
        try done; try lia.
      - rewrite H1. by replace (7 - (6 + 0)) with 1 by lia.
      - constructor; [lia | constructor].
      - rewrite Hnum, Heq. simpl. lia. }
    repeat split.
    + exact Hcall.
    + intros Hk2. rewrite Hcall.
      by rewrite Z.rem_small, Z.quot_small by lia.
    + intros Hk1. rewrite Hcall, Hk1. done.
    + lia.
Qed.

Lemma get_pin_index_for_inst_locates_witness :
  get_pin_index_for_inst two_sub_tiles 7 = Ret (1, 0, 1).
Proof.
  destruct (get_pin_index_for_inst_locates two_sub_tiles 7) as [_ H];
    [reflexivity | simpl; lia |].
  destruct (H wide_sub_tile pair_sub_tile) as (_ & Hk & _);
    [reflexivity .. |].
  apply Hk. vm_compute. done.
Defined.

Lemma get_pin_index_for_inst_no_owner (tile : t_physical_tile_type) (p : Z) :
  Forall (fun st => 0 <= num_phy_pins st) (sub_tiles tile) ->
  root_pins (sub_tiles tile) <= p < num_pins tile ->
  get_pin_index_for_inst tile p
  = Throw (CouldNotInferPinInstance (name tile) p).
Proof.
  intros Hnonneg Hp. unfold get_pin_index_for_inst.
  destruct (Z.ltb_spec p (num_pins tile)); [simpl | lia].
  rewrite <- (app_nil_r (sub_tiles tile)).
  rewrite get_pin_index_for_inst_loop_skip by (done || lia). done.
Qed.

(** C6, as the specification states it, fails: at an index equal to the
    declared pin count the call does not raise the architecture error. *)
Lemma get_pin_index_for_inst_not_arch_error :
  num_pins two_sub_tiles <= 10
  /\ forall e, get_pin_index_for_inst two_sub_tiles 10 <> Throw e.
Proof. split; [simpl; lia | intros e; vm_compute; discriminate]. Qed.

(** C6, amended. A pin index at or above the declared root pin count is
    stopped by the precondition [VTR_ASSERT(pin_index < type->num_pins)]:
    the call fails with the assertion outcome and returns no value. *)
Theorem get_pin_index_for_inst_out_of_range (tile : t_physical_tile_type)
    (p : Z) :
  num_pins tile <= p ->
  get_pin_index_for_inst tile p = AssertFail.
Proof.
  intros Hp. unfold get_pin_index_for_inst.
  by destruct (Z.ltb_spec p (num_pins tile)); [lia|].
Qed.

Lemma get_pin_index_for_inst_out_of_range_witness :
  get_pin_index_for_inst two_sub_tiles 12 = AssertFail.
Proof.
  apply (get_pin_index_for_inst_out_of_range two_sub_tiles 12). simpl. lia.
Defined.

(** ** Capacity locations *)

Lemma get_capacity_location_loop_skip (nm : string)
    (pre rest : list t_sub_tile) (p off : Z) :
  Forall (fun st => 0 <= num_phy_pins st) pre ->
  off + root_pins pre <= p ->
  get_capacity_location_from_physical_pin_loop nm (pre ++ rest) p off
  = get_capacity_location_from_physical_pin_loop nm rest p
      (off + root_pins pre).
Proof.
  induction 1 as [|st pre Hst Hpre IH] in off |- *; simpl; intros Hp.
  - by rewrite Z.add_0_r.
  - pose proof (root_pins_nonneg pre Hpre).
    destruct (Z.ltb_spec (p - off) (num_phy_pins st)); [lia|].
    rewrite IH by lia. f_equal; lia.
Qed.

Lemma get_capacity_location_owner (tile : t_physical_tile_type)
    (pre post : list t_sub_tile) (st : t_sub_tile) (p : Z) :
  sub_tiles tile = pre ++ st :: post ->
  Forall (fun st => 0 <= num_phy_pins st) pre ->
  root_pins pre <= p < root_pins pre + num_phy_pins st ->
  Z.quot (num_phy_pins st) (total (capacity st)) <> 0 ->
  get_capacity_location_from_physical_pin tile p
  = Ret (Z.quot (p - root_pins pre)
                (Z.quot (num_phy_pins st) (total (capacity st)))
         + low (capacity st),
         Z.rem (p - root_pins pre)
               (Z.quot (num_phy_pins st) (total (capacity st)))).
Proof.
  intros Hsts Hpre Hp Hk.
  unfold get_capacity_location_from_physical_pin.
  rewrite Hsts, get_capacity_location_loop_skip by (done || lia).
  rewrite Z.add_0_l. simpl.
  destruct (Z.ltb_spec (p - root_pins pre) (num_phy_pins st)); [|lia].
  assert (Ht : total (capacity st) <> 0).
  { intros Ht. rewrite Ht, Z.quot_0_r_ext in Hk; done. }
  rewrite (int_div_nonzero _ _ Ht). simpl.
  rewrite (int_div_nonzero _ _ Hk), (int_mod_nonzero _ _ Hk). simpl.
  done.
Qed.

Lemma get_physical_pin_loop_skip (nm : string) (pre rest : list t_sub_tile)
    (rel cap off : Z) :
  Forall (fun st => total (capacity st) <> 0
                    /\ is_in_range (capacity st) cap = false) pre ->
  get_physical_pin_from_capacity_location_loop nm (pre ++ rest) rel cap off
  = get_physical_pin_from_capacity_location_loop nm rest rel cap
      (off + root_pins pre).
Proof.
  induction 1 as [|st pre [Ht Hout] Hpre IH] in off |- *; simpl.
  - by rewrite Z.add_0_r.
  - rewrite (int_div_nonzero _ _ Ht). simpl. rewrite Hout, IH.
    f_equal; lia.
Qed.

Lemma get_physical_pin_owner (tile : t_physical_tile_type)
    (pre post : list t_sub_tile) (st : t_sub_tile) (rel cap : Z) :
  sub_tiles tile = pre ++ st :: post ->
  Forall (fun st => total (capacity st) <> 0
                    /\ is_in_range (capacity st) cap = false) pre ->
  total (capacity st) <> 0 ->
  is_in_range (capacity st) cap = true ->
  get_physical_pin_from_capacity_location tile rel cap
  = Ret (root_pins pre
         + Z.quot (num_phy_pins st) (total (capacity st))
           * (cap - low (capacity st))
         + rel).
Proof.
  intros Hsts Hpre Ht Hin.
  unfold get_physical_pin_from_capacity_location.
  rewrite Hsts, get_physical_pin_loop_skip by done.
  rewrite Z.add_0_l. simpl. rewrite (int_div_nonzero _ _ Ht). simpl. by rewrite Hin.
Qed.

Lemma is_in_range_spec (c : t_capacity_range) (cap : Z) :
  is_in_range c cap = true <-> low c <= cap <= high c.
Proof. unfold is_in_range. rewrite andb_true_iff, !Z.leb_le. done. Qed.

Lemma ranges_disjoint_out (c1 c2 : t_capacity_range) (cap : Z) :
  ranges_disjoint c1 c2 = true -> is_in_range c2 cap = true ->
  is_in_range c1 cap = false.
Proof.
  unfold ranges_disjoint. rewrite orb_true_iff, !Z.ltb_lt, is_in_range_spec.
  intros Hd Hin. apply not_true_is_false. rewrite is_in_range_spec. lia.
Qed.

(** With disjoint capacity ranges, a capacity location of one sub-tile lies
    in the range of none of the sub-tiles before it. *)
Lemma capacities_disjoint_before (pre post : list t_sub_tile)
    (st : t_sub_tile) (cap : Z) :
  capacities_disjoint (pre ++ st :: post) = true ->
  is_in_range (capacity st) cap = true ->
  Forall (fun s => is_in_range (capacity s) cap = false) pre.
Proof.
  intros Hd Hin. induction pre as [|a pre IH]; simpl in *; [constructor|].
  apply andb_true_iff in Hd as [Ha Hd].
  constructor; [|by apply IH].
  apply forallb_Forall in Ha.
  apply Forall_app in Ha as [_ Ha]. apply Forall_cons in Ha as [Ha _].
  by apply (ranges_disjoint_out _ (capacity st)).
Qed.

Lemma sub_tiles_before_skippable (pre : list t_sub_tile) (cap : Z) :
  Forall (fun st => wf_sub_tile st = true) pre ->
  Forall (fun s => is_in_range (capacity s) cap = false) pre ->
  Forall (fun st => total (capacity st) <> 0
                    /\ is_in_range (capacity st) cap = false) pre.
Proof.
  intros Hwf Hout. induction Hwf as [|st pre Hst Hpre IH]; [constructor|].
  apply Forall_cons in Hout as [Ho Hout].
  constructor; [|by apply IH].
  destruct (wf_sub_tile_unfold st Hst) as (? & _). split; [lia | done].
Qed.

(** C1. On a well-formed tile (every sub-tile has a non-empty capacity
    range that divides its pin count, the capacity ranges are disjoint and
    the sub-tile pin counts add up to the tile's) the two capacity-location
    translations are inverse to each other: a root-level pin goes to a
    (capacity location, relative pin) pair that comes back to the pin, and
    a pair made of a capacity location inside a sub-tile's range and a
    relative pin below its per-instance pin count goes to a root-level pin
    that comes back to the pair. *)
Theorem capacity_location_round_trip (tile : t_physical_tile_type) :
  wf_tile_pins tile = true ->
  (forall p,
      0 <= p < num_pins tile ->
      exists capacity_location relative_pin,
        get_capacity_location_from_physical_pin tile p
        = Ret (capacity_location, relative_pin)
        /\ get_physical_pin_from_capacity_location tile relative_pin
             capacity_location = Ret p)
  /\ (forall st relative_pin capacity_location,
        st ∈ sub_tiles tile ->
        is_in_range (capacity st) capacity_location = true ->
        0 <= relative_pin
          < Z.quot (num_phy_pins st) (total (capacity st)) ->
        exists p,
          0 <= p < num_pins tile
          /\ get_physical_pin_from_capacity_location tile relative_pin
               capacity_location = Ret p
          /\ get_capacity_location_from_physical_pin tile p
             = Ret (capacity_location, relative_pin)).
Proof.
  intros Hwf.
  destruct (wf_tile_pins_unfold tile Hwf) as (Hsts & Hdisj & Hnum).
  pose proof (wf_sub_tiles_nonneg _ Hsts) as Hnonneg.
  split.
  - intros p Hp.
    destruct (owner_split (sub_tiles tile) p Hnonneg) as
      (pre & st & post & Heq & Hr); [lia|].
    rewrite Heq in Hsts, Hnonneg, Hdisj.
    apply Forall_app in Hnonneg as [Hpre _].
    apply Forall_app in Hsts as [Hwfpre Hst].
    apply Forall_cons in Hst as [Hst _].
    destruct (wf_sub_tile_unfold st Hst) as (Ht & Hn & Hdiv).
    pose proof (wf_sub_tile_per_instance st Hst ltac:(lia)) as Hk.
    set (k := Z.quot (num_phy_pins st) (total (capacity st))) in *.
    destruct (quot_rem_bounds (p - root_pins pre) k (total (capacity st)))
      as (Hq & Hrem & Hsplit); [lia | done |].
    eexists _, _. split.
    + apply (get_capacity_location_owner tile pre post st p);
        (done || fold k; lia).
    + assert (Hin : is_in_range (capacity st)
                      (Z.quot (p - root_pins pre) k + low (capacity st))
                    = true).
      { apply is_in_range_spec. unfold total in Hq. lia. }
      rewrite (get_physical_pin_owner tile pre post st); try done; try lia.
      * f_equal. fold k. lia.
      * apply sub_tiles_before_skippable; [done|].
        by apply (capacities_disjoint_before pre post st).
  - intros st rel cap Hst Hin Hrel.
    apply list_elem_of_split in Hst as (pre & post & Heq).
    rewrite Heq in Hsts, Hnonneg, Hdisj.
    apply Forall_app in Hnonneg as [Hpre Hpost].
    apply Forall_app in Hsts as [Hwfpre Hst].
    apply Forall_cons in Hst as [Hst _].
    destruct (wf_sub_tile_unfold st Hst) as (Ht & Hn & Hdiv).
    set (k := Z.quot (num_phy_pins st) (total (capacity st))) in *.
    pose proof (proj1 (is_in_range_spec _ _) Hin) as Hcap.
    assert (Hlocal : 0 <= k * (cap - low (capacity st)) + rel
                     < num_phy_pins st).
    { unfold total in *. nia. }
    pose proof (root_pins_nonneg pre Hpre) as Hpre0.
    apply Forall_cons in Hpost as [_ Hpost].
    pose proof (root_pins_nonneg post Hpost) as Hpost0.
    exists (root_pins pre + k * (cap - low (capacity st)) + rel).
    split; [|split].
    + rewrite Hnum, Heq, root_pins_app. simpl. lia.
    + rewrite (get_physical_pin_owner tile pre post st); try done; try lia.
      apply sub_tiles_before_skippable; [done|].
      by apply (capacities_disjoint_before pre post st).
    + rewrite (get_capacity_location_owner tile pre post st);
        try done; try (fold k; lia).
      fold k.
      replace (root_pins pre + k * (cap - low (capacity st)) + rel
               - root_pins pre)
        with (k * (cap - low (capacity st)) + rel) by lia.
      destruct (quot_rem_unique k (cap - low (capacity st)) rel)
        as [-> ->]; [lia | lia |].
      do 2 f_equal. lia.
Qed.

Lemma capacity_location_round_trip_witness :
  (get_capacity_location_from_physical_pin two_sub_tiles 9 = Ret (2, 1)
   /\ get_physical_pin_from_capacity_location two_sub_tiles 1 2 = Ret 9)
  /\ exists p,
      get_physical_pin_from_capacity_location two_sub_tiles 1 2 = Ret p
      /\ get_capacity_location_from_physical_pin two_sub_tiles p = Ret (2, 1).
Proof.
  destruct (capacity_location_round_trip two_sub_tiles) as [Hfwd Hinv];
    [reflexivity|].
  split.
  - destruct (Hfwd 9) as (c & r & Hc & Hr); [simpl; lia|].
    vm_compute in Hc. injection Hc as <- <-. split; [reflexivity | exact Hr].
  - destruct (Hinv pair_sub_tile 1 2) as (p & _ & Hp & Hback).
    + unfold two_sub_tiles. simpl. set_solver.
    + reflexivity.
    + vm_compute. split; [discriminate | reflexivity].
    + exists p. split; assumption.
Defined.

(** ** Owner and capacity instance of a physical pin number *)

(** C2. [get_sub_tile_from_pin_physical_num] does not return the owner of
    every root-level pin: its loop has no [break], and a later sub-tile
    whose pin count exceeds the offset-corrected number overwrites the
    target.  Pin 2 of the two-sub-tile tile belongs to the first sub-tile
    (pins 0 to 5); the function answers the second. *)
Theorem get_sub_tile_from_pin_physical_num_overwritten :
  owning_sub_tile (sub_tiles two_sub_tiles) 0%nat 2 0 = Some 0%nat
  /\ get_sub_tile_from_pin_physical_num example_blocks two_sub_tiles 2
     = Ret 1%nat.
Proof. split; reflexivity. Qed.

(** The defect in general: in a tile of two sub-tiles, every pin of the
    first one that is also below the pin count of the second is given to
    the second. *)
Lemma get_sub_tile_from_pin_physical_num_two
    (lb : t_logical_block_type_ptr -> t_logical_block_type)
    (tile : t_physical_tile_type) (st1 st2 : t_sub_tile) (p : Z) :
  sub_tiles tile = [st1; st2] ->
  p < num_pins tile ->
  p < num_phy_pins st1 -> p < num_phy_pins st2 ->
  get_sub_tile_from_pin_physical_num lb tile p = Ret 1%nat.
Proof.
  intros Heq Hlt H1 H2. unfold get_sub_tile_from_pin_physical_num.
  rewrite (proj2 (Z.ltb_lt _ _) Hlt), Heq. simpl.
  rewrite !Z.add_0_l.
  rewrite (proj2 (Z.ltb_lt _ _) H1), (proj2 (Z.ltb_lt _ _) H2).
  reflexivity.
Qed.

(** C3. [get_sub_tile_cap_from_pin_physical_num] divides the tile-global
    number itself, not the number minus the pin offset of the owning
    sub-tile.  Pin 7 is the second pin of the first instance of the second
    sub-tile (offset 6, two pins per instance), as [get_pin_index_for_inst]
    finds; the function answers instance 3. *)
Theorem get_sub_tile_cap_from_pin_physical_num_keeps_offset :
  get_sub_tile_from_pin_physical_num example_blocks two_sub_tiles 7
  = Ret 1%nat
  /\ capacity_instance_of pair_sub_tile (root_pins [wide_sub_tile]) 7 = 0
  /\ get_pin_index_for_inst two_sub_tiles 7 = Ret (1, 0, 1)
  /\ get_sub_tile_cap_from_pin_physical_num example_blocks two_sub_tiles 7
     = Ret 3.
Proof. repeat split; reflexivity. Qed.

(** ** Unresolved ports *)

Lemma block_type_pin_index_to_pin_inst_loop_unresolved
    (ps : list t_physical_tile_port) (i : Z) (pip : t_pin_inst_port) :
  Forall (fun port => port_contains port i = false) ps ->
  block_type_pin_index_to_pin_inst_loop ps i pip = pip.
Proof. induction 1 as [|port ps Hp _ IH]; simpl; [done | by rewrite Hp]. Qed.

Lemma block_type_pin_index_to_name_loop_unresolved
    (ps : list t_physical_tile_port) (i : Z) (pin_name : string) :
  Forall (fun port => port_contains port i = false) ps ->
  block_type_pin_index_to_name_loop ps i pin_name = "<UNKOWN>".
Proof. induction 1 as [|port ps Hp _ IH]; simpl; [done | by rewrite Hp]. Qed.

(** C7. For a pin that no port of its sub-tile contains, port resolution
    returns the sentinel, and naming does not abort; but the name it
    returns is the misspelt ["<UNKOWN>"], not ["<UNKNOWN>"].  Pin 7 of the
    two-sub-tile tile has local index 1, outside the only port. *)
Theorem block_type_pin_index_to_name_misspelt :
  Forall (fun port => port_contains port 1 = false) (ports pair_sub_tile)
  /\ block_type_pin_index_to_pin_inst two_sub_tiles 7
     = Ret {| sub_tile_index := 1; capacity_instance := 0;
              port_index_of_pin := OPEN; pin_index_in_port := OPEN |}
  /\ block_type_pin_index_to_name two_sub_tiles 7 = Ret "<UNKOWN>"
  /\ block_type_pin_index_to_name two_sub_tiles 7 <> Ret "<UNKNOWN>".
Proof.
  split; [repeat constructor|].
  repeat split; try reflexivity. vm_compute. discriminate.
Qed.

(** The scenario of the specification: pin 2 of [CLOCK_TILE] is pin 0 of
    the port [clk_in] of capacity instance 2. *)
Example clock_tile_pin_2 :
  get_pin_index_for_inst CLOCK_TILE 2 = Ret (0, 2, 0)
  /\ block_type_pin_index_to_pin_inst CLOCK_TILE 2
     = Ret {| sub_tile_index := 0; capacity_instance := 2;
              port_index_of_pin := 0; pin_index_in_port := 0 |}
  /\ block_type_pin_index_to_name CLOCK_TILE 2
     = Ret "CLOCK_TILE[2].clk_in[0]".
Proof. repeat split; reflexivity. Qed.

(** ** The size of the flat address space *)

(** C8. [get_tile_max_ptc] in flat mode adds, for every unit, the pin
    count of the root [pb_type] of the logical block, not the size of its
    pin graph ([pb_pin_idx_bimap]) that [get_total_num_sub_tile_pins]
    counts.  With a block of two root pins and five pin-graph pins the two
    sizes differ. *)
Theorem get_tile_max_ptc_counts_root_pb_pins :
  get_tile_max_ptc example_blocks two_sub_tiles true = Ret 18
  /\ num_pins two_sub_tiles + flat_pin_graph_pins example_blocks two_sub_tiles
     = 27
  /\ get_total_num_sub_tile_pins example_blocks wide_sub_tile
     + get_total_num_sub_tile_pins example_blocks pair_sub_tile = 17.
Proof. repeat split; reflexivity. Qed.

(** ** [is_opin] *)

Lemma vec_get_size {A : Type} (v : list A) : vec_get v (size v) = Undefined.
Proof.
  unfold vec_get, size.
  destruct (Z.ltb_spec (Z.of_nat (length v)) 0); [done|].
  rewrite Nat2Z.id, (lookup_ge_None_2 v (length v)); [done | lia].
Qed.

(** The guard [ipin > type->num_pins] lets [ipin == num_pins] through. *)
Lemma is_opin_at_num_pins (type : t_physical_tile_type) :
  size (pin_class type) = num_pins type ->
  is_opin (num_pins type) type = Undefined.
Proof.
  intros Hsize. unfold is_opin. rewrite Z.ltb_irrefl, <- Hsize.
  by rewrite vec_get_size.
Qed.

Lemma is_opin_above_num_pins (type : t_physical_tile_type) (ipin : Z) :
  num_pins type < ipin -> is_opin ipin type = Ret false.
Proof.
  intros Hgt. unfold is_opin. by rewrite (proj2 (Z.ltb_lt _ _) Hgt).
Qed.

(** On a root-level pin whose class is recorded, both table reads are in
    bounds and the answer is whether the class is a [DRIVER]. *)
Lemma is_opin_root_pin (type : t_physical_tile_type) (ipin iclass : Z)
    (cls : t_class) :
  0 <= ipin < num_pins type ->
  pin_class type !! Z.to_nat ipin = Some iclass ->
  0 <= iclass ->
  class_inf type !! Z.to_nat iclass = Some cls ->
  is_opin ipin type = Ret (e_pin_type_eqb (class_type cls) DRIVER).
Proof.
  intros Hipin Hpin Hic Hcls. unfold is_opin, vec_get.
  destruct (Z.ltb_spec (num_pins type) ipin); [lia|].
  destruct (Z.ltb_spec ipin 0); [lia|].
  rewrite Hpin. simpl.
  destruct (Z.ltb_spec iclass 0); [lia|].
  rewrite Hcls. simpl. by destruct (e_pin_type_eqb (class_type cls) DRIVER).
Qed.

(** C9. At [ipin = num_pins], which is not a root-level pin, [is_opin] does
    not return [false]: it reads [pin_class] one past its last entry. *)
Theorem is_opin_reads_past_pin_class :
  size (pin_class two_sub_tiles) = num_pins two_sub_tiles
  /\ is_opin (num_pins two_sub_tiles) two_sub_tiles = Undefined
  /\ is_opin (num_pins two_sub_tiles + 1) two_sub_tiles = Ret false.
Proof. repeat split; reflexivity. Qed.

(** ** The sub-tile of a logical block *)

Lemma sub_tile_index_loop_none
    (sts : list t_sub_tile) (blk : t_logical_block_type_ptr) (acc : Z) :
  Forall (fun s => is_equivalent_site s blk = false) sts ->
  get_logical_block_physical_sub_tile_index_loop sts blk acc = acc.
Proof.
  induction 1 as [|s sts Hs _ IH] in acc |- *; simpl; [done|].
  by rewrite Hs, IH.
Qed.

(** Without a [break], the last sub-tile that lists the block wins. *)
Lemma sub_tile_index_loop_last (pre post : list t_sub_tile) (st : t_sub_tile)
    (blk : t_logical_block_type_ptr) (acc : Z) :
  is_equivalent_site st blk = true ->
  Forall (fun s => is_equivalent_site s blk = false) post ->
  get_logical_block_physical_sub_tile_index_loop (pre ++ st :: post) blk acc
  = index st.
Proof.
  intros Hst Hpost. induction pre as [|s pre IH] in acc |- *; simpl.
  - by rewrite Hst, sub_tile_index_loop_none.
  - apply IH.
Qed.

(** With the [break], the first sub-tile that lists the block and holds the
    capacity slot wins. *)
Lemma sub_tile_index_at_loop_first (pre post : list t_sub_tile)
    (st : t_sub_tile) (blk : t_logical_block_type_ptr) (cap acc : Z) :
  Forall (fun s => (is_equivalent_site s blk
                    && is_in_range (capacity s) cap) = false) pre ->
  (is_equivalent_site st blk && is_in_range (capacity st) cap) = true ->
  get_logical_block_physical_sub_tile_index_at_loop (pre ++ st :: post) blk
    cap acc = index st.
Proof.
  intros Hpre Hst. induction Hpre as [|s pre Hs _ IH]; simpl.
  - by rewrite Hst.
  - by rewrite Hs.
Qed.

(** C10. Let a sub-tile [st] of a tile list the logical block [blk].  If no
    later sub-tile lists [blk], the two-argument
    [get_logical_block_physical_sub_tile_index] returns the index of [st],
    the last match, and [get_physical_pin] translates through that
    sub-tile.  If [st] holds the capacity slot and no earlier sub-tile both
    lists [blk] and holds the slot, the capacity-qualified overload returns
    the index of [st], the first match. *)
Theorem sub_tile_index_last_match_and_first_match
    (lb : t_logical_block_type_ptr -> t_logical_block_type)
    (tile : t_physical_tile_type) (blk : t_logical_block_type_ptr)
    (pre post : list t_sub_tile) (st : t_sub_tile) :
  sub_tiles tile = pre ++ st :: post ->
  is_equivalent_site st blk = true ->
  0 <= index st ->
  (Forall (fun s => is_equivalent_site s blk = false) post ->
   get_logical_block_physical_sub_tile_index lb tile blk = Ret (index st)
   /\ forall pin,
       get_physical_pin lb tile blk pin
       = (let* sub_tile_physical_pin :=
            get_sub_tile_physical_pin lb (index st) tile blk pin in
          let* sub_tile := vec_get (sub_tiles tile) (index st) in
          vec_get (sub_tile_to_tile_pin_indices sub_tile)
                  sub_tile_physical_pin))
  /\ (forall sub_tile_capacity,
        is_in_range (capacity st) sub_tile_capacity = true ->
        Forall (fun s => (is_equivalent_site s blk
                          && is_in_range (capacity s) sub_tile_capacity)
                         = false) pre ->
        get_logical_block_physical_sub_tile_index_at lb tile blk
          sub_tile_capacity = Ret (index st)).
Proof.
  intros Heq Hst Hidx.
  assert (Hopen : (index st =? OPEN) = false).
  { apply Z.eqb_neq. unfold OPEN. lia. }
  split.
  - intros Hpost.
    assert (Htwo : get_logical_block_physical_sub_tile_index lb tile blk
                   = Ret (index st)).
    { unfold get_logical_block_physical_sub_tile_index.
      by rewrite Heq, sub_tile_index_loop_last, Hopen. }
    split; [done|]. intros pin.
    unfold get_physical_pin. rewrite Htwo. simpl. by rewrite Hopen.
  - intros cap Hin Hpre.
    unfold get_logical_block_physical_sub_tile_index_at.
    rewrite Heq, (sub_tile_index_at_loop_first pre post st); [|done|].
    + by rewrite Hopen.
    + by rewrite Hst, Hin.
Qed.

Lemma sub_tile_index_last_match_and_first_match_witness :
  (get_logical_block_physical_sub_tile_index example_blocks two_sub_tiles
     0%nat = Ret 1
   /\ get_physical_pin example_blocks two_sub_tiles 0%nat 0 = Ret 7)
  /\ get_logical_block_physical_sub_tile_index_at example_blocks
       two_sub_tiles 0%nat 0 = Ret 0.
Proof.
  split.
  - destruct (sub_tile_index_last_match_and_first_match example_blocks
                two_sub_tiles 0%nat [wide_sub_tile] [] pair_sub_tile)
      as [Hlast _]; [reflexivity | reflexivity | simpl; lia |].
    destruct Hlast as [Htwo Hpin]; [constructor|].
    split; [exact Htwo|]. rewrite Hpin. reflexivity.
  - destruct (sub_tile_index_last_match_and_first_match example_blocks
                two_sub_tiles 0%nat [] [pair_sub_tile] wide_sub_tile)
      as [_ Hfirst]; [reflexivity | reflexivity | simpl; lia |].
    apply (Hfirst 0); [reflexivity | constructor].
Defined.

(** ** Physical class numbers *)

Section ClassNumbers.

Variable lb : t_logical_block_type_ptr -> t_logical_block_type.

Lemma num_primitive_classes_nonneg (b : t_logical_block_type_ptr) :
  0 <= num_primitive_classes lb b.
Proof. unfold num_primitive_classes, size. lia. Qed.

Lemma sum_classes_app (l1 l2 : list t_logical_block_type_ptr) :
  sum_classes lb (l1 ++ l2) = sum_classes lb l1 + sum_classes lb l2.
Proof. induction l1 as [|b l1 IH]; simpl; lia. Qed.

Lemma sum_classes_nonneg (l : list t_logical_block_type_ptr) :
  0 <= sum_classes lb l.
Proof.
  induction l as [|b l IH]; simpl; [lia|].
  pose proof (num_primitive_classes_nonneg b). lia.
Qed.

Lemma classes_per_instance_nonneg (st : t_sub_tile) :
  0 <= classes_per_instance lb st.
Proof. apply sum_classes_nonneg. Qed.

Lemma classes_of_sub_tiles_app (l1 l2 : list t_sub_tile) :
  classes_of_sub_tiles lb (l1 ++ l2)
  = classes_of_sub_tiles lb l1 + classes_of_sub_tiles lb l2.
Proof. induction l1 as [|st l1 IH]; simpl; lia. Qed.

Lemma classes_of_sub_tiles_nonneg (sts : list t_sub_tile) :
  Forall (fun st => 0 <= total (capacity st)) sts ->
  0 <= classes_of_sub_tiles lb sts.
Proof.
  induction 1 as [|st sts Hst _ IH]; simpl; [lia|].
  pose proof (classes_per_instance_nonneg st). nia.
Qed.

Lemma add_sites_classes_sum (st : t_sub_tile) (e : Z) :
  add_sites_classes lb st e = e + classes_per_instance lb st.
Proof.
  unfold add_sites_classes, classes_per_instance.
  induction (equivalent_sites st) as [|b l IH] in e |- *; simpl; [lia|].
  rewrite IH. lia.
Qed.

Lemma add_sites_classes_caps (st : t_sub_tile) (caps : list Z) (e : Z) :
  fold_left (fun e _ => add_sites_classes lb st e) caps e
  = e + Z.of_nat (length caps) * classes_per_instance lb st.
Proof.
  induction caps as [|c caps IH] in e |- *; [simpl; lia|].
  cbn [fold_left length]. rewrite IH, add_sites_classes_sum. lia.
Qed.

Lemma get_tile_num_primitive_classes_sum (tile : t_physical_tile_type) :
  get_tile_num_primitive_classes lb tile
  = classes_of_sub_tiles lb (sub_tiles tile).
Proof.
  unfold get_tile_num_primitive_classes.
  assert (Hin : forall t sites acc,
             fold_left (fun num_classes eq_site =>
                          num_classes + num_primitive_classes lb eq_site * t)
                       sites acc
             = acc + t * sum_classes lb sites).
  { intros t sites. induction sites as [|b l IH]; intros acc; simpl; [lia|].
    rewrite IH. lia. }
  assert (Hout : forall sts acc,
             fold_left (fun num_classes sub_tile =>
                          fold_left (fun num_classes eq_site =>
                                       num_classes
                                       + num_primitive_classes lb eq_site
                                         * total (capacity sub_tile))
                                    (equivalent_sites sub_tile) num_classes)
                       sts acc
             = acc + classes_of_sub_tiles lb sts).
  { induction sts as [|st sts IH]; intros acc; simpl; [lia|].
    rewrite IH, Hin. unfold classes_per_instance. lia. }
  rewrite Hout. lia.
Qed.

(** *** [get_primitives_class_physical_num] on a unit of the tile *)

Lemma class_num_sites_continue (sites : list t_logical_block_type_ptr)
    (is_curr : bool) (c : Z) (blk : option t_logical_block_type_ptr)
    (rc m seen : Z) :
  is_curr = false \/ rc <> c ->
  get_primitives_class_physical_num_sites lb sites is_curr c blk rc m seen
  = Continue (seen + sum_classes lb sites).
Proof.
  intros Hno. induction sites as [|b l IH] in seen |- *; simpl.
  - by rewrite Z.add_0_r.
  - replace (is_curr && bool_decide (Some b = blk) && (rc =? c)) with false.
    + rewrite IH. f_equal. lia.
    + symmetry. destruct Hno as [-> | Hne]; [done|].
      rewrite (proj2 (Z.eqb_neq rc c) Hne). by rewrite andb_false_r.
Qed.

Lemma class_num_sites_return (spre spost : list t_logical_block_type_ptr)
    (b : t_logical_block_type_ptr) (c m seen : Z) :
  b ∉ spre ->
  get_primitives_class_physical_num_sites lb (spre ++ b :: spost) true c
    (Some b) c m seen
  = Return (seen + sum_classes lb spre + m).
Proof.
  intros Hnotin. induction spre as [|a l IH] in seen, Hnotin |- *; simpl.
  - rewrite bool_decide_eq_true_2, Z.eqb_refl by done. simpl.
    f_equal. lia.
  - apply not_elem_of_cons in Hnotin as [Hne Hnotin].
    rewrite bool_decide_eq_false_2 by congruence. simpl.
    rewrite IH by done. f_equal. lia.
Qed.

Lemma class_num_caps_continue (caps : list Z) (st : t_sub_tile)
    (is_curr : bool) (blk : option t_logical_block_type_ptr) (rc m seen : Z) :
  is_curr = false \/ rc ∉ caps ->
  get_primitives_class_physical_num_caps lb caps st is_curr blk rc m seen
  = Continue (seen + Z.of_nat (length caps) * classes_per_instance lb st).
Proof.
  intros Hno. induction caps as [|c caps IH] in seen, Hno |- *.
  - simpl. f_equal. lia.
  - cbn [get_primitives_class_physical_num_caps length].
    rewrite class_num_sites_continue.
    + rewrite IH.
      * f_equal. unfold classes_per_instance. lia.
      * destruct Hno as [? | Hno]; [by left | right].
        by apply not_elem_of_cons in Hno as [_ ?].
    + destruct Hno as [? | Hno]; [by left | right].
      by apply not_elem_of_cons in Hno as [? _].
Qed.

Lemma class_num_caps_return (c1 c2 : list Z) (st : t_sub_tile)
    (spre spost : list t_logical_block_type_ptr)
    (b : t_logical_block_type_ptr) (rc m seen : Z) :
  rc ∉ c1 ->
  equivalent_sites st = spre ++ b :: spost -> b ∉ spre ->
  get_primitives_class_physical_num_caps lb (c1 ++ rc :: c2) st true (Some b)
    rc m seen
  = Return (seen + Z.of_nat (length c1) * classes_per_instance lb st
            + sum_classes lb spre + m).
Proof.
  intros Hrc Hsites Hb. induction c1 as [|c c1 IH] in seen, Hrc |- *.
  - cbn [app get_primitives_class_physical_num_caps length].
    rewrite Hsites, class_num_sites_return by done. f_equal. lia.
  - apply not_elem_of_cons in Hrc as [Hne Hrc].
    cbn [app get_primitives_class_physical_num_caps length].
    rewrite class_num_sites_continue by (by right).
    rewrite IH by done. f_equal. unfold classes_per_instance. lia.
Qed.

Lemma seqZ_split (t c : Z) :
  0 <= c < t -> seqZ 0 t = seqZ 0 c ++ c :: seqZ (c + 1) (t - c - 1).
Proof.
  intros Hc. replace t with (c + (t - c)) at 1 by lia.
  rewrite seqZ_app by lia. rewrite Z.add_0_l.
  rewrite (seqZ_cons c) by lia.
  do 3 f_equal; lia.
Qed.

Lemma class_num_loop_skip (pre rest : list t_sub_tile)
    (pos target : t_sub_tile_ptr) (blk : option t_logical_block_type_ptr)
    (rc m seen : Z) :
  Forall (fun st => 0 <= total (capacity st)) pre ->
  (pos + length pre <= target)%nat ->
  get_primitives_class_physical_num_loop lb (pre ++ rest) pos (Some target)
    blk rc m seen
  = get_primitives_class_physical_num_loop lb rest (pos + length pre)%nat
      (Some target) blk rc m (seen + classes_of_sub_tiles lb pre).
Proof.
  induction 1 as [|st pre Hst _ IH] in pos, seen |- *; intros Hpos.
  - simpl. rewrite Nat.add_0_r, Z.add_0_r. done.
  - simpl in Hpos.
    cbn [app get_primitives_class_physical_num_loop].
    rewrite class_num_caps_continue.
    + rewrite IH by (simpl; lia). rewrite length_seqZ. simpl.
      rewrite Z2Nat.id by done.
      f_equal; lia.
    + left. apply bool_decide_eq_false_2. intros [= ->]. lia.
Qed.

(** The physical number of class [m] of a unit: the classes of the
    sub-tiles before, of the capacity instances before and of the
    equivalent sites before, plus [m]. *)
Lemma class_num_of_unit (tile : t_physical_tile_type)
    (pre post : list t_sub_tile) (st : t_sub_tile)
    (spre spost : list t_logical_block_type_ptr)
    (b : t_logical_block_type_ptr) (rc m : Z) :
  sub_tiles tile = pre ++ st :: post ->
  Forall (fun st => 0 <= total (capacity st)) pre ->
  equivalent_sites st = spre ++ b :: spost -> b ∉ spre ->
  0 <= rc < total (capacity st) ->
  get_primitives_class_physical_num lb tile (Some (length pre)) (Some b) rc m
  = classes_of_sub_tiles lb pre + rc * classes_per_instance lb st
    + sum_classes lb spre + m.
Proof.
  intros Heq Hpre Hsites Hb Hrc.
  unfold get_primitives_class_physical_num.
  rewrite Heq, class_num_loop_skip by (done || simpl; lia).
  cbn [get_primitives_class_physical_num_loop].
  rewrite bool_decide_eq_true_2 by done.
  rewrite (seqZ_split _ rc Hrc).
  rewrite (class_num_caps_return _ _ st spre spost b); try done.
  - rewrite length_seqZ, Z2Nat.id by lia. lia.
  - rewrite elem_of_seqZ. lia.
Qed.

End ClassNumbers.

(** *** The three scans *)

Lemma weighted_split {A : Type} (w : A -> Z) (l : list A) (p : Z) :
  Forall (fun x => 0 <= w x) l ->
  0 <= p < foldr (fun x acc => w x + acc) 0 l ->
  exists pre x post,
    l = pre ++ x :: post
    /\ foldr (fun x acc => w x + acc) 0 pre <= p
       < foldr (fun x acc => w x + acc) 0 pre + w x.
Proof.
  induction 1 as [|a l Ha _ IH] in p |- *; simpl; intros Hp; [lia|].
  destruct (Z.ltb_spec p (w a)) as [Hlt|Hge].
  - exists [], a, l. simpl. split; [done | lia].
  - destruct (IH (p - w a)) as (pre & x & post & -> & Hr); [lia|].
    exists (a :: pre), x, post. simpl. split; [done | lia].
Qed.

Lemma wf_sub_tile_sites_unfold (st : t_sub_tile) :
  wf_sub_tile_sites st = true ->
  1 <= total (capacity st)
  /\ (exists b0 tl, equivalent_sites st = b0 :: tl)
  /\ NoDup (equivalent_sites st).
Proof.
  unfold wf_sub_tile_sites. rewrite !andb_true_iff.
  intros [[Ht Hne] Hnd].
  apply Z.leb_le in Ht. apply bool_decide_eq_true_1 in Hne, Hnd.
  repeat split; try done.
  destruct (equivalent_sites st) as [|b0 tl]; [done | eauto].
Qed.

Lemma wf_sites_total_nonneg (sts : list t_sub_tile) :
  Forall (fun s => wf_sub_tile_sites s = true) sts ->
  Forall (fun s => 0 <= total (capacity s)) sts.
Proof.
  intros Hwf. eapply Forall_impl; [exact Hwf|].
  intros s Hs. destruct (wf_sub_tile_sites_unfold s Hs) as (? & _). lia.
Qed.

Section ClassScans.

Variable lb : t_logical_block_type_ptr -> t_logical_block_type.
Variable tile : t_physical_tile_type.
Hypothesis tile_wf :
  Forall (fun s => wf_sub_tile_sites s = true) (sub_tiles tile).

Local Abbreviation cst := (classes_of_sub_tiles lb).
Local Abbreviation cpi := (classes_per_instance lb).

(** The first class number of a capacity instance, as the scans obtain it
    from the first equivalent site. *)
Lemma class_num_of_instance (d r : list t_sub_tile) (s : t_sub_tile) (c : Z) :
  sub_tiles tile = d ++ s :: r ->
  0 <= c < total (capacity s) ->
  exists b0,
    vec_get (equivalent_sites s) 0 = Ret b0
    /\ get_primitives_class_physical_num lb tile (Some (length d)) (Some b0)
         c 0 = cst d + c * cpi s.
Proof.
  intros Heq Hc.
  pose proof tile_wf as Hwf. rewrite Heq in Hwf.
  apply Forall_app in Hwf as [Hd Hs]. apply Forall_cons in Hs as [Hs _].
  destruct (wf_sub_tile_sites_unfold s Hs) as (_ & (b0 & tl & Hsites) & _).
  exists b0. split; [by rewrite Hsites|].
  rewrite (class_num_of_unit lb tile d r s [] tl b0); try done.
  - simpl. lia.
  - by apply wf_sites_total_nonneg.
  - apply not_elem_of_nil.
Qed.

Lemma cst_snoc (d : list t_sub_tile) (s : t_sub_tile) :
  cst (d ++ [s]) = cst d + total (capacity s) * cpi s.
Proof. rewrite classes_of_sub_tiles_app. simpl. lia. Qed.

Lemma cst_mid_nonneg (d mid r : list t_sub_tile) :
  sub_tiles tile = (d ++ mid) ++ r -> 0 <= cst mid.
Proof.
  intros Heq. pose proof tile_wf as Hwf. rewrite Heq in Hwf.
  apply Forall_app in Hwf as [Hwf _]. apply Forall_app in Hwf as [_ Hwf].
  by apply classes_of_sub_tiles_nonneg, wf_sites_total_nonneg.
Qed.

Lemma sub_tile_total_pos (d r : list t_sub_tile) (s : t_sub_tile) :
  sub_tiles tile = d ++ s :: r -> 1 <= total (capacity s).
Proof.
  intros Heq. pose proof tile_wf as Hwf. rewrite Heq in Hwf.
  apply Forall_app in Hwf as [_ Hs]. apply Forall_cons in Hs as [Hs _].
  by destruct (wf_sub_tile_sites_unfold s Hs) as (? & _).
Qed.

Lemma sub_tile_scan (done mid post : list t_sub_tile) (st : t_sub_tile)
    (n : Z) :
  sub_tiles tile = (done ++ mid) ++ st :: post ->
  cst (done ++ mid) <= n
    < cst (done ++ mid) + total (capacity st) * cpi st ->
  get_sub_tile_from_class_physical_num_loop lb tile (mid ++ st :: post)
    (length done) n
  = Ret (Some (length (done ++ mid))).
Proof.
  induction mid as [|s mid IH] in done |- *; intros Heq Hn.
  - rewrite app_nil_r in *.
    cbn [app get_sub_tile_from_class_physical_num_loop].
    pose proof (sub_tile_total_pos _ _ _ Heq) as Ht.
    destruct (class_num_of_instance done post st 0 Heq)
      as (b0 & Hb0 & Hstart); [lia|].
    rewrite Hb0. cbn [bind]. rewrite Hstart. rewrite add_sites_classes_caps, length_seqZ, Z2Nat.id by lia.
    destruct (Z.leb_spec (cst done + 0 * cpi st) n); [|lia].
    destruct (Z.ltb_spec n (cst done + 0 * cpi st
                            + total (capacity st) * cpi st)); [|lia].
    done.
  - assert (Heq' : sub_tiles tile = done ++ s :: (mid ++ st :: post)).
    { rewrite Heq, <- app_assoc. done. }
    pose proof (sub_tile_total_pos _ _ _ Heq') as Ht.
    assert (Hmid : 0 <= cst mid).
    { apply (cst_mid_nonneg (done ++ [s]) mid (st :: post)).
      rewrite Heq, <- !app_assoc. done. }
    rewrite classes_of_sub_tiles_app in Hn. simpl in Hn.
    cbn [app get_sub_tile_from_class_physical_num_loop].
    destruct (class_num_of_instance done _ s 0 Heq')
      as (b0 & Hb0 & Hstart); [lia|].
    rewrite Hb0. cbn [bind]. rewrite Hstart. rewrite add_sites_classes_caps, length_seqZ, Z2Nat.id by lia.
    destruct (Z.ltb_spec n (cst done + 0 * cpi s
                            + total (capacity s) * cpi s)); [lia|].
    rewrite andb_false_r.
    replace (S (length done)) with (length (done ++ [s]))
      by (rewrite length_app; simpl; lia).
    rewrite (IH (done ++ [s])).
    + by rewrite <- app_assoc.
    + rewrite Heq, <- !app_assoc. done.
    + rewrite classes_of_sub_tiles_app, cst_snoc. lia.
Qed.

Lemma cap_scan_caps_skip (d r : list t_sub_tile) (s : t_sub_tile)
    (c1 crest : list Z) (n : Z) :
  sub_tiles tile = d ++ s :: r ->
  Forall (fun c => 0 <= c < total (capacity s)
                   /\ cst d + (c + 1) * cpi s <= n) c1 ->
  get_sub_tile_cap_from_class_physical_num_caps lb tile (c1 ++ crest) s
    (length d) n
  = get_sub_tile_cap_from_class_physical_num_caps lb tile crest s
      (length d) n.
Proof.
  intros Heq. induction 1 as [|c c1 [Hc Hn] _ IH]; [done|].
  cbn [app get_sub_tile_cap_from_class_physical_num_caps].
  destruct (class_num_of_instance d r s c Heq Hc) as (b0 & Hb0 & Hstart).
  rewrite Hb0. cbn [bind]. rewrite Hstart, add_sites_classes_sum.
  destruct (Z.ltb_spec n (cst d + c * cpi s + cpi s)); [lia|].
  by rewrite andb_false_r.
Qed.

Lemma cap_scan_caps_hit (d r : list t_sub_tile) (s : t_sub_tile)
    (crest : list Z) (c n : Z) :
  sub_tiles tile = d ++ s :: r ->
  0 <= c < total (capacity s) ->
  cst d + c * cpi s <= n < cst d + (c + 1) * cpi s ->
  get_sub_tile_cap_from_class_physical_num_caps lb tile (c :: crest) s
    (length d) n
  = Ret (Return c).
Proof.
  intros Heq Hc Hn.
  cbn [get_sub_tile_cap_from_class_physical_num_caps].
  destruct (class_num_of_instance d r s c Heq Hc) as (b0 & Hb0 & Hstart).
  rewrite Hb0. cbn [bind]. rewrite Hstart, add_sites_classes_sum.
  destruct (Z.leb_spec (cst d + c * cpi s) n); [|lia].
  destruct (Z.ltb_spec n (cst d + c * cpi s + cpi s)); [|lia].
  done.
Qed.

Lemma cap_scan (done mid post : list t_sub_tile) (st : t_sub_tile) (n c : Z) :
  sub_tiles tile = (done ++ mid) ++ st :: post ->
  0 <= c < total (capacity st) ->
  cst (done ++ mid) + c * cpi st <= n
    < cst (done ++ mid) + (c + 1) * cpi st ->
  get_sub_tile_cap_from_class_physical_num_loop lb tile (mid ++ st :: post)
    (length done) n
  = Ret c.
Proof.
  induction mid as [|s mid IH] in done |- *; intros Heq Hc Hn.
  - rewrite app_nil_r in *.
    cbn [app get_sub_tile_cap_from_class_physical_num_loop].
    rewrite (seqZ_split _ c Hc).
    rewrite (cap_scan_caps_skip done post st); [|done|].
    + by rewrite (cap_scan_caps_hit done post st).
    + apply Forall_seqZ. intros c' Hc'.
      pose proof (classes_per_instance_nonneg lb st). split; [lia | nia].
  - assert (Heq' : sub_tiles tile = done ++ s :: (mid ++ st :: post)).
    { rewrite Heq, <- app_assoc. done. }
    assert (Hmid : 0 <= cst mid).
    { apply (cst_mid_nonneg (done ++ [s]) mid (st :: post)).
      rewrite Heq, <- !app_assoc. done. }
    pose proof (classes_per_instance_nonneg lb st) as Hcpi.
    pose proof (classes_per_instance_nonneg lb s) as Hcpis.
    rewrite classes_of_sub_tiles_app in Hn. simpl in Hn.
    cbn [app get_sub_tile_cap_from_class_physical_num_loop].
    rewrite <- (app_nil_r (seqZ 0 (total (capacity s)))).
    rewrite (cap_scan_caps_skip done _ s _ [] n Heq').
    + simpl.
      replace (S (length done)) with (length (done ++ [s]))
        by (rewrite length_app; simpl; lia).
      apply IH; [rewrite Heq, <- !app_assoc; done | done |].
      rewrite classes_of_sub_tiles_app, cst_snoc. lia.
    + apply Forall_seqZ. intros c' Hc'. split; [lia | nia].
Qed.

Lemma sub_tile_sites_NoDup (d r : list t_sub_tile) (s : t_sub_tile) :
  sub_tiles tile = d ++ s :: r -> NoDup (equivalent_sites s).
Proof.
  intros Heq. pose proof tile_wf as Hwf. rewrite Heq in Hwf.
  apply Forall_app in Hwf as [_ Hs]. apply Forall_cons in Hs as [Hs _].
  by destruct (wf_sub_tile_sites_unfold s Hs) as (_ & _ & ?).
Qed.

Lemma sub_tiles_before_total (d r : list t_sub_tile) (s : t_sub_tile) :
  sub_tiles tile = d ++ s :: r ->
  Forall (fun s => 0 <= total (capacity s)) d.
Proof.
  intros Heq. pose proof tile_wf as Hwf. rewrite Heq in Hwf.
  apply Forall_app in Hwf as [Hd _]. by apply wf_sites_total_nonneg.
Qed.

Lemma block_scan_sites_skip (d r : list t_sub_tile) (s : t_sub_tile)
    (sdone smid srest : list t_logical_block_type_ptr) (c n : Z) :
  sub_tiles tile = d ++ s :: r ->
  0 <= c < total (capacity s) ->
  equivalent_sites s = (sdone ++ smid) ++ srest ->
  cst d + c * cpi s + sum_classes lb (sdone ++ smid) <= n ->
  get_logical_block_from_class_physical_num_sites lb tile (smid ++ srest)
    (length d) c n
  = get_logical_block_from_class_physical_num_sites lb tile srest
      (length d) c n.
Proof.
  intros Heq Hc.
  induction smid as [|b smid IH] in sdone |- *; intros Hsites Hn; [done|].
  assert (Hsites' : equivalent_sites s = sdone ++ b :: (smid ++ srest)).
  { rewrite Hsites, <- app_assoc. done. }
  pose proof (sub_tile_sites_NoDup d r s Heq) as Hnd.
  rewrite Hsites' in Hnd. apply NoDup_app in Hnd as (_ & Hb & _).
  assert (Hnotin : b ∉ sdone).
  { intros Hin. apply (Hb b Hin). by left. }
  cbn [app get_logical_block_from_class_physical_num_sites].
  rewrite (class_num_of_unit lb tile d r s sdone (smid ++ srest) b);
    try done; [|by apply (sub_tiles_before_total d r s)].
  rewrite sum_classes_app in Hn. simpl in Hn.
  pose proof (sum_classes_nonneg lb smid).
  destruct (Z.ltb_spec n (cst d + c * cpi s + sum_classes lb sdone + 0
                          + num_primitive_classes lb b)); [lia|].
  rewrite andb_false_r.
  apply (IH (sdone ++ [b])).
  - rewrite Hsites, <- !app_assoc. done.
  - rewrite <- app_assoc, sum_classes_app. simpl. lia.
Qed.

Lemma block_scan_sites_hit (d r : list t_sub_tile) (s : t_sub_tile)
    (spre spost : list t_logical_block_type_ptr)
    (b : t_logical_block_type_ptr) (c n : Z) :
  sub_tiles tile = d ++ s :: r ->
  0 <= c < total (capacity s) ->
  equivalent_sites s = spre ++ b :: spost ->
  cst d + c * cpi s + sum_classes lb spre <= n
    < cst d + c * cpi s + sum_classes lb spre + num_primitive_classes lb b ->
  get_logical_block_from_class_physical_num_sites lb tile
    (equivalent_sites s) (length d) c n
  = Some b.
Proof.
  intros Heq Hc Hsites Hn.
  pose proof (sub_tile_sites_NoDup d r s Heq) as Hnd.
  rewrite Hsites in Hnd. apply NoDup_app in Hnd as (_ & Hb & _).
  assert (Hnotin : b ∉ spre).
  { intros Hin. apply (Hb b Hin). by left. }
  rewrite Hsites at 1.
  rewrite (block_scan_sites_skip d r s [] spre (b :: spost));
    [| done | done | done | simpl; lia].
  cbn [get_logical_block_from_class_physical_num_sites].
  rewrite (class_num_of_unit lb tile d r s spre spost b);
    try done; [|by apply (sub_tiles_before_total d r s)].
  destruct (Z.leb_spec (cst d + c * cpi s + sum_classes lb spre + 0) n);
    [|lia].
  destruct (Z.ltb_spec n (cst d + c * cpi s + sum_classes lb spre + 0
                          + num_primitive_classes lb b)); [|lia].
  done.
Qed.

Lemma block_scan_caps_skip (d r : list t_sub_tile) (s : t_sub_tile)
    (c1 crest : list Z) (n : Z) :
  sub_tiles tile = d ++ s :: r ->
  Forall (fun c => 0 <= c < total (capacity s)
                   /\ cst d + (c + 1) * cpi s <= n) c1 ->
  get_logical_block_from_class_physical_num_caps lb tile (c1 ++ crest) s
    (length d) n
  = get_logical_block_from_class_physical_num_caps lb tile crest s
      (length d) n.
Proof.
  intros Heq. induction 1 as [|c c1 [Hc Hn] _ IH]; [done|].
  cbn [app get_logical_block_from_class_physical_num_caps].
  rewrite <- (app_nil_r (equivalent_sites s)) at 1.
  rewrite (block_scan_sites_skip d r s [] (equivalent_sites s) []);
    [done | done | done | by rewrite app_nil_r |].
  simpl. fold (cpi s). lia.
Qed.

Lemma block_scan (done mid post : list t_sub_tile) (st : t_sub_tile)
    (spre spost : list t_logical_block_type_ptr)
    (b : t_logical_block_type_ptr) (n c : Z) :
  sub_tiles tile = (done ++ mid) ++ st :: post ->
  0 <= c < total (capacity st) ->
  equivalent_sites st = spre ++ b :: spost ->
  cst (done ++ mid) + c * cpi st + sum_classes lb spre <= n
    < cst (done ++ mid) + c * cpi st + sum_classes lb spre
      + num_primitive_classes lb b ->
  get_logical_block_from_class_physical_num_loop lb tile (mid ++ st :: post)
    (length done) n
  = Some b.
Proof.
  induction mid as [|s mid IH] in done |- *; intros Heq Hc Hsites Hn.
  - rewrite app_nil_r in *.
    cbn [app get_logical_block_from_class_physical_num_loop].
    pose proof (sum_classes_nonneg lb spre) as Hspre.
    pose proof (classes_per_instance_nonneg lb st) as Hcpi.
    rewrite (seqZ_split _ c Hc).
    rewrite (block_scan_caps_skip done post st); [|done|].
    + cbn [get_logical_block_from_class_physical_num_caps].
      by rewrite (block_scan_sites_hit done post st spre spost b).
    + apply Forall_seqZ. intros c' Hc'. split; [lia | nia].
  - assert (Heq' : sub_tiles tile = done ++ s :: (mid ++ st :: post)).
    { rewrite Heq, <- app_assoc. done. }
    assert (Hmid : 0 <= cst mid).
    { apply (cst_mid_nonneg (done ++ [s]) mid (st :: post)).
      rewrite Heq, <- !app_assoc. done. }
    pose proof (sum_classes_nonneg lb spre) as Hspre.
    pose proof (classes_per_instance_nonneg lb st) as Hcpi.
    pose proof (classes_per_instance_nonneg lb s) as Hcpis.
    rewrite classes_of_sub_tiles_app in Hn. simpl in Hn.
    cbn [app get_logical_block_from_class_physical_num_loop].
    rewrite <- (app_nil_r (seqZ 0 (total (capacity s)))).
    rewrite (block_scan_caps_skip done _ s _ [] n Heq').
    + cbn [get_logical_block_from_class_physical_num_caps].
      replace (S (length done)) with (length (done ++ [s]))
        by (rewrite length_app; simpl; lia).
      apply IH; [rewrite Heq, <- !app_assoc; done | done | done |].
      rewrite classes_of_sub_tiles_app, cst_snoc. lia.
    + apply Forall_seqZ. intros c' Hc'. split; [lia | nia].
Qed.

End ClassScans.

(** C5. On a tile whose sub-tiles have a non-empty capacity range and a
    non-empty, duplicate-free list of equivalent sites, every physical
    class number of the flat address space is translated by the four
    queries to a sub-tile, a capacity instance, a logical block and a
    logical class number of that block, and
    [get_primitives_class_physical_num] takes the four back to the
    number. *)
Theorem class_physical_num_round_trip
    (lb : t_logical_block_type_ptr -> t_logical_block_type)
    (tile : t_physical_tile_type) (n : Z) :
  wf_tile_classes tile = true ->
  0 <= n < get_tile_num_primitive_classes lb tile ->
  exists sub_tile sub_tile_cap logical_block class_logical_num,
    get_sub_tile_from_class_physical_num lb tile n = Ret (Some sub_tile)
    /\ get_sub_tile_cap_from_class_physical_num lb tile n = Ret sub_tile_cap
    /\ get_logical_block_from_class_physical_num lb tile n
       = Some logical_block
    /\ get_class_logical_num_from_class_physical_num lb tile n
       = Ret class_logical_num
    /\ 0 <= class_logical_num < num_primitive_classes lb logical_block
    /\ get_primitives_class_physical_num lb tile (Some sub_tile)
         (Some logical_block) sub_tile_cap class_logical_num = n.
Proof.
  intros Hwf Hn. apply forallb_Forall in Hwf.
  rewrite get_tile_num_primitive_classes_sum in Hn.
  destruct (weighted_split
              (fun st => total (capacity st) * classes_per_instance lb st)
              (sub_tiles tile) n) as (pre & st & post & Heq & Hst);
    [| exact Hn |].
  { eapply Forall_impl; [exact Hwf|]. intros s Hs. simpl.
    destruct (wf_sub_tile_sites_unfold s Hs) as (? & _).
    pose proof (classes_per_instance_nonneg lb s). nia. }
  change (foldr _ 0 pre) with (classes_of_sub_tiles lb pre) in Hst.
  simpl in Hst.
  pose proof (sub_tile_total_pos tile Hwf pre post st Heq) as Ht.
  pose proof (classes_per_instance_nonneg lb st) as Hcpi.
  set (k := classes_per_instance lb st) in *.
  set (base := classes_of_sub_tiles lb pre) in *.
  destruct (quot_rem_bounds (n - base) k (total (capacity st)))
    as (Hq & Hr & Hsplit); [lia | nia |].
  set (q := Z.quot (n - base) k) in *.
  set (r := Z.rem (n - base) k) in *.
  destruct (weighted_split (num_primitive_classes lb) (equivalent_sites st) r)
    as (spre & b & spost & Hsites & Hb); [| exact Hr |].
  { apply Forall_forall. intros x _. apply num_primitive_classes_nonneg. }
  change (foldr _ 0 spre) with (sum_classes lb spre) in Hb.
  pose proof (sub_tile_sites_NoDup tile Hwf pre post st Heq) as Hnd.
  rewrite Hsites in Hnd. apply NoDup_app in Hnd as (_ & Hnotin & _).
  assert (Hbpre : b ∉ spre).
  { intros Hin. apply (Hnotin b Hin). by left. }
  assert (Hstart : forall m,
             get_primitives_class_physical_num lb tile (Some (length pre))
               (Some b) q m
             = base + q * k + sum_classes lb spre + m).
  { intros m.
    apply (class_num_of_unit lb tile pre post st spre spost b); try done.
    by apply (sub_tiles_before_total tile Hwf pre post st). }
  assert (Hsub : get_sub_tile_from_class_physical_num lb tile n
                 = Ret (Some (length pre))).
  { unfold get_sub_tile_from_class_physical_num. rewrite Heq.
    apply (sub_tile_scan lb tile Hwf [] pre post st n); [done|].
    simpl. fold base k. lia. }
  assert (Hcap : get_sub_tile_cap_from_class_physical_num lb tile n = Ret q).
  { unfold get_sub_tile_cap_from_class_physical_num. rewrite Heq.
    apply (cap_scan lb tile Hwf [] pre post st n q); [done | lia |].
    simpl. fold base k. lia. }
  assert (Hblk : get_logical_block_from_class_physical_num lb tile n
                 = Some b).
  { unfold get_logical_block_from_class_physical_num. rewrite Heq.
    apply (block_scan lb tile Hwf [] pre post st spre spost b n q);
      [done | lia | done |].
    simpl. fold base k. lia. }
  exists (length pre), q, b, (n - (base + q * k + sum_classes lb spre)).
  repeat split; try done; try lia.
  - unfold get_class_logical_num_from_class_physical_num.
    rewrite Hsub, Hcap, Hblk. cbn [bind].
    rewrite Hstart, Z.add_0_r.
    destruct (Z.eqb_spec q (-1)); [lia|].
    destruct (Z.eqb_spec (base + q * k + sum_classes lb spre) (-1)).
    + pose proof (sum_classes_nonneg lb spre).
      assert (0 <= base).
      { apply classes_of_sub_tiles_nonneg.
        by apply (sub_tiles_before_total tile Hwf pre post st). }
      nia.
    + done.
  - rewrite Hstart. lia.
Qed.

Lemma class_physical_num_round_trip_witness :
  exists sub_tile sub_tile_cap logical_block class_logical_num,
    get_sub_tile_from_class_physical_num example_blocks two_sub_tiles 9
    = Ret (Some sub_tile)
    /\ get_sub_tile_cap_from_class_physical_num example_blocks two_sub_tiles 9
       = Ret sub_tile_cap
    /\ get_logical_block_from_class_physical_num example_blocks two_sub_tiles 9
       = Some logical_block
    /\ get_class_logical_num_from_class_physical_num example_blocks
         two_sub_tiles 9 = Ret class_logical_num
    /\ 0 <= class_logical_num
         < num_primitive_classes example_blocks logical_block
    /\ get_primitives_class_physical_num example_blocks two_sub_tiles
         (Some sub_tile) (Some logical_block) sub_tile_cap class_logical_num
       = 9.
Proof.
  apply (class_physical_num_round_trip example_blocks two_sub_tiles 9).
  - reflexivity.
  - vm_compute. split; [discriminate | reflexivity].
Defined.

(** * Further properties of the queries *)

(** ** [get_pin_index_for_inst] and the capacity location agree *)

Lemma get_pin_index_for_inst_loop_capacity_location (nm : string)
    (sts : list t_sub_tile) (p off i q idx : Z) :
  get_pin_index_for_inst_loop nm sts p off off = Ret (i, q, idx) ->
  exists st,
    st ∈ sts /\ index st = idx
    /\ get_capacity_location_from_physical_pin_loop nm sts p off
       = Ret (q + low (capacity st), i).
Proof.
  induction sts as [|st sts IH] in off |- *; simpl; [done|].
  replace (p - off <? num_phy_pins st) with (p <? off + num_phy_pins st)
    by (apply eq_true_iff_eq; rewrite !Z.ltb_lt; lia).
  destruct (p <? off + num_phy_pins st).
  - destruct (int_div (num_phy_pins st) (total (capacity st)))
      as [k| | | |]; simpl; try done.
    destruct (int_div (p - off) k) as [q'| | | |]; simpl; try done.
    destruct (int_mod (p - off) k) as [i'| | | |]; simpl; try done.
    intros [= -> -> <-]. exists st. split; [by left | done].
  - intros Hrest. destruct (IH _ Hrest) as (st' & Hin & Hidx & Hloc).
    exists st'. split; [by right | done].
Qed.

(** X1. Whenever [get_pin_index_for_inst] places a pin, whatever the tile,
    [get_capacity_location_from_physical_pin] places it in the same
    sub-tile: it returns the same pin index within the instance, and the
    same instance counted from the [low] end of that sub-tile's capacity
    range. *)
Theorem capacity_location_of_pin_index_for_inst
    (tile : t_physical_tile_type) (p i q idx : Z) :
  get_pin_index_for_inst tile p = Ret (i, q, idx) ->
  exists st,
    st ∈ sub_tiles tile /\ index st = idx
    /\ get_capacity_location_from_physical_pin tile p
       = Ret (q + low (capacity st), i).
Proof.
  unfold get_pin_index_for_inst, get_capacity_location_from_physical_pin.
  destruct (p <? num_pins tile); simpl; [|done].
  apply get_pin_index_for_inst_loop_capacity_location.
Qed.

Lemma capacity_location_of_pin_index_for_inst_witness :
  exists st,
    st ∈ sub_tiles two_sub_tiles /\ index st = 1
    /\ get_capacity_location_from_physical_pin two_sub_tiles 9
       = Ret (1 + low (capacity st), 1).
Proof.
  apply (capacity_location_of_pin_index_for_inst two_sub_tiles 9 1 1 1).
  reflexivity.
Defined.

(** ** Ports of a sub-tile *)

Lemma ports_indexed_lookup (pre post : list t_physical_tile_port)
    (port : t_physical_tile_port) (pos : Z) :
  ports_indexed (pre ++ port :: post) pos = true ->
  port_index port = pos + size pre.
Proof.
  unfold size.
  induction pre as [|a pre IH] in pos |- *; simpl;
    rewrite andb_true_iff, Z.eqb_eq; intros [Ha Hrest]; [lia|].
  rewrite (IH _ Hrest). lia.
Qed.

Lemma vec_get_middle {A : Type} (pre post : list A) (x : A) :
  vec_get (pre ++ x :: post) (size pre) = Ret x.
Proof.
  unfold vec_get, size.
  destruct (Z.ltb_spec (Z.of_nat (length pre)) 0); [lia|].
  by rewrite Nat2Z.id, list_lookup_middle.
Qed.

Lemma get_port_by_pin_loop_first (all_ports pre post : list t_physical_tile_port)
    (port : t_physical_tile_port) (pin : Z) :
  Forall (fun port => port_contains port pin = false) pre ->
  port_contains port pin = true ->
  get_port_by_pin_loop all_ports (pre ++ port :: post) pin
  = (let* found := vec_get all_ports (port_index port) in Ret (Some found)).
Proof.
  intros Hpre Hport. induction Hpre as [|a pre Ha _ IH]; simpl.
  - by rewrite Hport.
  - by rewrite Ha.
Qed.

Lemma get_port_by_pin_loop_none (all_ports ps : list t_physical_tile_port)
    (pin : Z) :
  Forall (fun port => port_contains port pin = false) ps ->
  get_port_by_pin_loop all_ports ps pin = Ret None.
Proof. induction 1 as [|a ps Ha _ IH]; simpl; [done | by rewrite Ha]. Qed.

(** Either no element satisfies a test, or the list splits at the first one
    that does. *)
Lemma first_match_split {A : Type} (f : A -> bool) (l : list A) :
  Forall (fun a => f a = false) l
  \/ exists pre a post,
      l = pre ++ a :: post /\ Forall (fun a => f a = false) pre
      /\ f a = true.
Proof.
  induction l as [|a l IH]; [left; constructor|].
  destruct (f a) eqn:Ha.
  - right. exists [], a, l. repeat split; [constructor | done].
  - destruct IH as [Hnone | (pre & b & post & -> & Hpre & Hb)].
    + left. by constructor.
    + right. exists (a :: pre), b, post. repeat split; [by constructor | done].
Qed.

(** X2. On a sub-tile whose ports record their own positions,
    [get_port_by_pin] never fails: it returns [nullptr] when no port
    contains the pin, and otherwise the first port, in declaration order,
    whose range [absolute_first_pin_index, absolute_first_pin_index +
    num_pins) contains it. *)
Theorem get_port_by_pin_first_containing (sub_tile : t_sub_tile) (pin : Z) :
  ports_indexed (ports sub_tile) 0 = true ->
  (Forall (fun port => port_contains port pin = false) (ports sub_tile)
   /\ get_port_by_pin sub_tile pin = Ret None)
  \/ exists pre port post,
      ports sub_tile = pre ++ port :: post
      /\ Forall (fun port => port_contains port pin = false) pre
      /\ port_contains port pin = true
      /\ get_port_by_pin sub_tile pin = Ret (Some port).
Proof.
  intros Hidx. unfold get_port_by_pin.
  destruct (first_match_split (fun port => port_contains port pin)
                              (ports sub_tile))
    as [Hnone | (pre & port & post & Heq & Hpre & Hport)].
  - left. split; [done | by apply get_port_by_pin_loop_none].
  - right. exists pre, port, post. repeat split; try done.
    rewrite Heq at 2. rewrite get_port_by_pin_loop_first by done.
    rewrite Heq in Hidx. rewrite (ports_indexed_lookup _ _ _ _ Hidx).
    by rewrite Heq, Z.add_0_l, vec_get_middle.
Qed.

Lemma get_port_by_pin_first_containing_witness :
  (Forall (fun port => port_contains port 3 = false) (ports wide_sub_tile)
   /\ get_port_by_pin wide_sub_tile 3 = Ret None)
  \/ exists pre port post,
      ports wide_sub_tile = pre ++ port :: post
      /\ Forall (fun port => port_contains port 3 = false) pre
      /\ port_contains port 3 = true
      /\ get_port_by_pin wide_sub_tile 3 = Ret (Some port).
Proof.
  apply (get_port_by_pin_first_containing wide_sub_tile 3). reflexivity.
Defined.

Lemma get_port_by_name_loop_first
    (all_ports pre post : list t_physical_tile_port)
    (port : t_physical_tile_port) (nm : string) :
  Forall (fun port => String.eqb (port_name port) nm = false) pre ->
  String.eqb (port_name port) nm = true ->
  get_port_by_name_loop all_ports (pre ++ port :: post) nm
  = (let* found := vec_get all_ports (port_index port) in Ret (Some found)).
Proof.
  intros Hpre Hport. induction Hpre as [|a pre Ha _ IH]; simpl.
  - by rewrite Hport.
  - by rewrite Ha.
Qed.

Lemma get_port_by_name_loop_none (all_ports ps : list t_physical_tile_port)
    (nm : string) :
  Forall (fun port => String.eqb (port_name port) nm = false) ps ->
  get_port_by_name_loop all_ports ps nm = Ret None.
Proof. induction 1 as [|a ps Ha _ IH]; simpl; [done | by rewrite Ha]. Qed.

(** X3. On a sub-tile whose ports record their own positions,
    [get_port_by_name] never fails: it returns [nullptr] when no port has
    the name, and otherwise the first port of that name; a later port of
    the same name is never returned. *)
Theorem get_port_by_name_first_named (sub_tile : t_sub_tile) (nm : string) :
  ports_indexed (ports sub_tile) 0 = true ->
  (Forall (fun port => port_name port <> nm) (ports sub_tile)
   /\ get_port_by_name sub_tile nm = Ret None)
  \/ exists pre port post,
      ports sub_tile = pre ++ port :: post
      /\ Forall (fun port => port_name port <> nm) pre
      /\ port_name port = nm
      /\ get_port_by_name sub_tile nm = Ret (Some port).
Proof.
  intros Hidx. unfold get_port_by_name.
  assert (Hne : forall ps,
             Forall (fun port => String.eqb (port_name port) nm = false) ps ->
             Forall (fun port => port_name port <> nm) ps).
  { intros ps Hps. eapply Forall_impl; [exact Hps|].
    intros port Hp. by apply String.eqb_neq. }
  destruct (first_match_split (fun port => String.eqb (port_name port) nm)
                              (ports sub_tile))
    as [Hnone | (pre & port & post & Heq & Hpre & Hport)].
  - left. split; [by apply Hne | by apply get_port_by_name_loop_none].
  - right. exists pre, port, post.
    repeat split; [done | by apply Hne | by apply String.eqb_eq |].
    rewrite Heq at 2. rewrite get_port_by_name_loop_first by done.
    rewrite Heq in Hidx. rewrite (ports_indexed_lookup _ _ _ _ Hidx).
    by rewrite Heq, Z.add_0_l, vec_get_middle.
Qed.

Lemma get_port_by_name_first_named_witness :
  (Forall (fun port => port_name port <> "clk_in") (ports BUFG)
   /\ get_port_by_name BUFG "clk_in" = Ret None)
  \/ exists pre port post,
      ports BUFG = pre ++ port :: post
      /\ Forall (fun port => port_name port <> "clk_in") pre
      /\ port_name port = "clk_in"
      /\ get_port_by_name BUFG "clk_in" = Ret (Some port).
Proof. apply (get_port_by_name_first_named BUFG "clk_in"). reflexivity. Defined.

(** ** Port resolution and naming of a root-level pin *)

Lemma block_type_pin_index_to_pin_inst_loop_first
    (pre post : list t_physical_tile_port) (port : t_physical_tile_port)
    (i : Z) (pip : t_pin_inst_port) :
  Forall (fun port => port_contains port i = false) pre ->
  port_contains port i = true ->
  block_type_pin_index_to_pin_inst_loop (pre ++ port :: post) i pip
  = {| sub_tile_index := sub_tile_index pip;
       capacity_instance := capacity_instance pip;
       port_index_of_pin := port_index port;
       pin_index_in_port := i - absolute_first_pin_index port |}.
Proof.
  intros Hpre Hport. induction Hpre as [|a pre Ha _ IH]; simpl.
  - by rewrite Hport.
  - by rewrite Ha.
Qed.

Lemma block_type_pin_index_to_name_loop_first
    (pre post : list t_physical_tile_port) (port : t_physical_tile_port)
    (i : Z) (pin_name : string) :
  Forall (fun port => port_contains port i = false) pre ->
  port_contains port i = true ->
  block_type_pin_index_to_name_loop (pre ++ port :: post) i pin_name
  = (pin_name +:+ port_name port)
    +:+ "[" +:+ to_string (i - absolute_first_pin_index port) +:+ "]".
Proof.
  intros Hpre Hport. induction Hpre as [|a pre Ha _ IH]; simpl.
  - by rewrite Hport.
  - by rewrite Ha.
Qed.

Lemma block_type_pin_index_to_pin_inst_loop_keeps
    (ps : list t_physical_tile_port) (i : Z) (pip : t_pin_inst_port) :
  sub_tile_index (block_type_pin_index_to_pin_inst_loop ps i pip)
  = sub_tile_index pip
  /\ capacity_instance (block_type_pin_index_to_pin_inst_loop ps i pip)
     = capacity_instance pip.
Proof.
  induction ps as [|port ps IH]; simpl; [done|].
  by destruct (port_contains port i).
Qed.

Lemma port_contains_spec (port : t_physical_tile_port) (i : Z) :
  port_contains port i = true
  <-> absolute_first_pin_index port <= i
      < absolute_first_pin_index port + port_num_pins port.
Proof. unfold port_contains. rewrite andb_true_iff, Z.leb_le, Z.ltb_lt. done. Qed.

(** X4. [block_type_pin_index_to_pin_inst] keeps the sub-tile and the
    capacity instance that [get_pin_index_for_inst] found, and resolves the
    port as [get_port_by_pin] does on that sub-tile: both fields are [OPEN]
    when [get_port_by_pin] returns [nullptr]; otherwise they are the index
    of the port it returns and the offset of the pin from the first pin of
    that port, which lies within the width of the port. *)
Theorem block_type_pin_index_to_pin_inst_resolves
    (tile : t_physical_tile_type) (st : t_sub_tile) (p i q idx : Z) :
  get_pin_index_for_inst tile p = Ret (i, q, idx) ->
  vec_get (sub_tiles tile) idx = Ret st ->
  ports_indexed (ports st) 0 = true ->
  exists r,
    block_type_pin_index_to_pin_inst tile p = Ret r
    /\ sub_tile_index r = idx /\ capacity_instance r = q
    /\ ((get_port_by_pin st i = Ret None
         /\ port_index_of_pin r = OPEN /\ pin_index_in_port r = OPEN)
        \/ exists port,
            get_port_by_pin st i = Ret (Some port)
            /\ port_index_of_pin r = port_index port
            /\ pin_index_in_port r = i - absolute_first_pin_index port
            /\ 0 <= pin_index_in_port r < port_num_pins port).
Proof.
  intros Hinst Hst Hidx.
  unfold block_type_pin_index_to_pin_inst, get_port_by_pin.
  rewrite Hinst. cbn [bind]. rewrite Hst. cbn [bind].
  destruct (first_match_split (fun port => port_contains port i) (ports st))
    as [Hnone | (pre & port & post & Heq & Hpre & Hport)].
  - rewrite block_type_pin_index_to_pin_inst_loop_unresolved by done.
    eexists. split; [done|]. repeat split. left.
    by rewrite get_port_by_pin_loop_none.
  - rewrite Heq in Hidx.
    pose proof (ports_indexed_lookup _ _ _ _ Hidx) as Hpos.
    assert (Hby_pin : get_port_by_pin_loop (ports st) (ports st) i
                      = Ret (Some port)).
    { rewrite Heq at 2. rewrite get_port_by_pin_loop_first by done.
      by rewrite Hpos, Heq, Z.add_0_l, vec_get_middle. }
    rewrite Hby_pin, Heq.
    rewrite block_type_pin_index_to_pin_inst_loop_first by done.
    eexists. split; [done|]. cbn.
    repeat split. right. exists port.
    apply port_contains_spec in Hport. repeat split; lia.
Qed.

Lemma block_type_pin_index_to_pin_inst_resolves_witness :
  exists r,
    block_type_pin_index_to_pin_inst CLOCK_TILE 2 = Ret r
    /\ sub_tile_index r = 0 /\ capacity_instance r = 2
    /\ ((get_port_by_pin BUFG 0 = Ret None
         /\ port_index_of_pin r = OPEN /\ pin_index_in_port r = OPEN)
        \/ exists port,
            get_port_by_pin BUFG 0 = Ret (Some port)
            /\ port_index_of_pin r = port_index port
            /\ pin_index_in_port r = 0 - absolute_first_pin_index port
            /\ 0 <= pin_index_in_port r < port_num_pins port).
Proof.
  apply (block_type_pin_index_to_pin_inst_resolves CLOCK_TILE BUFG 2 0 2 0);
    reflexivity.
Defined.

(** X5. The name of a pin is built from what
    [block_type_pin_index_to_pin_inst] returns for it.  On a sub-tile whose
    ports record their own positions the name is ["<UNKOWN>"] exactly when
    the port field is [OPEN]; otherwise it is the tile name, the capacity
    instance in brackets if the sub-tile has more than one, a dot, the
    name of the port with the returned index, and the returned pin index
    in brackets. *)
Theorem block_type_pin_index_to_name_renders_pin_inst
    (tile : t_physical_tile_type) (st : t_sub_tile) (r : t_pin_inst_port)
    (p : Z) :
  block_type_pin_index_to_pin_inst tile p = Ret r ->
  vec_get (sub_tiles tile) (sub_tile_index r) = Ret st ->
  ports_indexed (ports st) 0 = true ->
  (port_index_of_pin r = OPEN
   /\ block_type_pin_index_to_name tile p = Ret "<UNKOWN>")
  \/ exists port,
      port_index_of_pin r <> OPEN
      /\ vec_get (ports st) (port_index_of_pin r) = Ret port
      /\ block_type_pin_index_to_name tile p
         = Ret ((((if 1 <? total (capacity st)
                   then name tile +:+ "["
                        +:+ to_string (capacity_instance r) +:+ "]"
                   else name tile) +:+ ".") +:+ port_name port)
                +:+ "[" +:+ to_string (pin_index_in_port r) +:+ "]").
Proof.
  unfold block_type_pin_index_to_pin_inst, block_type_pin_index_to_name.
  destruct (get_pin_index_for_inst tile p) as [[[i q] idx]| | | |] eqn:Hinst;
    cbn [bind]; try done.
  assert (Hlt : (p <? num_pins tile) = true).
  { unfold get_pin_index_for_inst in Hinst.
    by destruct (p <? num_pins tile). }
  rewrite Hlt. cbn [VTR_ASSERT bind].
  destruct (vec_get (sub_tiles tile) idx) as [st'| | | |] eqn:Hst';
    cbn [bind]; try done.
  intros [= <-].
  rewrite (proj1 (block_type_pin_index_to_pin_inst_loop_keeps _ _ _)).
  cbn [sub_tile_index]. rewrite Hst'. intros [= ->] Hidx.
  destruct (first_match_split (fun port => port_contains port i) (ports st))
    as [Hnone | (pre & port & post & Heq & Hpre & Hport)].
  - left.
    rewrite block_type_pin_index_to_pin_inst_loop_unresolved by done.
    by rewrite block_type_pin_index_to_name_loop_unresolved.
  - right. exists port.
    rewrite Heq in Hidx.
    pose proof (ports_indexed_lookup _ _ _ _ Hidx) as Hpos.
    rewrite Z.add_0_l in Hpos.
    assert (Hloop :
              block_type_pin_index_to_pin_inst_loop (ports st) i
                {| sub_tile_index := idx; capacity_instance := q;
                   port_index_of_pin := OPEN; pin_index_in_port := OPEN |}
              = {| sub_tile_index := idx; capacity_instance := q;
                   port_index_of_pin := port_index port;
                   pin_index_in_port := i - absolute_first_pin_index port |}).
    { rewrite Heq.
      by rewrite block_type_pin_index_to_pin_inst_loop_first. }
    rewrite Hloop.
    cbn [port_index_of_pin pin_index_in_port capacity_instance].
    repeat split.
    + rewrite Hpos. unfold OPEN, size. lia.
    + by rewrite Hpos, Heq, vec_get_middle.
    + rewrite Heq.
      by rewrite block_type_pin_index_to_name_loop_first.
Qed.

Lemma block_type_pin_index_to_name_renders_pin_inst_witness :
  (port_index_of_pin
     {| sub_tile_index := 0; capacity_instance := 2;
        port_index_of_pin := 0; pin_index_in_port := 0 |} = OPEN
   /\ block_type_pin_index_to_name CLOCK_TILE 2 = Ret "<UNKOWN>")
  \/ exists port,
      0 <> OPEN
      /\ vec_get (ports BUFG) 0 = Ret port
      /\ block_type_pin_index_to_name CLOCK_TILE 2
         = Ret ((((if 1 <? total (capacity BUFG)
                   then name CLOCK_TILE +:+ "[" +:+ to_string 2 +:+ "]"
                   else name CLOCK_TILE) +:+ ".") +:+ port_name port)
                +:+ "[" +:+ to_string 0 +:+ "]").
Proof.
  apply (block_type_pin_index_to_name_renders_pin_inst CLOCK_TILE BUFG
           {| sub_tile_index := 0; capacity_instance := 2;
              port_index_of_pin := 0; pin_index_in_port := 0 |} 2);
    reflexivity.
Defined.

(** ** [find_pin] *)

Lemma find_pin_ports_none (ps : list t_physical_tile_port) (nm : string)
    (base : Z) :
  Forall (fun port => port_name port <> c_str nm) ps ->
  find_pin_ports ps nm base = Continue (base + port_widths ps).
Proof.
  induction 1 as [|port ps Hp _ IH] in base |- *; simpl.
  - by rewrite Z.add_0_r.
  - rewrite (proj2 (String.eqb_neq _ _) Hp), IH. f_equal. lia.
Qed.

Lemma find_pin_ports_first (pre post : list t_physical_tile_port)
    (port : t_physical_tile_port) (nm : string) (base : Z) :
  c_str nm = port_name port ->
  Forall (fun a => port_name a <> port_name port) pre ->
  find_pin_ports (pre ++ port :: post) nm base
  = Return (port_num_pins port, base + port_widths pre).
Proof.
  intros Hnm.
  induction 1 as [|a pre Ha _ IH] in base |- *; simpl; rewrite Hnm.
  - by rewrite String.eqb_refl, Z.add_0_r.
  - rewrite (proj2 (String.eqb_neq _ _) Ha), IH. do 2 f_equal. lia.
Qed.

Lemma find_pin_sub_tiles_none (sts : list t_sub_tile) (nm : string) (off : Z) :
  Forall (fun st => Forall (fun port => port_name port <> c_str nm) (ports st))
         sts ->
  find_pin_sub_tiles sts nm off = (OPEN, 0, off + root_pins sts).
Proof.
  induction 1 as [|st sts Hst _ IH] in off |- *; simpl.
  - by rewrite Z.add_0_r.
  - rewrite find_pin_ports_none, IH by done. f_equal. lia.
Qed.

Lemma find_pin_sub_tiles_first (spre spost : list t_sub_tile) (st : t_sub_tile)
    (ppre ppost : list t_physical_tile_port) (port : t_physical_tile_port)
    (nm : string) (off : Z) :
  c_str nm = port_name port ->
  Forall (fun st => Forall (fun a => port_name a <> port_name port) (ports st))
         spre ->
  ports st = ppre ++ port :: ppost ->
  Forall (fun a => port_name a <> port_name port) ppre ->
  find_pin_sub_tiles (spre ++ st :: spost) nm off
  = (port_num_pins port, port_widths ppre, off + root_pins spre).
Proof.
  intros Hnm Hspre Hports Hppre.
  induction Hspre as [|s spre Hs _ IH] in off |- *; simpl.
  - by rewrite Hports, (find_pin_ports_first ppre ppost port nm),
      Z.add_0_r by done.
  - rewrite find_pin_ports_none, IH; [f_equal; lia|].
    by rewrite Hnm.
Qed.

(** X6. [find_pin] compares each port name with the C string of the name
    it is given, that is with the characters before the first NUL of the
    [std::string].  When no port of any sub-tile has that C string as its
    name, [find_pin] returns [OPEN] whatever the pin index is (the bound
    on the index is never checked), and so does [find_pin_class]. *)
Theorem find_pin_unknown_port (type : t_physical_tile_type) (nm : string)
    (pin_index_in_port : Z) (pin_type : e_pin_type) :
  Forall (fun st => Forall (fun port => port_name port <> c_str nm) (ports st))
         (sub_tiles type) ->
  find_pin type nm pin_index_in_port = Ret OPEN
  /\ find_pin_class type nm pin_index_in_port pin_type = Ret OPEN.
Proof.
  intros Hnone.
  assert (Hfind : find_pin type nm pin_index_in_port = Ret OPEN).
  { unfold find_pin. by rewrite find_pin_sub_tiles_none. }
  split; [done|]. unfold find_pin_class. by rewrite Hfind.
Qed.

Lemma find_pin_unknown_port_witness :
  find_pin two_sub_tiles ("c" +:+ String Ascii.zero "a") 40 = Ret OPEN
  /\ find_pin_class two_sub_tiles ("c" +:+ String Ascii.zero "a") 40
       DRIVER = Ret OPEN.
Proof.
  apply (find_pin_unknown_port two_sub_tiles
           ("c" +:+ String Ascii.zero "a") 40 DRIVER).
  repeat constructor; discriminate.
Defined.

(** X7. [find_pin] resolves a name to its first port: the first sub-tile
    that has a port of the name, and the first such port in it.  For an
    index below the width of that port the pin is the index plus the
    widths of the ports before it in the sub-tile plus the pin counts of
    the sub-tiles before; for any other index the assertion fails.  Ports
    of the same name further on are never consulted.  The name given is
    any [std::string] whose C string is the name of the port: the name of
    the port itself, or that name followed by a NUL and anything else. *)
Theorem find_pin_first_port (type : t_physical_tile_type)
    (spre spost : list t_sub_tile) (st : t_sub_tile)
    (ppre ppost : list t_physical_tile_port) (port : t_physical_tile_port)
    (nm : string) (pin_index_in_port : Z) :
  c_str nm = port_name port ->
  sub_tiles type = spre ++ st :: spost ->
  Forall (fun st => Forall (fun a => port_name a <> port_name port) (ports st))
         spre ->
  ports st = ppre ++ port :: ppost ->
  Forall (fun a => port_name a <> port_name port) ppre ->
  0 <= port_num_pins port ->
  find_pin type nm pin_index_in_port
  = if pin_index_in_port <? port_num_pins port
    then Ret (port_widths ppre + pin_index_in_port + root_pins spre)
    else AssertFail.
Proof.
  intros Hnm Hsts Hspre Hports Hppre Hw. unfold find_pin.
  rewrite Hsts, (find_pin_sub_tiles_first spre spost st ppre ppost port nm)
    by done.
  destruct (Z.eqb_spec (port_num_pins port) OPEN) as [Ho|_];
    [unfold OPEN in Ho; lia|].
  simpl. by destruct (pin_index_in_port <? port_num_pins port).
Qed.

Lemma find_pin_first_port_witness :
  find_pin two_sub_tiles "a" 0 = Ret 6
  /\ find_pin two_sub_tiles "a" 1 = AssertFail
  /\ find_pin two_sub_tiles ("a" +:+ String Ascii.zero "b") 0 = Ret 6.
Proof.
  split; [|split].
  - apply (find_pin_first_port two_sub_tiles [wide_sub_tile] [] pair_sub_tile
             [] [] (mk_port "a" 0 0 1) "a" 0); try reflexivity.
    + repeat constructor; discriminate.
    + constructor.
    + simpl. lia.
  - apply (find_pin_first_port two_sub_tiles [wide_sub_tile] [] pair_sub_tile
             [] [] (mk_port "a" 0 0 1) "a" 1); try reflexivity.
    + repeat constructor; discriminate.
    + constructor.
    + simpl. lia.
  - apply (find_pin_first_port two_sub_tiles [wide_sub_tile] [] pair_sub_tile
             [] [] (mk_port "a" 0 0 1) ("a" +:+ String Ascii.zero "b") 0);
      try reflexivity.
    + repeat constructor; discriminate.
    + constructor.
    + simpl. lia.
Defined.

Lemma port_widths_nonneg (ps : list t_physical_tile_port) (first : Z) :
  ports_contiguous ps first = true -> 0 <= port_widths ps.
Proof.
  induction ps as [|a ps IH] in first |- *; simpl; [lia|].
  rewrite !andb_true_iff, Z.leb_le. intros [[_ Hw] Hrest].
  pose proof (IH _ Hrest). lia.
Qed.

(** In a contiguous sequence of ports, a port starts where the ports before
    it end, and those ports lie wholly below that point. *)
Lemma ports_contiguous_split (pre post : list t_physical_tile_port)
    (port : t_physical_tile_port) (first : Z) :
  ports_contiguous (pre ++ port :: post) first = true ->
  absolute_first_pin_index port = first + port_widths pre
  /\ 0 <= port_widths pre
  /\ Forall (fun a => forall i, first + port_widths pre <= i ->
                                port_contains a i = false) pre.
Proof.
  induction pre as [|a pre IH] in first |- *; simpl;
    rewrite !andb_true_iff, Z.eqb_eq, Z.leb_le; intros [[Ha Hw] Hrest].
  - repeat split; [lia | lia | constructor].
  - destruct (IH _ Hrest) as (Hfirst & Hpre0 & Hpre).
    repeat split; [lia | lia |].
    constructor.
    + intros i Hi. apply not_true_is_false. rewrite port_contains_spec. lia.
    + eapply Forall_impl; [exact Hpre|]. intros b Hb i Hi. apply Hb. lia.
Qed.

(** X8. Round trip from a port to its pin and back.  On a well-formed tile,
    let [port] be the first port of its name, in a sub-tile that records
    its own position and whose ports lie side by side from pin 0 within
    the pins of one capacity instance.  Then for an index within the port
    [find_pin], given the name of the port or any [std::string] with that
    C string, returns a pin of the tile that
    [block_type_pin_index_to_pin_inst] resolves to that sub-tile, capacity
    instance 0, that port and that index. *)
Theorem find_pin_resolves_back (type : t_physical_tile_type)
    (spre spost : list t_sub_tile) (st : t_sub_tile)
    (ppre ppost : list t_physical_tile_port) (port : t_physical_tile_port)
    (nm : string) (pin_index_in_port : Z) :
  c_str nm = port_name port ->
  wf_tile_pins type = true ->
  sub_tiles type = spre ++ st :: spost ->
  index st = size spre ->
  Forall (fun st => Forall (fun a => port_name a <> port_name port) (ports st))
         spre ->
  ports st = ppre ++ port :: ppost ->
  Forall (fun a => port_name a <> port_name port) ppre ->
  ports_contiguous (ports st) 0 = true ->
  port_widths ppre + port_num_pins port
    <= Z.quot (num_phy_pins st) (total (capacity st)) ->
  0 <= pin_index_in_port < port_num_pins port ->
  exists pin,
    0 <= pin < num_pins type
    /\ find_pin type nm pin_index_in_port = Ret pin
    /\ block_type_pin_index_to_pin_inst type pin
       = Ret {| sub_tile_index := index st; capacity_instance := 0;
                port_index_of_pin := port_index port;
                pin_index_in_port := pin_index_in_port |}.
Proof.
  intros Hnm Hwf Hsts Hidx Hspre Hports Hppre Hcont Hfit Hi.
  destruct (wf_tile_pins_unfold type Hwf) as (Hwfs & _ & Hnum).
  pose proof (wf_sub_tiles_nonneg _ Hwfs) as Hnonneg.
  rewrite Hsts in Hwfs, Hnonneg.
  apply Forall_app in Hnonneg as [Hpre Hpost].
  apply Forall_cons in Hpost as [_ Hpost].
  apply Forall_app in Hwfs as [_ Hst]. apply Forall_cons in Hst as [Hst _].
  destruct (wf_sub_tile_unfold st Hst) as (Ht & Hn & Hdiv).
  pose proof (root_pins_nonneg spre Hpre) as Hpre0.
  pose proof (root_pins_nonneg spost Hpost) as Hpost0.
  rewrite Hports in Hcont.
  destruct (ports_contiguous_split ppre ppost port 0 Hcont)
    as (Hfirst & Hw0 & Hbelow).
  rewrite Z.add_0_l in Hfirst, Hbelow.
  set (k := Z.quot (num_phy_pins st) (total (capacity st))) in *.
  set (local := port_widths ppre + pin_index_in_port).
  exists (local + root_pins spre).
  assert (Hlocal : 0 <= local < k) by (unfold local; lia).
  assert (Hown : root_pins spre <= local + root_pins spre
                 < root_pins spre + num_phy_pins st) by nia.
  split; [|split].
  - rewrite Hnum, Hsts, root_pins_app. simpl. lia.
  - unfold find_pin.
    rewrite Hsts, (find_pin_sub_tiles_first spre spost st ppre ppost port nm)
      by done.
    destruct (Z.eqb_spec (port_num_pins port) OPEN) as [Ho|_];
      [unfold OPEN in Ho; lia|].
    simpl.
    destruct (Z.ltb_spec pin_index_in_port (port_num_pins port)); [|lia].
    done.
  - assert (Hinst : get_pin_index_for_inst type (local + root_pins spre)
                    = Ret (local, 0, index st)).
    { rewrite (get_pin_index_for_inst_owner type spre spost st).
      - fold k.
        replace (local + root_pins spre - root_pins spre) with local by lia.
        by rewrite Z.rem_small, Z.quot_small by lia.
      - done.
      - done.
      - rewrite Hnum, Hsts, root_pins_app. simpl. lia.
      - done.
      - fold k. lia. }
    unfold block_type_pin_index_to_pin_inst. rewrite Hinst. cbn [bind].
    rewrite Hidx, Hsts, vec_get_middle. cbn [bind].
    rewrite Hports, block_type_pin_index_to_pin_inst_loop_first.
    + cbn. do 2 f_equal. unfold local. lia.
    + eapply Forall_impl; [exact Hbelow|]. intros a Ha. apply Ha.
      unfold local. lia.
    + apply port_contains_spec. unfold local. lia.
Qed.

Lemma find_pin_resolves_back_witness :
  exists pin,
    0 <= pin < num_pins two_sub_tiles
    /\ find_pin two_sub_tiles "a" 0 = Ret pin
    /\ block_type_pin_index_to_pin_inst two_sub_tiles pin
       = Ret {| sub_tile_index := 1; capacity_instance := 0;
                port_index_of_pin := 0; pin_index_in_port := 0 |}.
Proof.
  apply (find_pin_resolves_back two_sub_tiles [wide_sub_tile] [] pair_sub_tile
           [] [] (mk_port "a" 0 0 1) "a" 0); try reflexivity.
  - repeat constructor; discriminate.
  - constructor.
  - vm_compute. discriminate.
  - simpl. lia.
Defined.

Lemma e_pin_type_eqb_eq (a b : e_pin_type) :
  e_pin_type_eqb a b = true -> a = b.
Proof. by destruct a, b. Qed.

(** X9. [find_pin_class] never returns a class of the other pin type: a
    value it returns is [OPEN] or the index of an entry of [class_inf]
    whose type is the requested one. *)
Theorem find_pin_class_has_type (type : t_physical_tile_type) (nm : string)
    (pin_index_in_port iclass : Z) (pin_type : e_pin_type) :
  find_pin_class type nm pin_index_in_port pin_type = Ret iclass ->
  iclass = OPEN
  \/ exists cls,
      vec_get (class_inf type) iclass = Ret cls /\ class_type cls = pin_type.
Proof.
  unfold find_pin_class.
  destruct (find_pin type nm pin_index_in_port) as [ipin| | | |];
    cbn [bind]; try done.
  destruct (Z.eqb_spec ipin OPEN); cbn [negb]; [intros [= <-]; by left|].
  destruct (vec_get (pin_class type) ipin) as [c| | | |]; cbn [bind];
    try done.
  destruct (Z.eqb_spec c OPEN); cbn [negb]; [intros [= <-]; by left|].
  destruct (vec_get (class_inf type) c) as [cls| | | |] eqn:Hcls;
    cbn [bind]; try done.
  destruct (e_pin_type_eqb (class_type cls) pin_type) eqn:Ht;
    cbn [VTR_ASSERT bind]; [|done].
  intros [= <-]. right. exists cls. split; [done|].
  by apply e_pin_type_eqb_eq.
Qed.

Lemma find_pin_class_has_type_witness :
  1 = OPEN
  \/ exists cls,
      vec_get (class_inf two_sub_tiles) 1 = Ret cls
      /\ class_type cls = DRIVER.
Proof.
  apply (find_pin_class_has_type two_sub_tiles "a" 0 1 DRIVER). reflexivity.
Defined.

(** ** Which sub-tile hosts a logical block *)

(** The two-argument loop ends on the sentinel it started from, or on the
    index of a sub-tile that lists the block. *)
Lemma sub_tile_index_loop_listed (sts : list t_sub_tile)
    (blk : t_logical_block_type_ptr) (acc : Z) :
  Exists (fun s => is_equivalent_site s blk = true) sts ->
  exists st,
    st ∈ sts /\ is_equivalent_site st blk = true
    /\ get_logical_block_physical_sub_tile_index_loop sts blk acc = index st.
Proof.
  intros Hex. induction sts as [|s sts IH] in acc, Hex |- *;
    [by apply Exists_nil in Hex|].
  simpl. destruct (decide (Exists (fun s => is_equivalent_site s blk = true)
                                  sts)) as [Hrest | Hnone].
  - destruct (IH (if is_equivalent_site s blk then index s else acc) Hrest)
      as (st & Hin & Hl & Heq).
    exists st. split; [by right | done].
  - apply Exists_cons in Hex as [Hs | Hrest]; [|done].
    exists s. split; [by left|]. split; [done|].
    rewrite Hs. apply sub_tile_index_loop_none.
    apply Forall_forall. intros x Hx.
    apply not_true_is_false. intros Hl. apply Hnone.
    apply Exists_exists. eauto.
Qed.

Lemma sub_tile_index_at_loop_none (sts : list t_sub_tile)
    (blk : t_logical_block_type_ptr) (cap acc : Z) :
  Forall (fun s => (is_equivalent_site s blk
                    && is_in_range (capacity s) cap) = false) sts ->
  get_logical_block_physical_sub_tile_index_at_loop sts blk cap acc = acc.
Proof. induction 1 as [|s sts Hs _ IH]; simpl; [done | by rewrite Hs]. Qed.

(** X10. [get_logical_block_physical_sub_tile_index] with two arguments,
    on a tile whose sub-tile indices are not negative, fails exactly when
    no sub-tile lists the block, with the error that names the block and
    the tile, and then [get_physical_pin] fails with the same error;
    otherwise it returns the index of a sub-tile that lists the block. *)
Theorem sub_tile_index_of_block_or_error
    (lb : t_logical_block_type_ptr -> t_logical_block_type)
    (tile : t_physical_tile_type) (blk : t_logical_block_type_ptr) :
  Forall (fun s => 0 <= index s) (sub_tiles tile) ->
  (Forall (fun s => is_equivalent_site s blk = false) (sub_tiles tile)
   /\ get_logical_block_physical_sub_tile_index lb tile blk
      = Throw (NoInstanceOfLogicalBlock (lb_name (lb blk)) (name tile))
   /\ forall pin,
       get_physical_pin lb tile blk pin
       = Throw (NoInstanceOfLogicalBlock (lb_name (lb blk)) (name tile)))
  \/ exists st,
      st ∈ sub_tiles tile /\ is_equivalent_site st blk = true
      /\ get_logical_block_physical_sub_tile_index lb tile blk
         = Ret (index st).
Proof.
  intros Hidx.
  destruct (decide (Exists (fun s => is_equivalent_site s blk = true)
                           (sub_tiles tile))) as [Hex | Hnone].
  - right.
    destruct (sub_tile_index_loop_listed _ blk OPEN Hex)
      as (st & Hin & Hl & Heq).
    exists st. repeat split; try done.
    unfold get_logical_block_physical_sub_tile_index. rewrite Heq.
    rewrite Forall_forall in Hidx. pose proof (Hidx st Hin).
    destruct (Z.eqb_spec (index st) OPEN) as [Ho|_]; [|done].
    unfold OPEN in Ho. lia.
  - left.
    assert (Hall : Forall (fun s => is_equivalent_site s blk = false)
                          (sub_tiles tile)).
    { apply Forall_forall. intros x Hx.
      apply not_true_is_false. intros Hl. apply Hnone.
      apply Exists_exists. eauto. }
    assert (Htwo : get_logical_block_physical_sub_tile_index lb tile blk
                   = Throw (NoInstanceOfLogicalBlock (lb_name (lb blk))
                                                     (name tile))).
    { unfold get_logical_block_physical_sub_tile_index.
      by rewrite sub_tile_index_loop_none. }
    repeat split; try done.
    intros pin. unfold get_physical_pin. by rewrite Htwo.
Qed.

Lemma sub_tile_index_of_block_or_error_witness :
  (Forall (fun s => is_equivalent_site s 1%nat = false)
          (sub_tiles two_sub_tiles)
   /\ get_logical_block_physical_sub_tile_index example_blocks two_sub_tiles
        1%nat
      = Throw (NoInstanceOfLogicalBlock (lb_name (example_blocks 1%nat))
                                        (name two_sub_tiles))
   /\ forall pin,
       get_physical_pin example_blocks two_sub_tiles 1%nat pin
       = Throw (NoInstanceOfLogicalBlock (lb_name (example_blocks 1%nat))
                                         (name two_sub_tiles)))
  \/ exists st,
      st ∈ sub_tiles two_sub_tiles /\ is_equivalent_site st 1%nat = true
      /\ get_logical_block_physical_sub_tile_index example_blocks
           two_sub_tiles 1%nat = Ret (index st).
Proof.
  apply (sub_tile_index_of_block_or_error example_blocks two_sub_tiles 1%nat).
  repeat constructor; simpl; lia.
Defined.

Lemma is_sub_tile_compatible_loop_false (sts : list t_sub_tile)
    (blk : t_logical_block_type_ptr) (cap : Z) :
  is_sub_tile_compatible_loop sts blk cap = false ->
  Forall (fun s => (is_equivalent_site s blk
                    && is_in_range (capacity s) cap) = false) sts.
Proof.
  induction sts as [|s sts IH]; simpl; [constructor|].
  rewrite (andb_comm (is_in_range _ _)).
  destruct (is_equivalent_site s blk && is_in_range (capacity s) cap) eqn:Hs;
    [done|].
  intros Hrest. constructor; auto.
Qed.

Lemma is_sub_tile_compatible_loop_true (sts : list t_sub_tile)
    (blk : t_logical_block_type_ptr) (cap : Z) :
  is_sub_tile_compatible_loop sts blk cap = true ->
  exists pre st post,
    sts = pre ++ st :: post
    /\ Forall (fun s => (is_equivalent_site s blk
                         && is_in_range (capacity s) cap) = false) pre
    /\ (is_equivalent_site st blk && is_in_range (capacity st) cap) = true.
Proof.
  induction sts as [|s sts IH]; simpl; [done|].
  rewrite (andb_comm (is_in_range _ _)).
  destruct (is_equivalent_site s blk && is_in_range (capacity s) cap) eqn:Hs.
  - intros _. exists [], s, sts. repeat split; [constructor | done].
  - intros Hrest. destruct (IH Hrest) as (pre & st & post & -> & Hpre & Hst).
    exists (s :: pre), st, post. repeat split; [by constructor | done].
Qed.

(** X11. [is_sub_tile_compatible] decides whether the capacity-qualified
    [get_logical_block_physical_sub_tile_index] succeeds.  On a tile whose
    sub-tile indices are not negative: if the block is compatible with the
    slot, the block is compatible with the tile and the lookup returns the
    index of a sub-tile that lists the block and whose range holds the
    slot; and if no sub-tile is capacity-compatible, the lookup and
    [get_physical_pin_at_sub_tile_location] fail with the error naming
    block and tile. *)
Theorem is_sub_tile_compatible_decides_lookup
    (lb : t_logical_block_type_ptr -> t_logical_block_type)
    (pt : t_physical_tile_type_ptr -> t_physical_tile_type)
    (equivalent_tiles :
       t_logical_block_type_ptr -> list t_physical_tile_type_ptr)
    (tile : t_physical_tile_type_ptr) (blk : t_logical_block_type_ptr)
    (cap : Z) :
  Forall (fun s => 0 <= index s) (sub_tiles (pt tile)) ->
  (is_sub_tile_compatible pt equivalent_tiles tile blk cap = true ->
   is_tile_compatible equivalent_tiles tile blk = true
   /\ exists st,
       st ∈ sub_tiles (pt tile)
       /\ is_equivalent_site st blk = true
       /\ is_in_range (capacity st) cap = true
       /\ get_logical_block_physical_sub_tile_index_at lb (pt tile) blk cap
          = Ret (index st))
  /\ (is_sub_tile_compatible_loop (sub_tiles (pt tile)) blk cap = false ->
      get_logical_block_physical_sub_tile_index_at lb (pt tile) blk cap
      = Throw (NoInstanceOfLogicalBlock (lb_name (lb blk)) (name (pt tile)))
      /\ forall pin,
          get_physical_pin_at_sub_tile_location lb (pt tile) blk cap pin
          = Throw (NoInstanceOfLogicalBlock (lb_name (lb blk))
                                            (name (pt tile)))).
Proof.
  intros Hidx. split.
  - unfold is_sub_tile_compatible. rewrite andb_true_iff.
    intros [Hcap Htile]. split; [done|].
    destruct (is_sub_tile_compatible_loop_true _ _ _ Hcap)
      as (pre & st & post & Heq & Hpre & Hst).
    pose proof Hst as Hboth. apply andb_true_iff in Hboth as [Hl Hr].
    exists st. repeat split; try done.
    { rewrite Heq. apply elem_of_app. right. by left. }
    unfold get_logical_block_physical_sub_tile_index_at.
    rewrite Heq, (sub_tile_index_at_loop_first pre post st) by done.
    rewrite Heq in Hidx. apply Forall_app in Hidx as [_ Hi].
    apply Forall_cons in Hi as [Hi _].
    destruct (Z.eqb_spec (index st) OPEN) as [Ho|_]; [|done].
    unfold OPEN in Ho. lia.
  - intros Hcap. apply is_sub_tile_compatible_loop_false in Hcap.
    assert (Hat : get_logical_block_physical_sub_tile_index_at lb (pt tile)
                    blk cap
                  = Throw (NoInstanceOfLogicalBlock (lb_name (lb blk))
                                                    (name (pt tile)))).
    { unfold get_logical_block_physical_sub_tile_index_at.
      by rewrite sub_tile_index_at_loop_none. }
    split; [done|]. intros pin.
    unfold get_physical_pin_at_sub_tile_location. by rewrite Hat.
Qed.

Lemma is_sub_tile_compatible_decides_lookup_witness :
  is_tile_compatible example_equivalent_tiles 0%nat 0%nat = true
  /\ exists st,
      st ∈ sub_tiles (example_tiles 0%nat)
      /\ is_equivalent_site st 0%nat = true
      /\ is_in_range (capacity st) 2 = true
      /\ get_logical_block_physical_sub_tile_index_at example_blocks
           (example_tiles 0%nat) 0%nat 2 = Ret (index st).
Proof.
  destruct (is_sub_tile_compatible_decides_lookup example_blocks example_tiles
              example_equivalent_tiles 0%nat 0%nat 2) as [Hyes _].
  - repeat constructor; simpl; lia.
  - apply Hyes. reflexivity.
Defined.

Lemma max_num_pins_fold (f : nat -> Z) (l : list nat) (init : Z) :
  init <= fold_left (fun m t => Z.max m (f t)) l init
  /\ forall t, t ∈ l -> f t <= fold_left (fun m t => Z.max m (f t)) l init.
Proof.
  induction l as [|a l IH] in init |- *; simpl.
  - split; [lia|]. intros t Ht. by apply elem_of_nil in Ht.
  - destruct (IH (Z.max init (f a))) as [Hinit Hall]. split; [lia|].
    intros t Ht. apply elem_of_cons in Ht as [-> | Ht]; [lia | by apply Hall].
Qed.

(** X12. [get_max_num_pins] bounds the pin count of every tile the block
    fits: if [is_tile_compatible] holds for a tile and the block, the tile
    has at most [get_max_num_pins] pins; the result is never negative. *)
Theorem get_max_num_pins_bounds_compatible_tiles
    (pt : t_physical_tile_type_ptr -> t_physical_tile_type)
    (equivalent_tiles :
       t_logical_block_type_ptr -> list t_physical_tile_type_ptr)
    (tile : t_physical_tile_type_ptr) (blk : t_logical_block_type_ptr) :
  is_tile_compatible equivalent_tiles tile blk = true ->
  0 <= get_max_num_pins pt equivalent_tiles blk
  /\ num_pins (pt tile) <= get_max_num_pins pt equivalent_tiles blk.
Proof.
  unfold is_tile_compatible, get_max_num_pins. intros Hin.
  apply bool_decide_eq_true_1 in Hin.
  destruct (max_num_pins_fold (fun t => num_pins (pt t))
                              (equivalent_tiles blk) 0) as [H0 Hall].
  split; [done | by apply Hall].
Qed.

Lemma get_max_num_pins_bounds_compatible_tiles_witness :
  0 <= get_max_num_pins example_tiles example_equivalent_tiles 0%nat
  /\ num_pins (example_tiles 1%nat)
     <= get_max_num_pins example_tiles example_equivalent_tiles 0%nat.
Proof.
  apply (get_max_num_pins_bounds_compatible_tiles example_tiles
           example_equivalent_tiles 1%nat 0%nat).
  reflexivity.
Defined.

Lemma vec_get_0_head {A : Type} (v : list A) (a : A) :
  vec_get v 0 = Ret a -> exists tl, v = a :: tl.
Proof.
  unfold vec_get. simpl. destruct v as [|x tl]; simpl; [done|].
  intros [= ->]. eauto.
Qed.

(** X13. The block that [pick_logical_type] picks for a tile is hosted by
    the tile: on a tile whose sub-tile indices are not negative, the
    two-argument [get_logical_block_physical_sub_tile_index] succeeds on
    it, with the index of a sub-tile that lists it. *)
Theorem pick_logical_type_is_hosted
    (lb : t_logical_block_type_ptr -> t_logical_block_type)
    (tile : t_physical_tile_type) (blk : t_logical_block_type_ptr) :
  pick_logical_type tile = Ret blk ->
  Forall (fun s => 0 <= index s) (sub_tiles tile) ->
  exists st,
    st ∈ sub_tiles tile /\ is_equivalent_site st blk = true
    /\ get_logical_block_physical_sub_tile_index lb tile blk = Ret (index st).
Proof.
  unfold pick_logical_type. intros Hpick Hidx.
  destruct (vec_get (sub_tiles tile) 0) as [s0| | | |] eqn:Hs0;
    cbn [bind] in Hpick; try done.
  apply vec_get_0_head in Hs0 as [sts Hsts].
  apply vec_get_0_head in Hpick as [sites Hsites].
  assert (Hex : Exists (fun s => is_equivalent_site s blk = true)
                       (sub_tiles tile)).
  { rewrite Hsts. apply Exists_cons_hd. unfold is_equivalent_site.
    apply bool_decide_eq_true_2. rewrite Hsites. by left. }
  destruct (sub_tile_index_loop_listed _ blk OPEN Hex)
    as (st & Hin & Hl & Heq).
  exists st. repeat split; try done.
  unfold get_logical_block_physical_sub_tile_index. rewrite Heq.
  rewrite Forall_forall in Hidx. pose proof (Hidx st Hin).
  destruct (Z.eqb_spec (index st) OPEN) as [Ho|_]; [|done].
  unfold OPEN in Ho. lia.
Qed.

Lemma pick_logical_type_is_hosted_witness :
  exists st,
    st ∈ sub_tiles two_sub_tiles /\ is_equivalent_site st 0%nat = true
    /\ get_logical_block_physical_sub_tile_index example_blocks two_sub_tiles
         0%nat = Ret (index st).
Proof.
  apply (pick_logical_type_is_hosted example_blocks two_sub_tiles 0%nat).
  - reflexivity.
  - repeat constructor; simpl; lia.
Defined.

(** ** Root pins of a placed block: three ways to the same pin *)

Lemma vec_get_seqZ (off n j : Z) :
  0 <= j < n -> vec_get (seqZ off n) j = Ret (off + j).
Proof.
  intros Hj. unfold vec_get.
  destruct (Z.ltb_spec j 0); [lia|].
  rewrite lookup_seqZ_lt by lia. rewrite Z2Nat.id by lia. done.
Qed.

(** X14. On a well-formed tile, take a sub-tile that records its own
    position, lists the block, holds the capacity slot and whose
    [sub_tile_to_tile_pin_indices] numbers its pins consecutively from its
    pin offset.  If the direct pin map sends the logical pin to a pin [d]
    of one instance, then [get_physical_pin_at_sub_tile_location],
    [get_root_pb_pin_physical_num] (given the sub-tile and the relative
    capacity) and [get_physical_pin_from_capacity_location] (given [d]) all
    return the same tile pin: the pin offset of the sub-tile plus the
    relative capacity times the pins per instance plus [d]. *)
Theorem root_pin_of_placed_block_agrees
    (lb : t_logical_block_type_ptr -> t_logical_block_type)
    (tile : t_physical_tile_type) (pre post : list t_sub_tile)
    (st : t_sub_tile) (blk : t_logical_block_type_ptr) (cap pin d : Z) :
  wf_tile_pins tile = true ->
  sub_tiles tile = pre ++ st :: post ->
  index st = size pre ->
  is_equivalent_site st blk = true ->
  is_in_range (capacity st) cap = true ->
  sub_tile_to_tile_pin_indices st = seqZ (root_pins pre) (num_phy_pins st) ->
  get_sub_tile_physical_pin lb (index st) tile blk pin = Ret d ->
  0 <= d < Z.quot (num_phy_pins st) (total (capacity st)) ->
  let tile_pin :=
    root_pins pre
    + Z.quot (num_phy_pins st) (total (capacity st))
      * (cap - low (capacity st))
    + d in
  get_physical_pin_at_sub_tile_location lb tile blk cap pin = Ret tile_pin
  /\ get_root_pb_pin_physical_num lb tile (length pre) blk
       (cap - low (capacity st)) pin = Ret tile_pin
  /\ get_physical_pin_from_capacity_location tile d cap = Ret tile_pin.
Proof.
  intros Hwf Heq Hidx Hl Hin Htable Hd Hdk tile_pin.
  destruct (wf_tile_pins_unfold tile Hwf) as (Hsts & Hdisj & Hnum).
  rewrite Heq in Hsts, Hdisj.
  apply Forall_app in Hsts as [Hwfpre Hst].
  apply Forall_cons in Hst as [Hst _].
  destruct (wf_sub_tile_unfold st Hst) as (Ht & Hn & Hdiv).
  pose proof (capacities_disjoint_before pre post st cap Hdisj Hin) as Hout.
  pose proof (proj1 (is_in_range_spec _ _) Hin) as Hcap.
  set (k := Z.quot (num_phy_pins st) (total (capacity st))) in *.
  assert (Hk : k <> 0) by lia.
  assert (Hrel : 0 <= cap - low (capacity st) < total (capacity st)).
  { unfold total. lia. }
  assert (Hopen : (index st =? OPEN) = false).
  { apply Z.eqb_neq. rewrite Hidx. unfold OPEN, size. lia. }
  assert (Hat : get_logical_block_physical_sub_tile_index_at lb tile blk cap
                = Ret (index st)).
  { unfold get_logical_block_physical_sub_tile_index_at.
    rewrite Heq, (sub_tile_index_at_loop_first pre post st).
    - by rewrite Hopen.
    - eapply Forall_impl; [exact Hout|]. intros s Hs.
      by rewrite Hs, andb_false_r.
    - by rewrite Hl, Hin. }
  assert (Hvec : vec_get (sub_tiles tile) (index st) = Ret st).
  { by rewrite Hidx, Heq, vec_get_middle. }
  assert (Ht0 : total (capacity st) <> 0) by lia.
  split; [|split].
  - unfold get_physical_pin_at_sub_tile_location.
    rewrite Hat. cbn [bind]. rewrite Hopen, Hd. cbn [bind].
    rewrite Hvec. cbn [bind].
    rewrite (int_div_nonzero _ _ Ht0). cbn [bind]. fold k.
    rewrite Htable, vec_get_seqZ by nia. cbn [bind].
    f_equal. unfold tile_pin. fold k. lia.
  - unfold get_root_pb_pin_physical_num, deref_sub_tile.
    rewrite Heq at 1. rewrite list_lookup_middle by done. cbn [bind].
    rewrite Hvec. cbn [bind].
    rewrite (int_div_nonzero _ _ Ht0). cbn [bind]. fold k.
    rewrite Hd. cbn [bind].
    rewrite Htable, vec_get_seqZ by (fold k; nia).
    f_equal. unfold tile_pin. fold k. lia.
  - rewrite (get_physical_pin_owner tile pre post st); try done; try lia.
    by apply sub_tiles_before_skippable.
Qed.

Lemma root_pin_of_placed_block_agrees_witness :
  get_physical_pin_at_sub_tile_location example_blocks two_sub_tiles 0%nat 2 0
  = Ret 9
  /\ get_root_pb_pin_physical_num example_blocks two_sub_tiles 1%nat 0%nat
       (2 - 1) 0 = Ret 9
  /\ get_physical_pin_from_capacity_location two_sub_tiles 1 2 = Ret 9.
Proof.
  apply (root_pin_of_placed_block_agrees example_blocks two_sub_tiles
           [wide_sub_tile] [] pair_sub_tile 0%nat 2 0 1); try reflexivity.
  vm_compute. split; [discriminate | reflexivity].
Defined.

(** ** When [get_sub_tile_from_pin_physical_num] finds the owner *)

Lemma sub_tile_from_pin_root_skip (lb : nat -> t_logical_block_type)
    (pre rest : list t_sub_tile) (pos : nat) (p seen : Z)
    (target : option nat) :
  Forall (fun st => 0 <= num_phy_pins st) pre ->
  seen + root_pins pre <= p ->
  get_sub_tile_from_pin_physical_num_root (pre ++ rest) pos p seen target
  = get_sub_tile_from_pin_physical_num_root rest (pos + length pre)%nat p
      (seen + root_pins pre) target.
Proof.
  induction 1 as [|st pre Hst Hpre IH] in pos, seen |- *; simpl; intros Hp.
  - by rewrite Nat.add_0_r, Z.add_0_r.
  - pose proof (root_pins_nonneg pre Hpre).
    destruct (Z.ltb_spec p (seen + num_phy_pins st)); [lia|].
    rewrite IH by lia. f_equal; lia.
Qed.

Lemma sub_tile_from_pin_root_keep (post : list t_sub_tile) (pos : nat)
    (p seen : Z) (target : option nat) :
  Forall (fun st => 0 <= num_phy_pins st) post ->
  seen + root_pins post <= p ->
  get_sub_tile_from_pin_physical_num_root post pos p seen target = target.
Proof.
  induction 1 as [|st post Hst Hpost IH] in pos, seen |- *; simpl; [done|].
  intros Hp. pose proof (root_pins_nonneg post Hpost).
  destruct (Z.ltb_spec p (seen + num_phy_pins st)); [lia|].
  apply IH. lia.
Qed.

(** X15. [get_sub_tile_from_pin_physical_num] returns the owner of a
    root-level pin whenever the sub-tiles after the owner have, together,
    no more pins than the offset of the pin within its owner; in
    particular for every pin of the last sub-tile, and on every tile with
    a single sub-tile. *)
Theorem get_sub_tile_from_pin_physical_num_owner
    (lb : t_logical_block_type_ptr -> t_logical_block_type)
    (tile : t_physical_tile_type) (pre post : list t_sub_tile)
    (st : t_sub_tile) (p : Z) :
  sub_tiles tile = pre ++ st :: post ->
  Forall (fun s => 0 <= num_phy_pins s) (sub_tiles tile) ->
  p < num_pins tile ->
  root_pins pre <= p < root_pins pre + num_phy_pins st ->
  root_pins post <= p - root_pins pre ->
  get_sub_tile_from_pin_physical_num lb tile p = Ret (length pre).
Proof.
  intros Heq Hnonneg Hlt Hown Hpost.
  rewrite Heq in Hnonneg. apply Forall_app in Hnonneg as [Hpre Hrest].
  apply Forall_cons in Hrest as [_ Hrest].
  unfold get_sub_tile_from_pin_physical_num.
  rewrite (proj2 (Z.ltb_lt _ _) Hlt), Heq.
  rewrite sub_tile_from_pin_root_skip by (done || lia).
  cbn [get_sub_tile_from_pin_physical_num_root].
  destruct (Z.ltb_spec p (0 + root_pins pre + num_phy_pins st)); [|lia].
  rewrite sub_tile_from_pin_root_keep; [done | done | lia].
Qed.

Lemma get_sub_tile_from_pin_physical_num_owner_witness :
  get_sub_tile_from_pin_physical_num example_blocks two_sub_tiles 5
  = Ret 0%nat.
Proof.
  apply (get_sub_tile_from_pin_physical_num_owner example_blocks two_sub_tiles
           [] [pair_sub_tile] wide_sub_tile 5);
    [reflexivity | | simpl; lia | simpl; lia | simpl; lia].
  repeat constructor; simpl; lia.
Defined.

(** ** The offset of the pins inside a block *)

Section FlatOffsets.

Variable lb : t_logical_block_type_ptr -> t_logical_block_type.

Lemma sum_pb_pins_app (l1 l2 : list t_logical_block_type_ptr) :
  sum_pb_pins lb (l1 ++ l2) = sum_pb_pins lb l1 + sum_pb_pins lb l2.
Proof. induction l1 as [|b l1 IH]; simpl; lia. Qed.

Lemma sum_pb_pins_nonneg (l : list t_logical_block_type_ptr) :
  Forall (fun e => 0 <= pb_num_pins (pb_type (lb e))) l ->
  0 <= sum_pb_pins lb l.
Proof. induction 1; simpl; lia. Qed.

Lemma pb_pins_of_sub_tiles_app (l1 l2 : list t_sub_tile) :
  pb_pins_of_sub_tiles lb (l1 ++ l2)
  = pb_pins_of_sub_tiles lb l1 + pb_pins_of_sub_tiles lb l2.
Proof. induction l1 as [|st l1 IH]; simpl; lia. Qed.

Lemma get_total_num_tile_pins_sum (tile : t_physical_tile_type) :
  get_total_num_tile_pins lb tile = pb_pins_of_sub_tiles lb (sub_tiles tile).
Proof.
  unfold get_total_num_tile_pins.
  assert (Hin : forall t sites acc,
             fold_left (fun num_pins eq_site =>
                          num_pins + pb_num_pins (pb_type (lb eq_site)) * t)
                       sites acc
             = acc + t * sum_pb_pins lb sites).
  { intros t sites. induction sites as [|b l IH]; intros acc; simpl; [lia|].
    rewrite IH. lia. }
  assert (Hout : forall sts acc,
             fold_left (fun num_pins sub_tile =>
                          fold_left (fun num_pins eq_site =>
                                       num_pins
                                       + pb_num_pins (pb_type (lb eq_site))
                                         * total (capacity sub_tile))
                                    (equivalent_sites sub_tile) num_pins)
                       sts acc
             = acc + pb_pins_of_sub_tiles lb sts).
  { induction sts as [|st sts IH]; intros acc; simpl; [lia|].
    rewrite IH, Hin. lia. }
  rewrite Hout. lia.
Qed.

Lemma offset_sites_continue (sites : list t_logical_block_type_ptr)
    (is_curr : bool) (c rc offset : Z) (blk : t_logical_block_type_ptr) :
  is_curr = false \/ c <> rc ->
  get_sub_block_pin_num_offset_sites lb sites is_curr c blk rc offset
  = Continue (offset + sum_pb_pins lb sites).
Proof.
  intros Hno. induction sites as [|b l IH] in offset |- *; simpl.
  - by rewrite Z.add_0_r.
  - replace (is_curr && (c =? rc) && bool_decide (b = blk)) with false.
    + rewrite IH. f_equal. lia.
    + symmetry. destruct Hno as [-> | Hne]; [done|].
      rewrite (proj2 (Z.eqb_neq c rc) Hne). by rewrite andb_false_r.
Qed.

Lemma offset_sites_return (spre spost : list t_logical_block_type_ptr)
    (b : t_logical_block_type_ptr) (c offset : Z) :
  b ∉ spre ->
  get_sub_block_pin_num_offset_sites lb (spre ++ b :: spost) true c b c offset
  = Return (offset + sum_pb_pins lb spre).
Proof.
  intros Hnotin. induction spre as [|a l IH] in offset, Hnotin |- *; simpl.
  - rewrite bool_decide_eq_true_2, Z.eqb_refl by done. simpl.
    f_equal. lia.
  - apply not_elem_of_cons in Hnotin as [Hne Hnotin].
    rewrite bool_decide_eq_false_2 by congruence.
    rewrite andb_false_r, IH by done. f_equal. lia.
Qed.

Lemma offset_caps_continue (caps : list Z) (st : t_sub_tile) (is_curr : bool)
    (blk : t_logical_block_type_ptr) (rc offset : Z) :
  is_curr = false \/ rc ∉ caps ->
  get_sub_block_pin_num_offset_caps lb caps st is_curr blk rc offset
  = Continue (offset + Z.of_nat (length caps)
                       * sum_pb_pins lb (equivalent_sites st)).
Proof.
  intros Hno. induction caps as [|c caps IH] in offset, Hno |- *.
  - simpl. f_equal. lia.
  - cbn [get_sub_block_pin_num_offset_caps length].
    rewrite offset_sites_continue.
    + rewrite IH.
      * f_equal. lia.
      * destruct Hno as [? | Hno]; [by left | right].
        by apply not_elem_of_cons in Hno as [_ ?].
    + destruct Hno as [? | Hno]; [by left | right].
      apply not_elem_of_cons in Hno as [? _]. congruence.
Qed.

Lemma offset_caps_return (c1 c2 : list Z) (st : t_sub_tile)
    (spre spost : list t_logical_block_type_ptr)
    (b : t_logical_block_type_ptr) (rc offset : Z) :
  rc ∉ c1 ->
  equivalent_sites st = spre ++ b :: spost -> b ∉ spre ->
  get_sub_block_pin_num_offset_caps lb (c1 ++ rc :: c2) st true b rc offset
  = Return (offset + Z.of_nat (length c1)
                     * sum_pb_pins lb (equivalent_sites st)
            + sum_pb_pins lb spre).
Proof.
  intros Hrc Hsites Hb. induction c1 as [|c c1 IH] in offset, Hrc |- *.
  - cbn [app get_sub_block_pin_num_offset_caps length].
    rewrite Hsites at 1. rewrite offset_sites_return by done. f_equal. lia.
  - apply not_elem_of_cons in Hrc as [Hne Hrc].
    cbn [app get_sub_block_pin_num_offset_caps length].
    rewrite offset_sites_continue by (right; congruence).
    rewrite IH by done. f_equal. lia.
Qed.

Lemma offset_loop_skip (pre rest : list t_sub_tile) (pos target : nat)
    (blk : t_logical_block_type_ptr) (rc offset : Z) :
  Forall (fun st => 0 <= total (capacity st)) pre ->
  (pos + length pre <= target)%nat ->
  get_sub_block_pin_num_offset_loop lb (pre ++ rest) pos target blk rc offset
  = get_sub_block_pin_num_offset_loop lb rest (pos + length pre)%nat target
      blk rc (offset + pb_pins_of_sub_tiles lb pre).
Proof.
  induction 1 as [|st pre Hst _ IH] in pos, offset |- *; intros Hpos.
  - simpl. by rewrite Nat.add_0_r, Z.add_0_r.
  - simpl in Hpos.
    cbn [app get_sub_block_pin_num_offset_loop].
    rewrite offset_caps_continue.
    + rewrite IH by (simpl; lia). rewrite length_seqZ. simpl.
      rewrite Z2Nat.id by done. f_equal; lia.
    + left. apply Nat.eqb_neq. lia.
Qed.

(** The offset of a unit in closed form. *)
Lemma offset_of_unit (tile : t_physical_tile_type)
    (pre post : list t_sub_tile) (st : t_sub_tile)
    (spre spost : list t_logical_block_type_ptr)
    (b : t_logical_block_type_ptr) (rc : Z) :
  sub_tiles tile = pre ++ st :: post ->
  Forall (fun st => 0 <= total (capacity st)) pre ->
  equivalent_sites st = spre ++ b :: spost -> b ∉ spre ->
  0 <= rc < total (capacity st) ->
  get_sub_block_pin_num_offset lb tile (length pre) b rc
  = num_pins tile + pb_pins_of_sub_tiles lb pre
    + rc * sum_pb_pins lb (equivalent_sites st) + sum_pb_pins lb spre.
Proof.
  intros Heq Hpre Hsites Hb Hrc.
  unfold get_sub_block_pin_num_offset.
  rewrite Heq, offset_loop_skip by (done || simpl; lia).
  cbn [get_sub_block_pin_num_offset_loop].
  rewrite Nat.add_0_l, Nat.eqb_refl.
  rewrite (seqZ_split _ rc Hrc).
  rewrite (offset_caps_return _ _ st spre spost b); try done.
  - rewrite length_seqZ, Z2Nat.id by lia. lia.
  - rewrite elem_of_seqZ. lia.
Qed.

Lemma wf_tile_flat_unfold (tile : t_physical_tile_type) :
  wf_tile_flat lb tile = true ->
  Forall (fun st =>
            0 <= total (capacity st)
            /\ Forall (fun e => 0 <= pb_num_pins (pb_type (lb e)))
                      (equivalent_sites st)) (sub_tiles tile).
Proof.
  unfold wf_tile_flat. intros Hwf. apply forallb_Forall in Hwf.
  eapply Forall_impl; [exact Hwf|]. intros st. simpl.
  rewrite andb_true_iff, Z.leb_le. intros [Ht Hs]. split; [done|].
  apply forallb_Forall in Hs.
  eapply Forall_impl; [exact Hs|]. intros e. simpl. apply Z.leb_le.
Qed.

Lemma pb_pins_of_sub_tiles_nonneg (sts : list t_sub_tile) :
  Forall (fun st =>
            0 <= total (capacity st)
            /\ Forall (fun e => 0 <= pb_num_pins (pb_type (lb e)))
                      (equivalent_sites st)) sts ->
  0 <= pb_pins_of_sub_tiles lb sts.
Proof.
  induction 1 as [|st sts [Ht Hs] _ IH]; simpl; [lia|].
  pose proof (sum_pb_pins_nonneg _ Hs). nia.
Qed.

(** X16. The block offset that [get_sub_block_pin_num_offset] gives a unit
    (a sub-tile of the tile, a capacity instance of it, a block it lists)
    is the root pin count of the tile plus the root [pb_type] pin counts of
    all units before it in the order sub-tile, capacity instance,
    equivalent site.  On a tile without negative sizes it is at least
    [num_pins], so the numbers built on it never fall among the root-level
    pins, and the offset plus the block's own [pb_type] pin count does not
    exceed the flat [get_tile_max_ptc]. *)
Theorem get_sub_block_pin_num_offset_in_flat_space
    (tile : t_physical_tile_type) (pre post : list t_sub_tile)
    (st : t_sub_tile) (spre spost : list t_logical_block_type_ptr)
    (b : t_logical_block_type_ptr) (rc : Z) :
  wf_tile_flat lb tile = true ->
  sub_tiles tile = pre ++ st :: post ->
  equivalent_sites st = spre ++ b :: spost -> b ∉ spre ->
  0 <= rc < total (capacity st) ->
  get_sub_block_pin_num_offset lb tile (length pre) b rc
  = num_pins tile + pb_pins_of_sub_tiles lb pre
    + rc * sum_pb_pins lb (equivalent_sites st) + sum_pb_pins lb spre
  /\ num_pins tile <= get_sub_block_pin_num_offset lb tile (length pre) b rc
  /\ exists max_ptc,
      get_tile_max_ptc lb tile true = Ret max_ptc
      /\ get_sub_block_pin_num_offset lb tile (length pre) b rc
         + pb_num_pins (pb_type (lb b)) <= max_ptc.
Proof.
  intros Hwf Heq Hsites Hb Hrc.
  apply wf_tile_flat_unfold in Hwf. rewrite Heq in Hwf.
  apply Forall_app in Hwf as [Hpre Hrest].
  apply Forall_cons in Hrest as [[Ht Hst] Hpost].
  pose proof (pb_pins_of_sub_tiles_nonneg pre Hpre) as Hpre0.
  pose proof (pb_pins_of_sub_tiles_nonneg post Hpost) as Hpost0.
  rewrite Hsites in Hst.
  apply Forall_app in Hst as [Hspre Hsrest].
  apply Forall_cons in Hsrest as [Hb0 Hspost].
  pose proof (sum_pb_pins_nonneg _ Hspre) as Hspre0.
  pose proof (sum_pb_pins_nonneg _ Hspost) as Hspost0.
  assert (Htot : Forall (fun st => 0 <= total (capacity st)) pre).
  { eapply Forall_impl; [exact Hpre|]. by intros s [? _]. }
  rewrite (offset_of_unit tile pre post st spre spost b rc) by done.
  assert (Hsum : sum_pb_pins lb (equivalent_sites st)
                 = sum_pb_pins lb spre + pb_num_pins (pb_type (lb b))
                   + sum_pb_pins lb spost).
  { rewrite Hsites, sum_pb_pins_app. simpl. lia. }
  split; [done|]. split; [nia|].
  exists (num_pins tile + get_total_num_tile_pins lb tile).
  split; [done|].
  rewrite get_total_num_tile_pins_sum, Heq, pb_pins_of_sub_tiles_app.
  simpl. nia.
Qed.

End FlatOffsets.

Lemma get_sub_block_pin_num_offset_in_flat_space_witness :
  get_sub_block_pin_num_offset example_blocks two_sub_tiles 1%nat 0%nat 1
  = 10 + 2 + 1 * 3 + 1
  /\ num_pins two_sub_tiles
     <= get_sub_block_pin_num_offset example_blocks two_sub_tiles 1%nat
          0%nat 1
  /\ exists max_ptc,
      get_tile_max_ptc example_blocks two_sub_tiles true = Ret max_ptc
      /\ get_sub_block_pin_num_offset example_blocks two_sub_tiles 1%nat
           0%nat 1
         + pb_num_pins (pb_type (example_blocks 0%nat)) <= max_ptc.
Proof.
  apply (get_sub_block_pin_num_offset_in_flat_space example_blocks
           two_sub_tiles [wide_sub_tile] [] pair_sub_tile [1%nat] [] 0%nat 1);
    try reflexivity.
  - rewrite elem_of_cons. intros [Hne | Hnil]; [done|].
    by apply elem_of_nil in Hnil.
  - vm_compute. split; [discriminate | reflexivity].
Defined.

(** ** Type and size of a flat class number *)

Section ClassQueries.

Variable lb : t_logical_block_type_ptr -> t_logical_block_type.
Variable tile : t_physical_tile_type.
Hypothesis tile_wf :
  Forall (fun s => wf_sub_tile_sites s = true) (sub_tiles tile).

(** Every flat class number lies in the range of one unit of the tile. *)
Lemma class_number_unit (n : Z) :
  0 <= n < classes_of_sub_tiles lb (sub_tiles tile) ->
  exists pre st post q spre b spost,
    sub_tiles tile = pre ++ st :: post
    /\ 0 <= q < total (capacity st)
    /\ equivalent_sites st = spre ++ b :: spost
    /\ (b ∉ spre)
    /\ (classes_of_sub_tiles lb pre + q * classes_per_instance lb st
        + sum_classes lb spre <= n
        < classes_of_sub_tiles lb pre + q * classes_per_instance lb st
          + sum_classes lb spre + num_primitive_classes lb b).
Proof.
  intros Hn.
  destruct (weighted_split
              (fun st => total (capacity st) * classes_per_instance lb st)
              (sub_tiles tile) n) as (pre & st & post & Heq & Hst);
    [| exact Hn |].
  { eapply Forall_impl; [exact tile_wf|]. intros s Hs. simpl.
    destruct (wf_sub_tile_sites_unfold s Hs) as (? & _).
    pose proof (classes_per_instance_nonneg lb s). nia. }
  change (foldr _ 0 pre) with (classes_of_sub_tiles lb pre) in Hst.
  simpl in Hst.
  pose proof (sub_tile_total_pos tile tile_wf pre post st Heq) as Ht.
  pose proof (classes_per_instance_nonneg lb st) as Hcpi.
  set (k := classes_per_instance lb st) in *.
  set (base := classes_of_sub_tiles lb pre) in *.
  destruct (quot_rem_bounds (n - base) k (total (capacity st)))
    as (Hq & Hr & Hsplit); [lia | nia |].
  destruct (weighted_split (num_primitive_classes lb) (equivalent_sites st)
                           (Z.rem (n - base) k))
    as (spre & b & spost & Hsites & Hb); [| exact Hr |].
  { apply Forall_forall. intros x _. apply num_primitive_classes_nonneg. }
  change (foldr _ 0 spre) with (sum_classes lb spre) in Hb.
  pose proof (sub_tile_sites_NoDup tile tile_wf pre post st Heq) as Hnd.
  rewrite Hsites in Hnd. apply NoDup_app in Hnd as (_ & Hnotin & _).
  exists pre, st, post, (Z.quot (n - base) k), spre, b, spost.
  repeat split; try done; try lia.
  intros Hin. apply (Hnotin b Hin). by left.
Qed.

(** What the queries answer for a number in the range of a unit. *)
Lemma class_queries_of_unit (pre post : list t_sub_tile) (st : t_sub_tile)
    (spre spost : list t_logical_block_type_ptr)
    (b : t_logical_block_type_ptr) (q n : Z) :
  sub_tiles tile = pre ++ st :: post ->
  0 <= q < total (capacity st) ->
  equivalent_sites st = spre ++ b :: spost ->
  b ∉ spre ->
  classes_of_sub_tiles lb pre + q * classes_per_instance lb st
  + sum_classes lb spre <= n
  < classes_of_sub_tiles lb pre + q * classes_per_instance lb st
    + sum_classes lb spre + num_primitive_classes lb b ->
  get_logical_block_from_class_physical_num lb tile n = Some b
  /\ get_class_logical_num_from_class_physical_num lb tile n
     = Ret (n - (classes_of_sub_tiles lb pre
                 + q * classes_per_instance lb st + sum_classes lb spre)).
Proof.
  intros Heq Hq Hsites Hb Hn.
  pose proof (classes_per_instance_nonneg lb st) as Hcpi.
  pose proof (sum_classes_nonneg lb spre) as Hspre.
  pose proof (sum_classes_nonneg lb spost) as Hspost.
  pose proof (classes_of_sub_tiles_nonneg lb pre
                (sub_tiles_before_total tile tile_wf pre post st Heq))
    as Hbase.
  assert (Hsum : classes_per_instance lb st
                 = sum_classes lb spre + num_primitive_classes lb b
                   + sum_classes lb spost).
  { unfold classes_per_instance. rewrite Hsites, sum_classes_app.
    simpl. lia. }
  set (k := classes_per_instance lb st) in *.
  set (base := classes_of_sub_tiles lb pre) in *.
  assert (Hblk : get_logical_block_from_class_physical_num lb tile n
                 = Some b).
  { unfold get_logical_block_from_class_physical_num. rewrite Heq.
    apply (block_scan lb tile tile_wf [] pre post st spre spost b n q);
      [done | lia | done |].
    simpl. fold base k. lia. }
  split; [done|].
  assert (Hsub : get_sub_tile_from_class_physical_num lb tile n
                 = Ret (Some (length pre))).
  { unfold get_sub_tile_from_class_physical_num. rewrite Heq.
    apply (sub_tile_scan lb tile tile_wf [] pre post st n); [done|].
    simpl. fold base k. nia. }
  assert (Hcap : get_sub_tile_cap_from_class_physical_num lb tile n = Ret q).
  { unfold get_sub_tile_cap_from_class_physical_num. rewrite Heq.
    apply (cap_scan lb tile tile_wf [] pre post st n q); [done | lia |].
    simpl. fold base k. nia. }
  unfold get_class_logical_num_from_class_physical_num.
  rewrite Hsub, Hcap, Hblk. cbn [bind].
  rewrite (class_num_of_unit lb tile pre post st spre spost b q 0);
    [| done | by apply (sub_tiles_before_total tile tile_wf pre post st)
     | done | done | done].
  fold base k. rewrite Z.add_0_r.
  destruct (Z.eqb_spec q (-1)); [lia|].
  destruct (Z.eqb_spec (base + q * k + sum_classes lb spre) (-1)); [nia|].
  done.
Qed.

End ClassQueries.

Lemma vec_get_in_range {A : Type} (v : list A) (i : Z) :
  0 <= i < size v ->
  exists a, v !! Z.to_nat i = Some a /\ vec_get v i = Ret a.
Proof.
  unfold size, vec_get. intros Hi.
  destruct (lookup_lt_is_Some_2 v (Z.to_nat i)) as [a Ha]; [lia|].
  exists a. split; [done|].
  destruct (Z.ltb_spec i 0); [lia|]. by rewrite Ha.
Qed.

(** X17. For every physical class number of the flat address space of a
    well-formed tile, [get_class_type_from_class_physical_num] and
    [get_class_num_pins_from_class_physical_num] in flat mode return the
    type and the pin count of one and the same class: the entry of
    [primitive_class_inf], of the logical block that
    [get_logical_block_from_class_physical_num] finds, at the logical
    class number that [get_class_logical_num_from_class_physical_num]
    computes.  Neither fails nor reads out of bounds. *)
Theorem class_type_and_size_of_flat_number
    (lb : t_logical_block_type_ptr -> t_logical_block_type)
    (tile : t_physical_tile_type) (n : Z) :
  wf_tile_classes tile = true ->
  0 <= n < get_tile_num_primitive_classes lb tile ->
  exists blk logical cls,
    get_logical_block_from_class_physical_num lb tile n = Some blk
    /\ get_class_logical_num_from_class_physical_num lb tile n = Ret logical
    /\ primitive_class_inf (lb blk) !! Z.to_nat logical = Some cls
    /\ get_class_type_from_class_physical_num lb tile n true
       = Ret (class_type cls)
    /\ get_class_num_pins_from_class_physical_num lb tile n true
       = Ret (class_num_pins cls).
Proof.
  intros Hwf Hn. apply forallb_Forall in Hwf.
  rewrite get_tile_num_primitive_classes_sum in Hn.
  destruct (class_number_unit lb tile Hwf n Hn)
    as (pre & st & post & q & spre & b & spost
        & Heq & Hq & Hsites & Hb & Hrange).
  destruct (class_queries_of_unit lb tile Hwf pre post st spre spost b q n)
    as [Hblk Hlog]; try done.
  set (start := classes_of_sub_tiles lb pre + q * classes_per_instance lb st
                + sum_classes lb spre) in *.
  destruct (vec_get_in_range (primitive_class_inf (lb b)) (n - start))
    as (cls & Hcls & Hget).
  { unfold num_primitive_classes in Hrange. lia. }
  exists b, (n - start), cls. repeat split; try done.
  - unfold get_class_type_from_class_physical_num.
    rewrite Hblk, Hlog. cbn [bind]. by rewrite Hget.
  - unfold get_class_num_pins_from_class_physical_num.
    rewrite Hblk, Hlog. cbn [bind]. by rewrite Hget.
Qed.

Lemma class_type_and_size_of_flat_number_witness :
  exists blk logical cls,
    get_logical_block_from_class_physical_num example_blocks two_sub_tiles 6
    = Some blk
    /\ get_class_logical_num_from_class_physical_num example_blocks
         two_sub_tiles 6 = Ret logical
    /\ primitive_class_inf (example_blocks blk) !! Z.to_nat logical = Some cls
    /\ get_class_type_from_class_physical_num example_blocks two_sub_tiles 6
         true = Ret (class_type cls)
    /\ get_class_num_pins_from_class_physical_num example_blocks two_sub_tiles
         6 true = Ret (class_num_pins cls).
Proof.
  apply (class_type_and_size_of_flat_number example_blocks two_sub_tiles 6).
  - reflexivity.
  - vm_compute. split; [discriminate | reflexivity].
Defined.

(** ** The primitive classes map *)

Lemma class_entries_lookup (first k : Z) (classes : list t_class) :
  class_entries first classes !! k
  = if first <=? k then classes !! Z.to_nat (k - first) else None.
Proof.
  induction classes as [|c rest IH] in first |- *; simpl.
  - rewrite lookup_empty. by destruct (first <=? k).
  - rewrite lookup_union, IH.
    destruct (Z.eq_dec first k) as [-> | Hne].
    + rewrite lookup_singleton_eq, Z.leb_refl, Z.sub_diag. simpl.
      destruct (Z.leb_spec (k + 1) k); [lia | done].
    + rewrite lookup_singleton_ne by done.
      destruct (Z.leb_spec first k), (Z.leb_spec (first + 1) k);
        try lia; simpl; [|done].
      replace (Z.to_nat (k - first)) with (S (Z.to_nat (k - (first + 1))))
        by lia.
      simpl. by destruct (rest !! Z.to_nat (k - (first + 1))).
Qed.

Lemma class_entries_first (a b : Z) (classes : list t_class) :
  a = b -> class_entries a classes = class_entries b classes.
Proof. by intros ->. Qed.

Lemma size_app {A : Type} (l1 l2 : list A) :
  size (l1 ++ l2) = size l1 + size l2.
Proof. unfold size. rewrite length_app. lia. Qed.

Lemma class_entries_app (first : Z) (l1 l2 : list t_class) :
  class_entries first (l1 ++ l2)
  = class_entries first l1 ∪ class_entries (first + size l1) l2.
Proof.
  induction l1 as [|c l1 IH] in first |- *; simpl.
  - unfold size. simpl. by rewrite Z.add_0_r, (left_id_L ∅ (∪)).
  - rewrite IH, (assoc_L (∪)). do 2 f_equal. unfold size. simpl. lia.
Qed.

Lemma map_insert_union (k : Z) (v : t_class) (m : gmap Z t_class) :
  map_insert k v m = m ∪ {[k := v]}.
Proof.
  unfold map_insert. apply map_eq. intros i.
  destruct (m !! k) as [w|] eqn:Hk.
  - rewrite lookup_union. destruct (Z.eq_dec k i) as [<- | Hne].
    + by rewrite Hk, lookup_singleton_eq.
    + rewrite lookup_singleton_ne by done. by destruct (m !! i).
  - by rewrite insert_union_singleton_r.
Qed.

Section ClassMaps.

Variable lb : t_logical_block_type_ptr -> t_logical_block_type.
Variable tile : t_physical_tile_type.
Hypothesis tile_wf :
  Forall (fun s => wf_sub_tile_sites s = true) (sub_tiles tile).

Local Abbreviation cst := (classes_of_sub_tiles lb).
Local Abbreviation cpi := (classes_per_instance lb).

Lemma size_site_classes (sites : list t_logical_block_type_ptr) :
  size (site_classes lb sites) = sum_classes lb sites.
Proof.
  induction sites as [|e l IH]; [done|].
  cbn [site_classes flat_map sum_classes foldr].
  rewrite size_app. unfold site_classes, sum_classes in IH. rewrite IH.
  done.
Qed.

Lemma size_instance_classes (st : t_sub_tile) (caps : list Z) :
  size (instance_classes lb st caps) = Z.of_nat (length caps) * cpi st.
Proof.
  induction caps as [|c l IH]; [done|].
  cbn [instance_classes flat_map length].
  rewrite size_app, size_site_classes.
  unfold instance_classes in IH. rewrite IH.
  unfold classes_per_instance. lia.
Qed.

Lemma size_sub_tiles_classes (sts : list t_sub_tile) :
  Forall (fun st => 0 <= total (capacity st)) sts ->
  size (sub_tiles_classes lb sts) = cst sts.
Proof.
  induction 1 as [|st l Hst _ IH]; [done|].
  cbn [sub_tiles_classes flat_map classes_of_sub_tiles foldr].
  rewrite size_app, size_instance_classes, length_seqZ, Z2Nat.id by done.
  unfold sub_tiles_classes, classes_of_sub_tiles in IH. rewrite IH. done.
Qed.

Lemma cst_before_nonneg (pre post : list t_sub_tile) (st : t_sub_tile) :
  sub_tiles tile = pre ++ st :: post -> 0 <= cst pre.
Proof.
  intros Heq. apply classes_of_sub_tiles_nonneg.
  by apply (sub_tiles_before_total tile tile_wf pre post st).
Qed.

(** The map of one unit: its classes from its first class number on. *)
Lemma unit_classes_map_loop (pre post : list t_sub_tile) (st : t_sub_tile)
    (spre spost : list t_logical_block_type_ptr)
    (b : t_logical_block_type_ptr) (q class_num : Z) (rest : list t_class)
    (acc : gmap Z t_class) :
  sub_tiles tile = pre ++ st :: post ->
  0 <= q < total (capacity st) ->
  equivalent_sites st = spre ++ b :: spost -> b ∉ spre ->
  0 <= class_num ->
  get_logical_block_primitive_classes_map_loop lb tile (length pre) b q rest
    class_num acc
  = Ret (acc ∪ class_entries (cst pre + q * cpi st + sum_classes lb spre
                              + class_num) rest).
Proof.
  intros Heq Hq Hsites Hb.
  pose proof (cst_before_nonneg pre post st Heq) as Hbase.
  pose proof (classes_per_instance_nonneg lb st) as Hcpi.
  pose proof (sum_classes_nonneg lb spre) as Hspre.
  induction rest as [|c rest IH] in class_num, acc |- *; intros Hnum.
  - simpl. by rewrite (right_id_L ∅ (∪)).
  - cbn [get_logical_block_primitive_classes_map_loop class_entries].
    rewrite (class_num_of_unit lb tile pre post st spre spost b q class_num);
      [| done | by apply (sub_tiles_before_total tile tile_wf pre post st)
       | done | done | done].
    destruct (Z.eqb_spec (cst pre + q * cpi st + sum_classes lb spre
                          + class_num) (-1)); [nia|].
    cbn [negb VTR_ASSERT bind].
    rewrite IH by lia. rewrite map_insert_union, <- (assoc_L (∪)).
    do 3 f_equal. apply class_entries_first. lia.
Qed.

Lemma sites_classes_map_loop (pre post : list t_sub_tile) (st : t_sub_tile)
    (sdone srest : list t_logical_block_type_ptr) (q : Z)
    (acc : gmap Z t_class) :
  sub_tiles tile = pre ++ st :: post ->
  0 <= q < total (capacity st) ->
  equivalent_sites st = sdone ++ srest ->
  get_sub_tile_primitive_classes_map_loop lb tile (length pre) q srest acc
  = Ret (acc ∪ class_entries (cst pre + q * cpi st + sum_classes lb sdone)
                             (site_classes lb srest)).
Proof.
  intros Heq Hq.
  induction srest as [|e srest IH] in sdone, acc |- *; intros Hsites.
  - simpl. by rewrite (right_id_L ∅ (∪)).
  - pose proof (sub_tile_sites_NoDup tile tile_wf pre post st Heq) as Hnd.
    rewrite Hsites in Hnd. apply NoDup_app in Hnd as (_ & Hnotin & _).
    assert (He : e ∉ sdone).
    { intros Hin. apply (Hnotin e Hin). by left. }
    cbn [get_sub_tile_primitive_classes_map_loop site_classes flat_map].
    unfold get_logical_block_primitive_classes_map.
    rewrite (unit_classes_map_loop pre post st sdone srest e q 0) by done.
    cbn [bind].
    rewrite (IH (sdone ++ [e])) by (by rewrite <- app_assoc).
    rewrite class_entries_app, (left_id_L ∅ (∪)), <- (assoc_L (∪)).
    rewrite sum_classes_app. simpl.
    do 2 f_equal.
    f_equal; apply class_entries_first; unfold num_primitive_classes, size;
      lia.
Qed.

Lemma sub_tile_classes_map (pre post : list t_sub_tile) (st : t_sub_tile)
    (q : Z) :
  sub_tiles tile = pre ++ st :: post ->
  0 <= q < total (capacity st) ->
  get_sub_tile_primitive_classes_map lb tile (length pre) q
  = Ret (class_entries (cst pre + q * cpi st)
                       (site_classes lb (equivalent_sites st))).
Proof.
  intros Heq Hq.
  unfold get_sub_tile_primitive_classes_map, deref_sub_tile.
  rewrite Heq at 1. rewrite list_lookup_middle by done. cbn [bind].
  rewrite (sites_classes_map_loop pre post st [] (equivalent_sites st) q)
    by done.
  rewrite (left_id_L ∅ (∪)). simpl. by rewrite Z.add_0_r.
Qed.

Lemma caps_classes_map_loop (pre post : list t_sub_tile) (st : t_sub_tile)
    (count : nat) (a : Z) (acc : gmap Z t_class) :
  sub_tiles tile = pre ++ st :: post ->
  0 <= a -> a + Z.of_nat count <= total (capacity st) ->
  get_tile_primitive_classes_map_caps lb tile (length pre)
    (seqZ a (Z.of_nat count)) acc
  = Ret (acc ∪ class_entries (cst pre + a * cpi st)
                 (instance_classes lb st (seqZ a (Z.of_nat count)))).
Proof.
  intros Heq.
  induction count as [|count IH] in a, acc |- *; intros Ha Hend.
  - rewrite seqZ_nil by lia. simpl. by rewrite (right_id_L ∅ (∪)).
  - rewrite seqZ_cons by lia.
    replace (Z.pred (Z.of_nat (S count))) with (Z.of_nat count) by lia.
    cbn [get_tile_primitive_classes_map_caps instance_classes flat_map].
    rewrite (sub_tile_classes_map pre post st a) by (done || lia).
    cbn [bind]. rewrite IH by lia.
    rewrite class_entries_app, size_site_classes, <- (assoc_L (∪)).
    do 3 f_equal. apply class_entries_first.
    unfold classes_per_instance. lia.
Qed.

Lemma tile_classes_map_loop (done rest : list t_sub_tile)
    (acc : gmap Z t_class) :
  sub_tiles tile = done ++ rest ->
  get_tile_primitive_classes_map_loop lb tile rest (length done) acc
  = Ret (acc ∪ class_entries (cst done) (sub_tiles_classes lb rest)).
Proof.
  induction rest as [|st rest IH] in done, acc |- *; intros Heq.
  - simpl. by rewrite (right_id_L ∅ (∪)).
  - pose proof (sub_tile_total_pos tile tile_wf done rest st Heq) as Ht.
    cbn [get_tile_primitive_classes_map_loop sub_tiles_classes flat_map].
    replace (total (capacity st)) with (Z.of_nat (Z.to_nat (total (capacity st))))
      at 1 2 by lia.
    rewrite (caps_classes_map_loop done rest st) by (done || lia).
    cbn [bind]. rewrite Z2Nat.id by lia.
    replace (S (length done)) with (length (done ++ [st]))
      by (rewrite length_app; simpl; lia).
    rewrite (IH (done ++ [st])) by (by rewrite <- app_assoc).
    rewrite class_entries_app, size_instance_classes, <- (assoc_L (∪)).
    rewrite length_seqZ, Z2Nat.id by lia.
    rewrite classes_of_sub_tiles_app. simpl.
    do 3 f_equal; apply class_entries_first; lia.
Qed.

End ClassMaps.

(** X18. On a well-formed tile [get_tile_primitive_classes_map] succeeds,
    and the map it returns is the sequence of the primitive classes of the
    tile in linearization order (sub-tile, capacity instance, equivalent
    site, class) keyed by position: its keys are exactly the numbers from 0
    up to [get_tile_num_primitive_classes], without gap or collision. *)
Theorem tile_primitive_classes_map_is_the_sequence
    (lb : t_logical_block_type_ptr -> t_logical_block_type)
    (tile : t_physical_tile_type) :
  wf_tile_classes tile = true ->
  exists m,
    get_tile_primitive_classes_map lb tile = Ret m
    /\ size (tile_primitive_classes lb tile)
       = get_tile_num_primitive_classes lb tile
    /\ (forall k,
          m !! k = if 0 <=? k
                   then tile_primitive_classes lb tile !! Z.to_nat k
                   else None)
    /\ (forall k,
          is_Some (m !! k)
          <-> 0 <= k < get_tile_num_primitive_classes lb tile).
Proof.
  intros Hwf. apply forallb_Forall in Hwf.
  assert (Hsize : size (tile_primitive_classes lb tile)
                  = get_tile_num_primitive_classes lb tile).
  { rewrite get_tile_num_primitive_classes_sum.
    apply size_sub_tiles_classes. by apply wf_sites_total_nonneg. }
  eexists. split; [|split; [exact Hsize|]].
  - unfold get_tile_primitive_classes_map.
    rewrite (tile_classes_map_loop lb tile Hwf [] (sub_tiles tile)) by done.
    by rewrite (left_id_L ∅ (∪)).
  - assert (Hlook : forall k,
               class_entries 0 (sub_tiles_classes lb (sub_tiles tile)) !! k
               = if 0 <=? k
                 then tile_primitive_classes lb tile !! Z.to_nat k
                 else None).
    { intros k. rewrite class_entries_lookup, Z.sub_0_r. done. }
    split; [exact Hlook|].
    intros k. simpl. rewrite Hlook, <- Hsize. unfold size.
    destruct (Z.leb_spec 0 k).
    + rewrite lookup_lt_is_Some. lia.
    + split; [by intros [? ?] | lia].
Qed.

Lemma tile_primitive_classes_map_is_the_sequence_witness :
  exists m,
    get_tile_primitive_classes_map example_blocks two_sub_tiles = Ret m
    /\ size (tile_primitive_classes example_blocks two_sub_tiles)
       = get_tile_num_primitive_classes example_blocks two_sub_tiles
    /\ (forall k,
          m !! k = if 0 <=? k
                   then tile_primitive_classes example_blocks two_sub_tiles
                        !! Z.to_nat k
                   else None)
    /\ (forall k,
          is_Some (m !! k)
          <-> 0 <= k
              < get_tile_num_primitive_classes example_blocks two_sub_tiles).
Proof.
  apply (tile_primitive_classes_map_is_the_sequence example_blocks
           two_sub_tiles).
  reflexivity.
Defined.

(** The classes of a unit sit in the sequence of the tile right after the
    classes of the units before it. *)
Lemma tile_primitive_classes_unit
    (lb : t_logical_block_type_ptr -> t_logical_block_type)
    (tile : t_physical_tile_type) (pre post : list t_sub_tile)
    (st : t_sub_tile) (spre spost : list t_logical_block_type_ptr)
    (b : t_logical_block_type_ptr) (q : Z) :
  sub_tiles tile = pre ++ st :: post ->
  Forall (fun s => 0 <= total (capacity s)) pre ->
  0 <= q < total (capacity st) ->
  equivalent_sites st = spre ++ b :: spost ->
  exists before after,
    tile_primitive_classes lb tile
    = before ++ primitive_class_inf (lb b) ++ after
    /\ size before
       = classes_of_sub_tiles lb pre + q * classes_per_instance lb st
         + sum_classes lb spre.
Proof.
  intros Heq Hpre Hq Hsites.
  exists (sub_tiles_classes lb pre
          ++ instance_classes lb st (seqZ 0 q) ++ site_classes lb spre).
  exists (site_classes lb spost
          ++ instance_classes lb st (seqZ (q + 1) (total (capacity st) - q - 1))
          ++ sub_tiles_classes lb post).
  split.
  - unfold tile_primitive_classes, sub_tiles_classes. rewrite Heq.
    rewrite flat_map_app. cbn [flat_map].
    rewrite (seqZ_split _ q Hq). unfold instance_classes.
    rewrite flat_map_app. cbn [flat_map].
    rewrite Hsites. unfold site_classes.
    rewrite flat_map_app. cbn [flat_map].
    by rewrite <- !app_assoc.
  - rewrite !size_app, size_sub_tiles_classes, size_instance_classes,
      size_site_classes by done.
    rewrite length_seqZ, Z2Nat.id by lia. lia.
Qed.

(** X19. The map and the per-number queries agree.  For every physical
    class number [n] of the flat address space of a well-formed tile, the
    entry of [get_tile_primitive_classes_map] at [n] is the class at the
    logical class number that
    [get_class_logical_num_from_class_physical_num] computes, in the block
    that [get_logical_block_from_class_physical_num] finds. *)
Theorem tile_primitive_classes_map_agrees_with_queries
    (lb : t_logical_block_type_ptr -> t_logical_block_type)
    (tile : t_physical_tile_type) (n : Z) :
  wf_tile_classes tile = true ->
  0 <= n < get_tile_num_primitive_classes lb tile ->
  exists m blk logical cls,
    get_tile_primitive_classes_map lb tile = Ret m
    /\ get_logical_block_from_class_physical_num lb tile n = Some blk
    /\ get_class_logical_num_from_class_physical_num lb tile n = Ret logical
    /\ primitive_class_inf (lb blk) !! Z.to_nat logical = Some cls
    /\ m !! n = Some cls.
Proof.
  intros Hwf Hn. apply forallb_Forall in Hwf.
  rewrite get_tile_num_primitive_classes_sum in Hn.
  destruct (class_number_unit lb tile Hwf n Hn)
    as (pre & st & post & q & spre & b & spost
        & Heq & Hq & Hsites & Hb & Hrange).
  destruct (class_queries_of_unit lb tile Hwf pre post st spre spost b q n)
    as [Hblk Hlog]; try done.
  pose proof (sub_tiles_before_total tile Hwf pre post st Heq) as Hpre.
  destruct (tile_primitive_classes_unit lb tile pre post st spre spost b q)
    as (before & after & Hflat & Hsize); try done.
  set (start := classes_of_sub_tiles lb pre + q * classes_per_instance lb st
                + sum_classes lb spre) in *.
  assert (Hstart : 0 <= start).
  { rewrite <- Hsize. unfold size. lia. }
  destruct (vec_get_in_range (primitive_class_inf (lb b)) (n - start))
    as (cls & Hcls & _).
  { unfold num_primitive_classes in Hrange. lia. }
  eexists _, b, (n - start), cls. split; [|repeat split; try done].
  - unfold get_tile_primitive_classes_map.
    rewrite (tile_classes_map_loop lb tile Hwf [] (sub_tiles tile)) by done.
    by rewrite (left_id_L ∅ (∪)).
  - change (classes_of_sub_tiles lb []) with 0.
    rewrite class_entries_lookup, Z.sub_0_r.
    destruct (Z.leb_spec 0 n); [|lia].
    change (sub_tiles_classes lb (sub_tiles tile))
      with (tile_primitive_classes lb tile).
    rewrite Hflat. unfold size in Hsize.
    rewrite lookup_app_r by lia.
    replace (Z.to_nat n - length before)%nat with (Z.to_nat (n - start))
      by lia.
    rewrite lookup_app_l; [done|].
    by apply lookup_lt_Some in Hcls.
Qed.

Lemma tile_primitive_classes_map_agrees_with_queries_witness :
  exists m blk logical cls,
    get_tile_primitive_classes_map example_blocks two_sub_tiles = Ret m
    /\ get_logical_block_from_class_physical_num example_blocks two_sub_tiles
         10 = Some blk
    /\ get_class_logical_num_from_class_physical_num example_blocks
         two_sub_tiles 10 = Ret logical
    /\ primitive_class_inf (example_blocks blk) !! Z.to_nat logical = Some cls
    /\ m !! 10 = Some cls.
Proof.
  apply (tile_primitive_classes_map_agrees_with_queries example_blocks
           two_sub_tiles 10).
  - reflexivity.
  - vm_compute. split; [discriminate | reflexivity].
Defined.

(** X20. The map of one unit sends the physical number of each class of
    the block to that class: in [get_logical_block_primitive_classes_map],
    for a sub-tile of a well-formed tile, one of its capacity instances
    and a block it lists, the entry at
    [get_primitives_class_physical_num] of a class number [i] of the
    block is the class [primitive_class_inf[i]]. *)
Theorem logical_block_primitive_classes_map_lookup
    (lb : t_logical_block_type_ptr -> t_logical_block_type)
    (tile : t_physical_tile_type) (pre post : list t_sub_tile)
    (st : t_sub_tile) (b : t_logical_block_type_ptr) (q i : Z)
    (cls : t_class) :
  wf_tile_classes tile = true ->
  sub_tiles tile = pre ++ st :: post ->
  0 <= q < total (capacity st) ->
  b ∈ equivalent_sites st ->
  0 <= i ->
  primitive_class_inf (lb b) !! Z.to_nat i = Some cls ->
  exists m,
    get_logical_block_primitive_classes_map lb tile (length pre) b q = Ret m
    /\ m !! get_primitives_class_physical_num lb tile (Some (length pre))
              (Some b) q i = Some cls.
Proof.
  intros Hwf Heq Hq Hin Hi Hcls. apply forallb_Forall in Hwf.
  apply list_elem_of_split in Hin as (spre & spost & Hsites).
  pose proof (sub_tile_sites_NoDup tile Hwf pre post st Heq) as Hnd.
  rewrite Hsites in Hnd. apply NoDup_app in Hnd as (_ & Hnotin & _).
  assert (Hb : b ∉ spre).
  { intros Hb. apply (Hnotin b Hb). by left. }
  pose proof (sub_tiles_before_total tile Hwf pre post st Heq) as Hpre.
  eexists. split.
  - unfold get_logical_block_primitive_classes_map.
    by rewrite (unit_classes_map_loop lb tile Hwf pre post st spre spost b q 0).
  - rewrite (class_num_of_unit lb tile pre post st spre spost b q i) by done.
    rewrite lookup_union, lookup_empty, class_entries_lookup.
    destruct (Z.leb_spec
                (classes_of_sub_tiles lb pre + q * classes_per_instance lb st
                 + sum_classes lb spre + 0)
                (classes_of_sub_tiles lb pre + q * classes_per_instance lb st
                 + sum_classes lb spre + i)); [|lia].
    replace (classes_of_sub_tiles lb pre + q * classes_per_instance lb st
             + sum_classes lb spre + i
             - (classes_of_sub_tiles lb pre + q * classes_per_instance lb st
                + sum_classes lb spre + 0)) with i by lia.
    by rewrite Hcls.
Qed.

Lemma logical_block_primitive_classes_map_lookup_witness :
  exists m,
    get_logical_block_primitive_classes_map example_blocks two_sub_tiles
      1%nat 0%nat 1 = Ret m
    /\ m !! get_primitives_class_physical_num example_blocks two_sub_tiles
              (Some 1%nat) (Some 0%nat) 1 2
       = Some (mk_class DRIVER [4]).
Proof.
  apply (logical_block_primitive_classes_map_lookup example_blocks
           two_sub_tiles [wide_sub_tile] [] pair_sub_tile 0%nat 1 2
           (mk_class DRIVER [4])); try reflexivity.
  - vm_compute. split; [discriminate | reflexivity].
  - right. by left.
  - lia.
Defined.

(** ** Tiles with one sub-tile *)

(** X21. On a tile with a single sub-tile the capacity instance of a
    root-level pin is the same by both routes:
    [get_sub_tile_cap_from_pin_physical_num] returns the instance number
    that [get_pin_index_for_inst] returns. *)
Theorem single_sub_tile_capacity_instance
    (lb : t_logical_block_type_ptr -> t_logical_block_type)
    (tile : t_physical_tile_type) (st : t_sub_tile) (p : Z) :
  sub_tiles tile = [st] ->
  num_pins tile = num_phy_pins st ->
  0 < Z.quot (num_phy_pins st) (total (capacity st)) ->
  0 <= p < num_pins tile ->
  get_sub_tile_cap_from_pin_physical_num lb tile p
  = Ret (Z.quot p (Z.quot (num_phy_pins st) (total (capacity st))))
  /\ get_pin_index_for_inst tile p
     = Ret (Z.rem p (Z.quot (num_phy_pins st) (total (capacity st))),
            Z.quot p (Z.quot (num_phy_pins st) (total (capacity st))),
            index st).
Proof.
  intros Heq Hnum Hk Hp.
  set (k := Z.quot (num_phy_pins st) (total (capacity st))) in *.
  assert (Ht : total (capacity st) <> 0).
  { intros Ht. unfold k in Hk. rewrite Ht, Z.quot_0_r_ext in Hk; lia. }
  assert (Hk0 : k <> 0) by lia.
  split.
  - unfold get_sub_tile_cap_from_pin_physical_num,
      get_sub_tile_from_pin_physical_num, deref_sub_tile.
    rewrite (proj2 (Z.ltb_lt _ _) (proj2 Hp)), Heq.
    cbn [get_sub_tile_from_pin_physical_num_root].
    destruct (Z.ltb_spec p (0 + num_phy_pins st)); [|lia].
    cbn. rewrite (int_div_nonzero _ _ Ht). cbn [bind]. fold k.
    rewrite (int_div_nonzero _ _ Hk0). cbn [bind].
    pose proof (Z.quot_pos p k ltac:(lia) ltac:(lia)).
    destruct (Z.eqb_spec (Z.quot p k) (-1)); [lia | done].
  - rewrite (get_pin_index_for_inst_owner tile [] [] st p);
      [| done | constructor | lia | simpl; lia | done].
    simpl. fold k. by rewrite Z.sub_0_r.
Qed.

Lemma single_sub_tile_capacity_instance_witness :
  get_sub_tile_cap_from_pin_physical_num example_blocks CLOCK_TILE 2
  = Ret (Z.quot 2 (Z.quot (num_phy_pins BUFG) (total (capacity BUFG))))
  /\ get_pin_index_for_inst CLOCK_TILE 2
     = Ret (Z.rem 2 (Z.quot (num_phy_pins BUFG) (total (capacity BUFG))),
            Z.quot 2 (Z.quot (num_phy_pins BUFG) (total (capacity BUFG))),
            index BUFG).
Proof.
  apply (single_sub_tile_capacity_instance example_blocks CLOCK_TILE BUFG 2);
    try reflexivity.
  simpl. lia.
Defined.

(** ** Failures of the root pin translators *)

(** X22. A pin at or beyond the accumulated pin count of the sub-tiles has
    no owner: [get_capacity_location_from_physical_pin] fails with the
    error that names the pin and the tile, and so does
    [get_pin_index_for_inst] if the pin is below the declared pin count of
    the tile.  A capacity location in no sub-tile's range makes
    [get_physical_pin_from_capacity_location] fail with the error that
    names the relative pin, the location and the tile. *)
Theorem capacity_location_errors (tile : t_physical_tile_type)
    (p relative_pin capacity_location : Z) :
  Forall (fun st => 0 <= num_phy_pins st /\ total (capacity st) <> 0)
         (sub_tiles tile) ->
  (root_pins (sub_tiles tile) <= p ->
   get_capacity_location_from_physical_pin tile p
   = Throw (NoSubTileContainsPin p (name tile))
   /\ (p < num_pins tile ->
       get_pin_index_for_inst tile p
       = Throw (CouldNotInferPinInstance (name tile) p)))
  /\ (Forall (fun st => is_in_range (capacity st) capacity_location = false)
             (sub_tiles tile) ->
      get_physical_pin_from_capacity_location tile relative_pin
        capacity_location
      = Throw (NoSubTileContainsRelativePin relative_pin capacity_location
                                            (name tile))).
Proof.
  intros Hwf.
  assert (Hnonneg : Forall (fun st => 0 <= num_phy_pins st) (sub_tiles tile)).
  { eapply Forall_impl; [exact Hwf|]. by intros st [? _]. }
  split.
  - intros Hp. split.
    + unfold get_capacity_location_from_physical_pin.
      rewrite <- (app_nil_r (sub_tiles tile)).
      by rewrite get_capacity_location_loop_skip by (done || lia).
    + intros Hlt. by apply get_pin_index_for_inst_no_owner.
  - intros Hout. unfold get_physical_pin_from_capacity_location.
    rewrite <- (app_nil_r (sub_tiles tile)).
    rewrite get_physical_pin_loop_skip; [done|].
    rewrite Forall_forall in Hwf, Hout. apply Forall_forall.
    intros st Hst. split; [by apply Hwf | by apply Hout].
Qed.

Lemma capacity_location_errors_witness :
  (get_capacity_location_from_physical_pin two_sub_tiles 10
   = Throw (NoSubTileContainsPin 10 (name two_sub_tiles))
   /\ (10 < num_pins two_sub_tiles ->
       get_pin_index_for_inst two_sub_tiles 10
       = Throw (CouldNotInferPinInstance (name two_sub_tiles) 10)))
  /\ get_physical_pin_from_capacity_location two_sub_tiles 0 3
     = Throw (NoSubTileContainsRelativePin 0 3 (name two_sub_tiles)).
Proof.
  destruct (capacity_location_errors two_sub_tiles 10 0 3) as [Hpin Hloc].
  - repeat constructor; simpl; (lia || (vm_compute; discriminate)).
  - split; [apply Hpin; simpl; lia | apply Hloc; by repeat constructor].
Defined.

(** X23. A logical pin without an entry in the direct pin map is a fatal
    error that names the pin, the tile and the block.  When the tile hosts
    the block and the direct pin map has a table for the block and the
    resolved sub-tile, but no entry for the pin, [get_physical_pin] (the
    sub-tile being the last that lists the block) and
    [get_physical_pin_at_sub_tile_location] (the sub-tile being the first
    that lists the block and holds the slot) both fail with that error. *)
Theorem missing_direct_pin_is_fatal
    (lb : t_logical_block_type_ptr -> t_logical_block_type)
    (tile : t_physical_tile_type) (blk : t_logical_block_type_ptr)
    (pre post : list t_sub_tile) (st : t_sub_tile) (pin : Z)
    (by_sub_tile : gmap Z (gmap Z Z)) (direct_map : gmap Z Z) :
  sub_tiles tile = pre ++ st :: post ->
  is_equivalent_site st blk = true ->
  0 <= index st ->
  tile_block_pin_directs_map tile !! lb_index (lb blk) = Some by_sub_tile ->
  by_sub_tile !! index st = Some direct_map ->
  direct_map !! pin = None ->
  (Forall (fun s => is_equivalent_site s blk = false) post ->
   get_physical_pin lb tile blk pin
   = Throw (NoPhysicalPinForLogicalPin pin (name tile) (lb_name (lb blk))))
  /\ (forall cap,
        is_in_range (capacity st) cap = true ->
        Forall (fun s => (is_equivalent_site s blk
                          && is_in_range (capacity s) cap) = false) pre ->
        get_physical_pin_at_sub_tile_location lb tile blk cap pin
        = Throw (NoPhysicalPinForLogicalPin pin (name tile)
                                            (lb_name (lb blk)))).
Proof.
  intros Heq Hl Hidx Hblk Hst Hpin.
  assert (Hopen : (index st =? OPEN) = false).
  { apply Z.eqb_neq. unfold OPEN. lia. }
  assert (Hdirect : get_sub_tile_physical_pin lb (index st) tile blk pin
                    = Throw (NoPhysicalPinForLogicalPin pin (name tile)
                                                        (lb_name (lb blk)))).
  { unfold get_sub_tile_physical_pin. by rewrite Hblk, Hst, Hpin. }
  split.
  - intros Hpost. unfold get_physical_pin,
      get_logical_block_physical_sub_tile_index.
    rewrite Heq, sub_tile_index_loop_last, Hopen by done. cbn [bind].
    by rewrite Hopen, Hdirect.
  - intros cap Hin Hpre. unfold get_physical_pin_at_sub_tile_location,
      get_logical_block_physical_sub_tile_index_at.
    rewrite Heq, (sub_tile_index_at_loop_first pre post st), Hopen;
      [| done | by rewrite Hl, Hin].
    cbn [bind]. by rewrite Hopen, Hdirect.
Qed.

Lemma missing_direct_pin_is_fatal_witness :
  get_physical_pin example_blocks two_sub_tiles 0%nat 5
  = Throw (NoPhysicalPinForLogicalPin 5 (name two_sub_tiles)
             (lb_name (example_blocks 0%nat)))
  /\ get_physical_pin_at_sub_tile_location example_blocks two_sub_tiles
       0%nat 2 5
     = Throw (NoPhysicalPinForLogicalPin 5 (name two_sub_tiles)
                (lb_name (example_blocks 0%nat))).
Proof.
  destruct (missing_direct_pin_is_fatal example_blocks two_sub_tiles 0%nat
              [wide_sub_tile] [] pair_sub_tile 5
              {[ 0 := {[ 0 := 3 ]}; 1 := {[ 0 := 1 ]} ]} {[ 0 := 1 ]})
    as [Hlast Hfirst];
    [reflexivity | reflexivity | simpl; lia | reflexivity | reflexivity
     | reflexivity |].
  split.
  - apply Hlast. constructor.
  - apply (Hfirst 2); [reflexivity | by repeat constructor].
Defined.
